(** * Quill compiler: type system, type checker and IR optimisation passes

    A shallow embedding of the Quill front end ([types/type_system.cpp],
    [types/type_checker.cpp]) and of its custom optimisation passes
    ([optimization/optimization_manager.cpp],
    [optimization/type_directed_pass_impl.cpp]), followed by the properties
    established about them.

    Conventions.
    - A C++ pointer that may be null ([const Type*], [unique_ptr<ExprAST>])
      is an [option]; [None] is [nullptr].
    - [std::map<std::string, _>] is a [gmap string _], [std::set<std::string>]
      a [gset string].
    - A [double] is an IEEE-754 binary64 value, represented by [spec_float]
      with precision 53 and maximal exponent 1024.
    - Each C++ class becomes a module of the same name holding its member
      functions; mutable objects are passed and returned explicitly. *)

From Stdlib Require Import ZArith String List Ascii Bool Lia.
From Stdlib Require Import SpecFloat.
From stdpp Require Import gmap strings list fin_maps.

Set Warnings "-register-all,-clear-no-such-hyp".
Local Open Scope string_scope.

(* ================================================================== *)
(** * Part I.  Definitions                                            *)
(* ================================================================== *)

(** ** IEEE doubles *)

Definition double : Type := spec_float.

Definition dprec : Z := 53.
Definition demax : Z := 1024.

Definition INT_MIN : Z := - 2 ^ 31.
Definition INT_MAX : Z := 2 ^ 31 - 1.
Definition INT64_MIN : Z := - 2 ^ 63.
Definition INT64_MAX : Z := 2 ^ 63 - 1.

(** Two's complement wrap-around of an integer to [w] bits, signed. *)
Definition wrap_signed (w : Z) (z : Z) : Z :=
  (z + 2 ^ (w - 1)) mod 2 ^ w - 2 ^ (w - 1).

(** Wrap-around to [w] bits, unsigned. *)
Definition wrap_unsigned (w : Z) (z : Z) : Z := z mod 2 ^ w.

(** The integer obtained from a double by discarding its fractional part
    (rounding toward zero); [None] for infinities and NaN. *)
Definition double_trunc (d : double) : option Z :=
  match d with
  | S754_zero _ => Some 0%Z
  | S754_finite s m e =>
      let mag := if (0 <=? e)%Z then (Z.pos m * 2 ^ e)%Z
                 else (Z.pos m / 2 ^ (- e))%Z in
      Some (cond_Zopp s mag)
  | S754_infinity _ => None
  | S754_nan => None
  end.

(** A double is integer-valued when it is finite and has no fractional
    part ([fpVal == std::floor(fpVal)]). *)
Definition double_is_integral (d : double) : bool :=
  match d with
  | S754_zero _ => true
  | S754_finite s m e =>
      if (0 <=? e)%Z then true else (Z.pos m mod 2 ^ (- e) =? 0)%Z
  | S754_infinity _ => true   (* floor(inf) == inf *)
  | S754_nan => false
  end.

(** Conversion of an integer to the nearest double ([sitofp], or the implicit
    int -> double conversion of C++). *)
Definition double_of_Z (z : Z) : double := binary_normalize dprec demax z 0 false.

(** [d == z] for a double [d] and an integer [z] of at most 53 bits.  The
    conversion of such an integer to double is exact, so the comparison is
    that of the two real values, [d] being (-1)^s * m * 2^e. *)
Definition double_eq_Z (d : double) (z : Z) : bool :=
  match d with
  | S754_zero _ => (z =? 0)%Z
  | S754_finite s m e =>
      if (0 <=? e)%Z then (cond_Zopp s (Z.pos m * 2 ^ e) =? z)%Z
      else (Z.pos m mod 2 ^ (- e) =? 0)%Z &&
           (cond_Zopp s (Z.pos m / 2 ^ (- e)) =? z)%Z
  | S754_infinity _ => false
  | S754_nan => false
  end.

Definition double_eqb (a b : double) : bool := SFeqb a b.
Definition double_leb (a b : double) : bool := SFleb a b.
Definition double_ltb (a b : double) : bool := SFltb a b.

(* ------------------------------------------------------------------ *)
(** ** The type model ([type_system.h], [type_system.cpp])             *)
(* ------------------------------------------------------------------ *)

Inductive TypeKind :=
| INT | FLOAT | BOOL | STRING | VOID
| FUNCTION | LIST | TUPLE
| GENERIC | UNION | DISCRIMINATED_UNION | INTERFACE | UNKNOWN | ERROR_TYPE.

Definition TypeKind_eqb (a b : TypeKind) : bool :=
  match a, b with
  | INT, INT | FLOAT, FLOAT | BOOL, BOOL | STRING, STRING | VOID, VOID
  | FUNCTION, FUNCTION | LIST, LIST | TUPLE, TUPLE
  | GENERIC, GENERIC | UNION, UNION
  | DISCRIMINATED_UNION, DISCRIMINATED_UNION | INTERFACE, INTERFACE
  | UNKNOWN, UNKNOWN | ERROR_TYPE, ERROR_TYPE => true
  | _, _ => false
  end.

(** The class hierarchy rooted at [Type], as a closed variant.  A method
    signature of an interface is a [FunctionType], kept as the pair of its
    parameter types and its return type. *)
Inductive QType :=
| IntType
| FloatType
| BoolType
| StringType
| VoidType
| FunctionType (param_types : list QType) (return_type : QType)
| ListType (element_type : QType)
| TupleType (element_types : list QType)
| UnionType (types : list QType)
| GenericType (parameter_name : string) (constraints : list QType)
| DiscriminatedUnionType (variants : list (string * QType))
| InterfaceType (interface_name : string)
                (methods : list (string * (list QType * QType)))
| UnknownType
| ErrorType (error_message : string).

(** The [kind] and [name] fields set by each constructor. *)
Definition kind (t : QType) : TypeKind :=
  match t with
  | IntType => INT
  | FloatType => FLOAT
  | BoolType => BOOL
  | StringType => STRING
  | VoidType => VOID
  | FunctionType _ _ => FUNCTION
  | ListType _ => LIST
  | TupleType _ => TUPLE
  | UnionType _ => UNION
  | GenericType _ _ => GENERIC
  | DiscriminatedUnionType _ => DISCRIMINATED_UNION
  | InterfaceType _ _ => INTERFACE
  | UnknownType => UNKNOWN
  | ErrorType _ => ERROR_TYPE
  end.

Definition name (t : QType) : string :=
  match t with
  | IntType => "int"
  | FloatType => "float"
  | BoolType => "bool"
  | StringType => "str"
  | VoidType => "void"
  | FunctionType _ _ => "function"
  | ListType _ => "list"
  | TupleType _ => "tuple"
  | UnionType _ => "union"
  | GenericType n _ => n
  | DiscriminatedUnionType _ => "discriminated_union"
  | InterfaceType n _ => n
  | UnknownType => "unknown"
  | ErrorType _ => "error"
  end.

Definition isPrimitive (t : QType) : bool :=
  TypeKind_eqb (kind t) INT || TypeKind_eqb (kind t) FLOAT ||
  TypeKind_eqb (kind t) BOOL || TypeKind_eqb (kind t) STRING.
Definition isNumeric (t : QType) : bool :=
  TypeKind_eqb (kind t) INT || TypeKind_eqb (kind t) FLOAT.
Definition isInteger (t : QType) : bool := TypeKind_eqb (kind t) INT.
Definition isFloat (t : QType) : bool := TypeKind_eqb (kind t) FLOAT.
Definition isBool (t : QType) : bool := TypeKind_eqb (kind t) BOOL.
Definition isString (t : QType) : bool := TypeKind_eqb (kind t) STRING.
Definition isVoid (t : QType) : bool := TypeKind_eqb (kind t) VOID.
Definition isFunction (t : QType) : bool := TypeKind_eqb (kind t) FUNCTION.
Definition isList (t : QType) : bool := TypeKind_eqb (kind t) LIST.
Definition isUnknown (t : QType) : bool := TypeKind_eqb (kind t) UNKNOWN.
Definition isError (t : QType) : bool := TypeKind_eqb (kind t) ERROR_TYPE.

(** [Type::equals], the base-class implementation. *)
Definition Type_equals (t : QType) (other : option QType) : bool :=
  match other with
  | None => false
  | Some o => TypeKind_eqb (kind t) (kind o) && String.eqb (name t) (name o)
  end.

(** [FunctionType::equals] once [other] is known to be a function type with
    fields [ps'] and [r']; [eq] is the virtual [equals]. *)
Definition FunctionType_equals (eq : QType -> option QType -> bool)
  (ps : list QType) (r : QType) (ps' : list QType) (r' : QType) : bool :=
  if negb (length ps =? length ps')%nat then false
  else if negb ((fix loop (l l' : list QType) : bool :=
                   match l, l' with
                   | p :: l, p' :: l' =>
                       if negb (eq p (Some p')) then false else loop l l'
                   | _, _ => true
                   end) ps ps')
  then false
  else eq r (Some r').

(** [DiscriminatedUnionType::getVariantType]: the payload of the first
    variant carrying [tag]. *)
Fixpoint getVariantType (vs : list (string * QType)) (tag : string)
  : option QType :=
  match vs with
  | [] => None
  | (t, data_type) :: vs =>
      if String.eqb t tag then Some data_type else getVariantType vs tag
  end.

Definition hasVariant (vs : list (string * QType)) (tag : string) : bool :=
  match getVariantType vs tag with Some _ => true | None => false end.

(** [InterfaceType::getMethod]: the signature of the first method called [n]. *)
Fixpoint getMethod (ms : list (string * (list QType * QType))) (n : string)
  : option (list QType * QType) :=
  match ms with
  | [] => None
  | (m, signature) :: ms =>
      if String.eqb m n then Some signature else getMethod ms n
  end.

Definition hasMethod (ms : list (string * (list QType * QType))) (n : string)
  : bool :=
  match getMethod ms n with Some _ => true | None => false end.

(** The virtual [equals]: each override in its own branch, the remaining
    classes fall back on [Type::equals]. *)
Fixpoint equals (t : QType) (other : option QType) {struct t} : bool :=
  match t with
  | FunctionType ps r =>
      match other with
      | Some (FunctionType ps' r') => FunctionType_equals equals ps r ps' r'
      | _ => false
      end
  | ListType elem =>
      match other with
      | Some (ListType elem') => equals elem (Some elem')
      | _ => false
      end
  | TupleType elems =>
      match other with
      | Some (TupleType elems') =>
          if negb (length elems =? length elems')%nat then false
          else (fix loop (l l' : list QType) : bool :=
                  match l, l' with
                  | e :: l, e' :: l' =>
                      if negb (equals e (Some e')) then false else loop l l'
                  | _, _ => true
                  end) elems elems'
      | _ => false
      end
  | UnionType ts =>
      match other with
      | Some (UnionType ts') =>
          if negb (length ts =? length ts')%nat then false
          else forallb (fun ty => existsb (fun o => equals ty (Some o)) ts') ts
      | _ => false
      end
  | DiscriminatedUnionType vs =>
      match other with
      | Some (DiscriminatedUnionType vs') =>
          if negb (length vs =? length vs')%nat then false
          else forallb (fun v =>
                 match getVariantType vs' (fst v) with
                 | Some other_variant_type =>
                     equals (snd v) (Some other_variant_type)
                 | None => false
                 end) vs
      | _ => false
      end
  | InterfaceType n ms =>
      match other with
      | Some (InterfaceType n' ms') =>
          if negb (String.eqb n n') then false
          else if negb (length ms =? length ms')%nat then false
          else forallb (fun m =>
                 match getMethod ms' (fst m) with
                 | Some (ps', r') =>
                     FunctionType_equals equals
                       (fst (snd m)) (snd (snd m)) ps' r'
                 | None => false
                 end) ms
      | _ => false
      end
  | _ => Type_equals t other
  end.

(** The virtual [isAssignableFrom]. [FloatType], [UnionType] (inherited by
    [DiscriminatedUnionType], whose [types] are its variants' payloads),
    [InterfaceType] and [UnknownType] override it; the other classes use
    [Type::isAssignableFrom], which is [equals]. *)
Fixpoint isAssignableFrom (t : QType) (other : option QType) {struct t} : bool :=
  match t with
  | FloatType =>
      match other with
      | Some o => TypeKind_eqb (kind o) FLOAT || TypeKind_eqb (kind o) INT
      | None => false
      end
  | UnionType ts =>
      match other with
      | None => false
      | Some _ => existsb (fun ty => isAssignableFrom ty other) ts
      end
  | DiscriminatedUnionType vs =>
      match other with
      | None => false
      | Some _ => existsb (fun v => isAssignableFrom (snd v) other) vs
      end
  | InterfaceType n ms =>
      match other with
      | None => false
      | Some (InterfaceType n' ms') =>
          forallb (fun m =>
            if negb (hasMethod ms' (fst m)) then false
            else match getMethod ms' (fst m) with
                 | Some (ps', r') =>
                     FunctionType_equals equals
                       (fst (snd m)) (snd (snd m)) ps' r'
                 | None => false
                 end) ms
      | Some _ => false
      end
  | UnknownType => true
  | _ => equals t other
  end.

(** [clone]: a deep copy, member by member. *)
Fixpoint clone (t : QType) : QType :=
  match t with
  | IntType => IntType
  | FloatType => FloatType
  | BoolType => BoolType
  | StringType => StringType
  | VoidType => VoidType
  | FunctionType ps r => FunctionType (map clone ps) (clone r)
  | ListType e => ListType (clone e)
  | TupleType es => TupleType (map clone es)
  | UnionType ts => UnionType (map clone ts)
  | GenericType n cs => GenericType n (map clone cs)
  | DiscriminatedUnionType vs =>
      DiscriminatedUnionType (map (fun v => (fst v, clone (snd v))) vs)
  | InterfaceType n ms =>
      InterfaceType n
        (map (fun m => (fst m, (map clone (fst (snd m)), clone (snd (snd m))))) ms)
  | UnknownType => UnknownType
  | ErrorType msg => ErrorType msg
  end.

(** Items separated by [sep], as the [stringstream] loops print them. *)
Fixpoint join (sep : string) (l : list string) : string :=
  match l with
  | [] => EmptyString
  | [x] => x
  | x :: rest => x ++ sep ++ join sep rest
  end.

Definition FunctionType_toString (toString : QType -> string)
  (ps : list QType) (r : QType) : string :=
  "(" ++ join ", " (map toString ps) ++ ") -> " ++ toString r.

Fixpoint toString (t : QType) : string :=
  match t with
  | FunctionType ps r => FunctionType_toString toString ps r
  | ListType e => "list[" ++ toString e ++ "]"
  | TupleType es => "tuple[" ++ join ", " (map toString es) ++ "]"
  | UnionType ts => join " | " (map toString ts)
  | GenericType n _ => n
  | DiscriminatedUnionType vs =>
      join " | " (map (fun v => fst v ++ "(" ++ toString (snd v) ++ ")") vs)
  | InterfaceType n ms =>
      "interface " ++ n ++ " { " ++
      join "; " (map (fun m => fst m ++ ": " ++
                   FunctionType_toString toString (fst (snd m)) (snd (snd m))) ms)
      ++ " }"
  | _ => name t
  end.

(* ------------------------------------------------------------------ *)
(** ** [TypeFactory]                                                   *)
(* ------------------------------------------------------------------ *)

Module TypeFactory.

Definition createInt : QType := IntType.
Definition createFloat : QType := FloatType.
Definition createBool : QType := BoolType.
Definition createString : QType := StringType.
Definition createVoid : QType := VoidType.
Definition createUnknown : QType := UnknownType.
Definition createError (message : string) : QType := ErrorType message.
Definition createFunction (params : list QType) (return_type : QType) : QType :=
  FunctionType params return_type.
Definition createList (element_type : QType) : QType := ListType element_type.
Definition createTuple (elements : list QType) : QType := TupleType elements.
Definition createUnion (types : list QType) : QType := UnionType types.

Definition promoteNumericTypes (t1 t2 : option QType) : QType :=
  match t1, t2 with
  | Some a, Some b =>
      if (isFloat a || isFloat b) && (isNumeric a && isNumeric b)
      then createFloat
      else if isInteger a && isInteger b then createInt
      else createError "cannot promote non-numeric types"
  | _, _ => createError "null type in promotion"
  end.

Definition unifyTypes (t1 t2 : option QType) : QType :=
  match t1, t2 with
  | Some a, Some b =>
      if equals a t2 then clone a
      else if isNumeric a && isNumeric b then promoteNumericTypes t1 t2
      else if isUnknown a then clone b
      else if isUnknown b then clone a
      else createError ("cannot unify incompatible types: " ++
                        toString a ++ " and " ++ toString b)
  | _, _ => createError "null type in unification"
  end.

(** [getCommonType]: the entries of [types] are dereferenced without a null
    test, so they are taken non-null here. *)
Definition getCommonType (types : list QType) : QType :=
  match types with
  | [] => createError "no types to unify"
  | [t] => clone t
  | t0 :: rest =>
      (fix loop (result : QType) (l : list QType) : QType :=
         match l with
         | [] => result
         | t :: l =>
             let result := unifyTypes (Some result) (Some t) in
             if isError result then result else loop result l
         end) (clone t0) rest
  end.

End TypeFactory.

(* ------------------------------------------------------------------ *)
(** ** [TypeEnvironment]                                               *)
(* ------------------------------------------------------------------ *)

(** The vector of scopes, used as a stack: the head of the list is the
    innermost scope ([scopes.back()]), its last element the global scope.
    Every stored [unique_ptr<Type>] holds a type. *)
Module TypeEnvironment.

Definition t : Type := list (gmap string QType).

(** The constructor pushes the global scope. *)
Definition create : t := [∅].

Definition pushScope (scopes : t) : t := ∅ :: scopes.

Definition popScope (scopes : t) : t :=
  if (1 <? length scopes)%nat then tl scopes else scopes.

Definition define (scopes : t) (n : string) (ty : QType) : t :=
  match scopes with
  | [] => []
  | back :: rest => <[n := ty]> back :: rest
  end.

Fixpoint lookup (scopes : t) (n : string) : option QType :=
  match scopes with
  | [] => None
  | scope :: outer =>
      match scope !! n with
      | Some found => Some found
      | None => lookup outer n
      end
  end.

Definition isDefinedInCurrentScope (scopes : t) (n : string) : bool :=
  match scopes with
  | [] => false
  | back :: _ => match back !! n with Some _ => true | None => false end
  end.

Definition defineFunction (scopes : t) (n : string) (ty : QType) : t :=
  define scopes n ty.

(** [lookupFunction]: [None] is the null result.  The argument vector holds
    raw pointers, which [isAssignableFrom] accepts null. *)
Definition lookupFunction (scopes : t) (n : string)
  (arg_types : list (option QType)) : option QType :=
  match lookup scopes n with
  | Some (FunctionType param_types return_type) =>
      if negb (length param_types =? length arg_types)%nat then None
      else if (fix loop (ps : list QType) (args : list (option QType)) : bool :=
                 match ps, args with
                 | p :: ps, a :: args =>
                     if negb (isAssignableFrom p a) then false else loop ps args
                 | _, _ => true
                 end) param_types arg_types
      then Some (FunctionType param_types return_type)
      else None
  | _ => None
  end.

End TypeEnvironment.

(* ------------------------------------------------------------------ *)
(** ** [GenericInstantiator] and [TypeConstraints]                     *)
(* ------------------------------------------------------------------ *)

(** [type_bindings]; every binding made by the solver holds a type, and the
    map is taken to hold no null entry. *)
Module GenericInstantiator.

Definition t : Type := gmap string QType.

Definition bindTypeVariable (type_bindings : t) (var_name : string)
  (concrete_type : QType) : t :=
  <[var_name := concrete_type]> type_bindings.

Definition getBinding (type_bindings : t) (var_name : string) : option QType :=
  type_bindings !! var_name.

Definition clearBindings (type_bindings : t) : t := ∅.

Definition instantiateFunction_with (instantiate : QType -> QType)
  (ps : list QType) (r : QType) : QType :=
  FunctionType (map instantiate ps) (instantiate r).

Fixpoint instantiate (type_bindings : t) (generic_type : QType) : QType :=
  match generic_type with
  | GenericType n _ =>
      match getBinding type_bindings n with
      | Some bound_type => clone bound_type
      | None => clone generic_type
      end
  | FunctionType ps r =>
      instantiateFunction_with (instantiate type_bindings) ps r
  | ListType e => ListType (instantiate type_bindings e)
  | TupleType es => TupleType (map (instantiate type_bindings) es)
  | UnionType ts => UnionType (map (instantiate type_bindings) ts)
  | _ => clone generic_type
  end.

End GenericInstantiator.

Module TypeConstraints.

Inductive ConstraintKind := EQUALS | SUBTYPE | IMPLEMENTS | NUMERIC | COMPARABLE.

(** Both sides are [unique_ptr<Type>]; [right] defaults to null. *)
Record Constraint := mkConstraint {
  ckind : ConstraintKind;
  left : option QType;
  right : option QType
}.

(** The body of the [for] loop of [solve] for one constraint: the bindings
    and the [changed] flag after it, or [None] when the code dereferences a
    null side ([constraint.left->kind], [constraint.right->kind]). *)
Definition solve_constraint (c : Constraint)
  (st : GenericInstantiator.t * bool) : option (GenericInstantiator.t * bool) :=
  let '(bindings, changed) := st in
  match ckind c with
  | EQUALS =>
      match left c, right c with
      | Some l, Some r =>
          match l, r with
          | GenericType _ _, GenericType _ _ => Some st
          | GenericType param _, _ =>
              match GenericInstantiator.getBinding bindings param with
              | None =>
                  Some (GenericInstantiator.bindTypeVariable bindings param (clone r),
                        true)
              | Some _ => Some st
              end
          | _, GenericType param _ =>
              match GenericInstantiator.getBinding bindings param with
              | None =>
                  Some (GenericInstantiator.bindTypeVariable bindings param (clone l),
                        true)
              | Some _ => Some st
              end
          | _, _ => Some st
          end
      | _, _ => None
      end
  | NUMERIC | COMPARABLE =>
      match left c with
      | Some (GenericType param _) =>
          match GenericInstantiator.getBinding bindings param with
          | None =>
              Some (GenericInstantiator.bindTypeVariable bindings param
                      TypeFactory.createInt, true)
          | Some _ => Some st
          end
      | Some _ => Some st
      | None => None
      end
  | SUBTYPE | IMPLEMENTS => Some st
  end.

(** One execution of the body of [while (changed)]: [changed] is cleared and
    every constraint is visited in order. *)
Fixpoint solve_constraints (cs : list Constraint)
  (st : GenericInstantiator.t * bool) : option (GenericInstantiator.t * bool) :=
  match cs with
  | [] => Some st
  | c :: cs =>
      match solve_constraint c st with
      | Some st' => solve_constraints cs st'
      | None => None
      end
  end.

Definition solve_pass (cs : list Constraint) (bindings : GenericInstantiator.t)
  : option (GenericInstantiator.t * bool) :=
  solve_constraints cs (bindings, false).

(** What a run of [solve] can end in. *)
Inductive outcome :=
| Solved (result : bool) (bindings : GenericInstantiator.t)
| NullDereference
| OutOfFuel.

(** [solve]: the [while (changed)] loop, each unit of [fuel] paying for one
    iteration. *)
Fixpoint solve (fuel : nat) (constraints : list Constraint)
  (instantiator : GenericInstantiator.t) : outcome :=
  match fuel with
  | O => OutOfFuel
  | S fuel =>
      match solve_pass constraints instantiator with
      | None => NullDereference
      | Some (instantiator', changed) =>
          if changed then solve fuel constraints instantiator'
          else Solved true instantiator'
      end
  end.

(** The generic parameter names occurring as a side of a constraint. *)
Definition side_generic (side : option QType) : gset string :=
  match side with
  | Some (GenericType param _) => {[ param ]}
  | _ => ∅
  end.

Fixpoint generic_names (cs : list Constraint) : gset string :=
  match cs with
  | [] => ∅
  | c :: cs => side_generic (left c) ∪ side_generic (right c) ∪ generic_names cs
  end.

End TypeConstraints.

(* ------------------------------------------------------------------ *)
(** ** The syntax tree ([ast.h])                                       *)
(* ------------------------------------------------------------------ *)

(** Children are [unique_ptr]s, hence optional. *)
Inductive ExprAST :=
| NumberExprAST (value : double)
| StringExprAST (value : string)
| VariableExprAST (name : string)
| BinaryExprAST (op : ascii) (lhs rhs : option ExprAST)
| UnaryExprAST (op : ascii) (operand : option ExprAST)
| CallExprAST (callee : string) (args : list (option ExprAST)).

Inductive StmtAST :=
| AssignmentStmtAST (name : string) (value : option ExprAST)
| ExprStmtAST (expression : option ExprAST)
| BlockStmtAST (statements : list (option StmtAST))
| IfStmtAST (condition : option ExprAST) (then_stmt else_stmt : option StmtAST)
| WhileStmtAST (condition : option ExprAST) (body : option StmtAST)
| ReturnStmtAST (value : option ExprAST)
| PrintStmtAST (expression : option ExprAST).

Record FunctionAST := mkFunctionAST {
  fn_name : string;
  fn_args : list string;
  fn_body : option StmtAST
}.

(* ------------------------------------------------------------------ *)
(** ** [InferenceContext] ([type_checker.cpp])                         *)
(* ------------------------------------------------------------------ *)

Module InferenceContext.

Record t := mk {
  variable_types : gmap string QType;
  modified_variables : gset string
}.

Definition empty : t := mk ∅ ∅.

Definition setVariableType (ctx : t) (n : string) (ty : QType) : t :=
  mk (<[n := ty]> (variable_types ctx)) (modified_variables ctx).

Definition getVariableType (ctx : t) (n : string) : option QType :=
  variable_types ctx !! n.

Definition isVariableModified (ctx : t) (n : string) : bool :=
  bool_decide (n ∈ modified_variables ctx).

Definition markVariableModified (ctx : t) (n : string) : t :=
  mk (variable_types ctx) ({[ n ]} ∪ modified_variables ctx).

(** What the second loop of [merge] leaves under one name: [this] and
    [other] are the entries of the two contexts for it. *)
Definition merge_entry (this other : option QType) : option QType :=
  match other with
  | None => this
  | Some other_type =>
      match this with
      | None => Some (clone other_type)
      | Some this_type =>
          let common := TypeFactory.unifyTypes (Some this_type) (Some other_type) in
          if negb (isError common) then Some common else Some this_type
      end
  end.

(** [clone]: every recorded type is cloned, the set of modified names is
    copied. *)
Definition clone (ctx : t) : t :=
  mk (clone <$> variable_types ctx) (modified_variables ctx).

(** [merge]: each iteration of the loop over [other.variable_types] reads and
    writes the entry of its own name only, so the loop is the name-wise
    combination of the two maps by [merge_entry]. *)
Definition merge (ctx other : t) : t :=
  mk (stdpp.base.merge merge_entry (variable_types ctx) (variable_types other))
     (modified_variables ctx ∪ modified_variables other).

End InferenceContext.

(* ------------------------------------------------------------------ *)
(** ** [TypeCheckResult] and [TypeErrorReporter]                       *)
(* ------------------------------------------------------------------ *)

Record TypeCheckResult := mkResult {
  type : option QType;
  errors : list string;
  warnings : list string
}.

Definition hasErrors (r : TypeCheckResult) : bool :=
  match errors r with [] => false | _ => true end.

(** [TypeCheckResult(t)]. *)
Definition result_of (ty : QType) : TypeCheckResult := mkResult (Some ty) [] [].

(** A default-constructed result to which [addError] is applied once. *)
Definition error_result (msg : string) : TypeCheckResult := mkResult None [msg] [].

Module TypeErrorReporter.

Definition formatTypeError (context : string) (expected actual : option QType)
  : string :=
  "Type error in " ++ context ++ ": expected " ++
  (match expected with Some e => toString e | None => "unknown" end) ++
  ", got " ++
  (match actual with Some a => toString a | None => "unknown" end).

Definition formatIncompatibleTypes (l r : option QType) : string :=
  "Incompatible types: " ++
  (match l with Some e => toString e | None => "unknown" end) ++
  " and " ++
  (match r with Some a => toString a | None => "unknown" end).

Definition formatUndefinedVariable (n : string) : string :=
  "Undefined variable: " ++ n.

Definition formatUndefinedFunction (n : string) : string :=
  "Undefined function: " ++ n.

End TypeErrorReporter.

(* ------------------------------------------------------------------ *)
(** ** [TypeChecker]                                                   *)
(* ------------------------------------------------------------------ *)

(** The checker is modelled while an inference is in progress, that is
    between [beginInference] and [endInference], where [current_context]
    points to a context. *)
Module TypeChecker.

Record t := mk {
  type_env : TypeEnvironment.t;
  current_context : InferenceContext.t;
  error_messages : list string;
  warning_messages : list string
}.

Definition with_env (tc : t) (env : TypeEnvironment.t) : t :=
  mk env (current_context tc) (error_messages tc) (warning_messages tc).

Definition with_context (tc : t) (ctx : InferenceContext.t) : t :=
  mk (type_env tc) ctx (error_messages tc) (warning_messages tc).

Definition pushScope (tc : t) : t :=
  with_env tc (TypeEnvironment.pushScope (type_env tc)).
Definition popScope (tc : t) : t :=
  with_env tc (TypeEnvironment.popScope (type_env tc)).
Definition defineVariable (tc : t) (n : string) (ty : QType) : t :=
  with_env tc (TypeEnvironment.define (type_env tc) n ty).
Definition defineFunction (tc : t) (n : string) (ty : QType) : t :=
  with_env tc (TypeEnvironment.defineFunction (type_env tc) n ty).

Definition lookupVariable (tc : t) (n : string) : option QType :=
  match InferenceContext.getVariableType (current_context tc) n with
  | Some context_type => Some context_type
  | None => TypeEnvironment.lookup (type_env tc) n
  end.

Definition lookupFunction (tc : t) (n : string)
  (arg_types : list (option QType)) : option QType :=
  TypeEnvironment.lookupFunction (type_env tc) n arg_types.

Definition isAssignable (target source : option QType) : bool :=
  match target, source with
  | Some tg, Some _ => isAssignableFrom tg source
  | _, _ => false
  end.

Definition isComparable (l r : option QType) : bool :=
  match l, r with
  | Some a, Some b =>
      if equals a r then true
      else if isNumeric a && isNumeric b then true
      else if isString a && isString b then true
      else false
  | _, _ => false
  end.

(** The constructor: an empty context and the built-in [print]. *)
Definition create : t :=
  defineFunction (mk TypeEnvironment.create InferenceContext.empty [] [])
    "print"
    (TypeFactory.createFunction [TypeFactory.createUnknown] TypeFactory.createVoid).

(** The result standing for the dereference of a null [type] in a result
    without errors; [inferExpressionType] never returns such a result. *)
Definition null_type_dereference : TypeCheckResult :=
  error_result "null type dereferenced".

Section Inference.

(** [static_cast<int>] of a double whose truncation is not an [int] has no
    defined value; [out_of_range_int] is the integer such a conversion
    produces, wrapped to 32 bits. *)
Variable out_of_range_int : double -> Z.

Definition static_cast_int (d : double) : Z :=
  match double_trunc d with
  | Some z =>
      if (INT_MIN <=? z)%Z && (z <=? INT_MAX)%Z then z
      else wrap_signed 32 (out_of_range_int d)
  | None => wrap_signed 32 (out_of_range_int d)
  end.

(** [expr->value == static_cast<int>(expr->value)]. *)
Definition inferNumberType (value : double) : TypeCheckResult :=
  if double_eq_Z value (static_cast_int value)
  then result_of TypeFactory.createInt
  else result_of TypeFactory.createFloat.

Definition inferStringType (value : string) : TypeCheckResult :=
  result_of TypeFactory.createString.

Definition inferVariableType (tc : t) (n : string) : TypeCheckResult :=
  match lookupVariable tc n with
  | None => error_result (TypeErrorReporter.formatUndefinedVariable n)
  | Some ty => result_of (clone ty)
  end.

Definition is_arithmetic_op (op : ascii) : bool :=
  Ascii.eqb op "+" || Ascii.eqb op "-" || Ascii.eqb op "*" ||
  Ascii.eqb op "/" || Ascii.eqb op "%".

Definition is_comparison_op (op : ascii) : bool :=
  Ascii.eqb op "<" || Ascii.eqb op ">" || Ascii.eqb op "=" || Ascii.eqb op "!".

(** The per-node functions take the dispatcher [inferExpressionType] as
    [infer]. *)
Definition inferBinaryType (infer : option ExprAST -> TypeCheckResult)
  (op : ascii) (lhs rhs : option ExprAST) : TypeCheckResult :=
  let left_result := infer lhs in
  if hasErrors left_result then left_result else
  let right_result := infer rhs in
  if hasErrors right_result then right_result else
  match type left_result, type right_result with
  | Some left_type, Some right_type =>
      if is_arithmetic_op op then
        if isNumeric left_type && isNumeric right_type
        then result_of (TypeFactory.promoteNumericTypes
                          (Some left_type) (Some right_type))
        else error_result
               ("Arithmetic operation requires numeric types, got: " ++
                toString left_type ++ " " ++ String op EmptyString ++ " " ++
                toString right_type)
      else if is_comparison_op op then
        if isComparable (Some left_type) (Some right_type)
        then result_of TypeFactory.createBool
        else error_result
               ("Cannot compare incompatible types: " ++
                toString left_type ++ " and " ++ toString right_type)
      else error_result ("Unknown binary operator: " ++ String op EmptyString)
  | _, _ => null_type_dereference
  end.

Definition inferUnaryType (infer : option ExprAST -> TypeCheckResult)
  (op : ascii) (operand : option ExprAST) : TypeCheckResult :=
  let operand_result := infer operand in
  if hasErrors operand_result then operand_result else
  match type operand_result with
  | Some operand_type =>
      if Ascii.eqb op "-" then
        if isNumeric operand_type then result_of (clone operand_type)
        else error_result ("Unary minus requires numeric type, got: " ++
                           toString operand_type)
      else if Ascii.eqb op "!" then result_of TypeFactory.createBool
      else error_result ("Unknown unary operator: " ++ String op EmptyString)
  | None => null_type_dereference
  end.

(** The loop of [inferCallType] over the arguments: the first result with
    errors, or the vector [arg_types] of the inferred types. *)
Fixpoint inferArguments (infer : option ExprAST -> TypeCheckResult)
  (args : list (option ExprAST)) (arg_types : list (option QType))
  : TypeCheckResult + list (option QType) :=
  match args with
  | [] => inr arg_types
  | arg :: args =>
      let arg_result := infer arg in
      if hasErrors arg_result then inl arg_result
      else inferArguments infer args (arg_types ++ [type arg_result])
  end.

Definition inferCallType (tc : t) (infer : option ExprAST -> TypeCheckResult)
  (callee : string) (args : list (option ExprAST)) : TypeCheckResult :=
  match inferArguments infer args [] with
  | inl arg_result => arg_result
  | inr arg_types =>
      match lookupFunction tc callee arg_types with
      | Some (FunctionType _ return_type) => result_of (clone return_type)
      | _ => error_result (TypeErrorReporter.formatUndefinedFunction callee)
      end
  end.

Definition null_expression : TypeCheckResult := error_result "Null expression".

(** The dispatch of [inferExpressionType] on a non-null node. *)
Fixpoint inferExpr (tc : t) (expr : ExprAST) {struct expr} : TypeCheckResult :=
  let infer := fun e : option ExprAST =>
    match e with
    | None => null_expression
    | Some e => inferExpr tc e
    end in
  match expr with
  | NumberExprAST value => inferNumberType value
  | StringExprAST value => inferStringType value
  | VariableExprAST n => inferVariableType tc n
  | BinaryExprAST op lhs rhs => inferBinaryType infer op lhs rhs
  | UnaryExprAST op operand => inferUnaryType infer op operand
  | CallExprAST callee args => inferCallType tc infer callee args
  end.

Definition inferExpressionType (tc : t) (expr : option ExprAST)
  : TypeCheckResult :=
  match expr with
  | None => null_expression
  | Some e => inferExpr tc e
  end.

Definition checkExpression (tc : t) (expr : option ExprAST) : TypeCheckResult :=
  inferExpressionType tc expr.

(** *** Statements.  Each function returns its result and the checker as
    it leaves it. *)

Definition markVariableModified (tc : t) (n : string) : t :=
  with_context tc (InferenceContext.markVariableModified (current_context tc) n).

Definition checkAssignment (tc : t) (n : string) (value : option ExprAST)
  : TypeCheckResult * t :=
  let expr_result := inferExpressionType tc value in
  if hasErrors expr_result then (expr_result, tc) else
  match lookupVariable tc n with
  | Some existing_type =>
      if negb (isAssignable (Some existing_type) (type expr_result))
      then (error_result
              (TypeErrorReporter.formatTypeError
                 ("assignment to variable '" ++ n ++ "'")
                 (Some existing_type) (type expr_result)), tc)
      else (result_of TypeFactory.createVoid, markVariableModified tc n)
  | None =>
      match type expr_result with
      | Some ty =>
          let tc := defineVariable tc n (clone ty) in
          let tc := with_context tc
                      (InferenceContext.setVariableType (current_context tc) n
                         (clone ty)) in
          (result_of TypeFactory.createVoid, markVariableModified tc n)
      | None => (null_type_dereference, tc)
      end
  end.

Definition checkReturn (tc : t) (value : option ExprAST) : TypeCheckResult * t :=
  match value with
  | Some _ => (inferExpressionType tc value, tc)
  | None => (result_of TypeFactory.createVoid, tc)
  end.

Definition checkPrint (tc : t) (expression : option ExprAST)
  : TypeCheckResult * t :=
  let expr_result := inferExpressionType tc expression in
  if hasErrors expr_result then (expr_result, tc)
  else (result_of TypeFactory.createVoid, tc).

(** [result.errors.insert(result.errors.end(), ...)] guarded by [hasErrors]. *)
Definition append_errors (result from : TypeCheckResult) : TypeCheckResult :=
  if hasErrors from
  then mkResult (type result) (errors result ++ errors from) (warnings result)
  else result.

Definition set_type (result : TypeCheckResult) (ty : QType) : TypeCheckResult :=
  mkResult (Some ty) (errors result) (warnings result).

(** [checkIf]; [check] is the dispatcher [checkStatement].  The clones
    [then_context] and [else_context] are locals of the function, while
    [check] runs on the checker and its [current_context]. *)
Definition checkIf (check : t -> option StmtAST -> TypeCheckResult * t)
  (tc : t) (condition : option ExprAST) (then_stmt else_stmt : option StmtAST)
  : TypeCheckResult * t :=
  let cond_result := inferExpressionType tc condition in
  if hasErrors cond_result then (cond_result, tc) else
  match type cond_result with
  | None => (null_type_dereference, tc)
  | Some cond_type =>
      if negb (isBool cond_type) && negb (isNumeric cond_type)
      then (error_result ("If condition must be boolean or numeric, got: " ++
                          toString cond_type), tc)
      else
        let then_context := InferenceContext.clone (current_context tc) in
        let '(then_result, tc) := check tc then_stmt in
        let result := mkResult None [] [] in
        let '(result, then_context, tc) :=
          match else_stmt with
          | Some _ =>
              let else_context := InferenceContext.clone (current_context tc) in
              let '(else_result, tc) := check tc else_stmt in
              let result := append_errors result else_result in
              (result, InferenceContext.merge then_context else_context, tc)
          | None => (result, then_context, tc)
          end in
        let result := append_errors result then_result in
        let tc := with_context tc then_context in
        (set_type result TypeFactory.createVoid, tc)
  end.

Definition checkWhile (check : t -> option StmtAST -> TypeCheckResult * t)
  (tc : t) (condition : option ExprAST) (body : option StmtAST)
  : TypeCheckResult * t :=
  let cond_result := inferExpressionType tc condition in
  if hasErrors cond_result then (cond_result, tc) else
  match type cond_result with
  | None => (null_type_dereference, tc)
  | Some cond_type =>
      if negb (isBool cond_type) && negb (isNumeric cond_type)
      then (error_result ("While condition must be boolean or numeric, got: " ++
                          toString cond_type), tc)
      else
        let '(body_result, tc) := check tc body in
        let result := mkResult None [] [] in
        let result := if hasErrors body_result
                      then mkResult (type result) (errors body_result)
                             (warnings result)
                      else result in
        (set_type result TypeFactory.createVoid, tc)
  end.

(** The loop of [checkBlock] over the statements. *)
Fixpoint checkStatements (check : t -> option StmtAST -> TypeCheckResult * t)
  (statements : list (option StmtAST)) (result : TypeCheckResult) (tc : t)
  : TypeCheckResult * t :=
  match statements with
  | [] => (result, tc)
  | statement :: rest =>
      let '(stmt_result, tc) := check tc statement in
      let result := append_errors result stmt_result in
      let result :=
        match type stmt_result with
        | Some ty => if negb (isVoid ty) then set_type result (clone ty) else result
        | None => result
        end in
      checkStatements check rest result tc
  end.

Definition checkBlock (check : t -> option StmtAST -> TypeCheckResult * t)
  (tc : t) (statements : list (option StmtAST)) : TypeCheckResult * t :=
  let tc := pushScope tc in
  let '(result, tc) :=
    checkStatements check statements (result_of TypeFactory.createVoid) tc in
  (result, popScope tc).

Definition null_statement : TypeCheckResult := error_result "Null statement AST".

(** The dispatch of [checkStatement] on a non-null node. *)
Fixpoint checkStmt (tc : t) (stmt : StmtAST) {struct stmt} : TypeCheckResult * t :=
  let check := fun (tc : t) (s : option StmtAST) =>
    match s with
    | None => (null_statement, tc)
    | Some s => checkStmt tc s
    end in
  match stmt with
  | AssignmentStmtAST n value => checkAssignment tc n value
  | ReturnStmtAST value => checkReturn tc value
  | IfStmtAST condition then_stmt else_stmt =>
      checkIf check tc condition then_stmt else_stmt
  | WhileStmtAST condition body => checkWhile check tc condition body
  | PrintStmtAST expression => checkPrint tc expression
  | BlockStmtAST statements => checkBlock check tc statements
  | ExprStmtAST expression => (checkExpression tc expression, tc)
  end.

Definition checkStatement (tc : t) (stmt : option StmtAST) : TypeCheckResult * t :=
  match stmt with
  | None => (null_statement, tc)
  | Some s => checkStmt tc s
  end.

(** [checkFunction] on a non-null function. *)
Definition checkFunction (tc : t) (function : FunctionAST) : TypeCheckResult * t :=
  let tc := pushScope tc in
  let tc := fold_left (fun tc param_name =>
              defineVariable tc param_name TypeFactory.createFloat)
              (fn_args function) tc in
  let '(body_result, tc) := checkStatement tc (fn_body function) in
  let tc := popScope tc in
  let result := mkResult None [] [] in
  let result := if hasErrors body_result
                then mkResult (type result) (errors body_result) (warnings result)
                else result in
  let result := match type body_result with
                | Some ty => set_type result (clone ty)
                | None => set_type result TypeFactory.createVoid
                end in
  (result, tc).

End Inference.

(** The two results of an out-of-range conversion on the common targets:
    the "integer indefinite" value of x86-64's [cvttsd2si], and the
    saturation of AArch64's [fcvtzs]. *)
Definition cvttsd2si_indefinite : double -> Z := fun _ => INT_MIN.

Definition fcvtzs_saturated : double -> Z := fun d =>
  match d with
  | S754_finite true _ _ | S754_infinity true => INT_MIN
  | S754_finite false _ _ | S754_infinity false => INT_MAX
  | _ => 0%Z
  end.

End TypeChecker.

(* ------------------------------------------------------------------ *)
(** ** The intermediate representation                                 *)
(* ------------------------------------------------------------------ *)

(** The part of LLVM's IR that the passes of the repository inspect or
    build.  An instruction is identified by its [inst_id], which stands for
    the address of the [llvm::Instruction]; a use of its result is
    [InstValue inst_id]. *)
Module IR.

Inductive LType := IntegerTy (bits : Z) | DoubleTy | PointerTy | VoidTy.

Definition LType_eqb (a b : LType) : bool :=
  match a, b with
  | IntegerTy w, IntegerTy w' => (w =? w')%Z
  | DoubleTy, DoubleTy | PointerTy, PointerTy | VoidTy, VoidTy => true
  | _, _ => false
  end.

Inductive Value :=
| ConstantFP (fpVal : double)
| ConstantInt (ty : LType) (z : Z)
| Argument (index : nat)
| InstValue (id : nat).

Definition Value_eqb (a b : Value) : bool :=
  match a, b with
  | ConstantFP x, ConstantFP y =>
      match x, y with
      | S754_zero s, S754_zero s' => Bool.eqb s s'
      | S754_infinity s, S754_infinity s' => Bool.eqb s s'
      | S754_nan, S754_nan => true
      | S754_finite s m e, S754_finite s' m' e' =>
          Bool.eqb s s' && (m =? m')%positive && (e =? e')%Z
      | _, _ => false
      end
  | ConstantInt t x, ConstantInt t' y => LType_eqb t t' && (x =? y)%Z
  | Argument i, Argument j => (i =? j)%nat
  | InstValue i, InstValue j => (i =? j)%nat
  | _, _ => false
  end.

Inductive BinaryOps :=
| FAdd | FSub | FMul | FDiv | FRem | Add | Sub | Mul | Shl | AShr.

Inductive FPredicate :=
| FCMP_FALSE | FCMP_OEQ | FCMP_OGT | FCMP_OGE | FCMP_OLT | FCMP_OLE | FCMP_ONE
| FCMP_ORD | FCMP_UNO | FCMP_UEQ | FCMP_UGT | FCMP_UGE | FCMP_ULT | FCMP_ULE
| FCMP_UNE | FCMP_TRUE.

Inductive IPredicate :=
| ICMP_EQ | ICMP_NE | ICMP_SLT | ICMP_SLE | ICMP_SGT | ICMP_SGE.

Inductive CastOps :=
| Trunc | ZExt | SExt | FPToUI | FPToSI | UIToFP | SIToFP | BitCast.

(** A cast records the type of its operand ([getSrcTy]) and its result type
    ([getDestTy]). *)
Inductive InstKind :=
| BinaryOperator (opcode : BinaryOps) (op0 op1 : Value)
| FCmpInst (pred : FPredicate) (op0 op1 : Value)
| ICmpInst (pred : IPredicate) (op0 op1 : Value)
| CastInst (opcode : CastOps) (srcTy destTy : LType) (op0 : Value)
| CallInst (calledFunction : option string) (args : list Value)
| LoadInst (ptr : Value)
| StoreInst (val ptr : Value)
| AllocaInst
| BranchInst (cond : option Value)
| ReturnInst (retval : option Value).

Record Instruction := mkInst {
  inst_id : nat;
  inst_name : string;
  inst_kind : InstKind
}.

(** The name of an instruction created without one. *)
Definition unnamed : string := EmptyString.

Record BasicBlock := mkBlock {
  bb_name : string;
  instructions : list Instruction
}.

(** A function; [blocks] is empty for a declaration. *)
Record Function := mkFunction {
  getName : string;
  arg_size : nat;
  isVarArg : bool;
  blocks : list BasicBlock
}.

Definition Module : Type := list Function.

Definition isDeclaration (F : Function) : bool :=
  match blocks F with [] => true | _ => false end.

(** [Function::size]: the number of basic blocks. *)
Definition size (F : Function) : nat := length (blocks F).

Definition all_instructions (F : Function) : list Instruction :=
  concat (map instructions (blocks F)).

Fixpoint getFunction (M : Module) (n : string) : option Function :=
  match M with
  | [] => None
  | F :: M => if String.eqb (getName F) n then Some F else getFunction M n
  end.

Definition find_instruction (F : Function) (id : nat) : option Instruction :=
  find (fun inst => (inst_id inst =? id)%nat) (all_instructions F).

(** An identifier not used by any instruction of [F]. *)
Definition fresh_id (F : Function) : nat :=
  S (fold_right Nat.max 0%nat (map inst_id (all_instructions F))).

Definition map_blocks (f : list Instruction -> list Instruction) (F : Function)
  : Function :=
  mkFunction (getName F) (arg_size F) (isVarArg F)
    (map (fun B => mkBlock (bb_name B) (f (instructions B))) (blocks F)).

Definition subst_value (old : nat) (new : Value) (v : Value) : Value :=
  match v with
  | InstValue i => if (i =? old)%nat then new else v
  | _ => v
  end.

Definition subst_kind (old : nat) (new : Value) (k : InstKind) : InstKind :=
  let s := subst_value old new in
  match k with
  | BinaryOperator op a b => BinaryOperator op (s a) (s b)
  | FCmpInst p a b => FCmpInst p (s a) (s b)
  | ICmpInst p a b => ICmpInst p (s a) (s b)
  | CastInst op src dst a => CastInst op src dst (s a)
  | CallInst f args => CallInst f (map s args)
  | LoadInst p => LoadInst (s p)
  | StoreInst v p => StoreInst (s v) (s p)
  | AllocaInst => AllocaInst
  | BranchInst c => BranchInst (option_map s c)
  | ReturnInst r => ReturnInst (option_map s r)
  end.

(** [inst->replaceAllUsesWith(new)] for the instruction [old] of [F]. *)
Definition replaceAllUsesWith (F : Function) (old : nat) (new : Value) : Function :=
  map_blocks (map (fun inst => mkInst (inst_id inst) (inst_name inst)
                              (subst_kind old new (inst_kind inst)))) F.

(** Insertion of [news] in front of the instruction [before], as an
    [IRBuilder] positioned at that instruction does. *)
Definition insert_before (F : Function) (before : nat) (news : list Instruction)
  : Function :=
  map_blocks (fun l => concat (map (fun inst =>
     if (inst_id inst =? before)%nat then (news ++ [inst])%list else [inst]) l)) F.

(** [eraseFromParent] for every instruction listed in [toErase]. *)
Definition erase_all (F : Function) (toErase : list nat) : Function :=
  map_blocks (filter (fun inst => inst_id inst ∉ toErase)) F.

(** *** Evaluation of straight-line code *)

Inductive RuntimeValue :=
| RInt (bits : Z) (z : Z)     (* the signed value of an integer of that width *)
| RDouble (d : double).

Definition unsigned_of (bits z : Z) : Z := wrap_unsigned bits z.

Definition eval_value (env : gmap nat RuntimeValue) (actuals : list RuntimeValue)
  (v : Value) : option RuntimeValue :=
  match v with
  | ConstantFP d => Some (RDouble d)
  | ConstantInt (IntegerTy w) z => Some (RInt w (wrap_signed w z))
  | ConstantInt _ _ => None
  | Argument i => actuals !! i
  | InstValue i => env !! i
  end.

(** Binary operators.  A shift takes the unsigned value of its second
    operand as the amount, whatever its width, and has no defined result
    when the amount reaches the width of the first. *)
Definition eval_binop (op : BinaryOps) (a b : RuntimeValue) : option RuntimeValue :=
  match op, a, b with
  | FAdd, RDouble x, RDouble y => Some (RDouble (SFadd dprec demax x y))
  | FSub, RDouble x, RDouble y => Some (RDouble (SFsub dprec demax x y))
  | FMul, RDouble x, RDouble y => Some (RDouble (SFmul dprec demax x y))
  | FDiv, RDouble x, RDouble y => Some (RDouble (SFdiv dprec demax x y))
  | Add, RInt w x, RInt _ y => Some (RInt w (wrap_signed w (x + y)))
  | Sub, RInt w x, RInt _ y => Some (RInt w (wrap_signed w (x - y)))
  | Mul, RInt w x, RInt _ y => Some (RInt w (wrap_signed w (x * y)))
  | Shl, RInt w x, RInt w' y =>
      let s := unsigned_of w' y in
      if (s <? w)%Z then Some (RInt w (wrap_signed w (Z.shiftl x s))) else None
  | AShr, RInt w x, RInt w' y =>
      let s := unsigned_of w' y in
      if (s <? w)%Z then Some (RInt w (Z.shiftr x s)) else None
  | _, _, _ => None
  end.

Definition eval_icmp (p : IPredicate) (x y : Z) : bool :=
  match p with
  | ICMP_EQ => (x =? y)%Z
  | ICMP_NE => negb (x =? y)%Z
  | ICMP_SLT => (x <? y)%Z
  | ICMP_SLE => (x <=? y)%Z
  | ICMP_SGT => (y <? x)%Z
  | ICMP_SGE => (y <=? x)%Z
  end.

Definition eval_fcmp (p : FPredicate) (x y : double) : bool :=
  let c := SFcompare x y in
  let unordered := match c with None => true | Some _ => false end in
  let holds c' := match c with
               | Some r => match r, c' with
                           | Eq, Eq | Lt, Lt | Gt, Gt => true
                           | _, _ => false
                           end
               | None => false
               end in
  match p with
  | FCMP_FALSE => false
  | FCMP_OEQ => holds Eq
  | FCMP_OGT => holds Gt
  | FCMP_OGE => holds Gt || holds Eq
  | FCMP_OLT => holds Lt
  | FCMP_OLE => holds Lt || holds Eq
  | FCMP_ONE => holds Lt || holds Gt
  | FCMP_ORD => negb unordered
  | FCMP_UNO => unordered
  | FCMP_UEQ => unordered || holds Eq
  | FCMP_UGT => unordered || holds Gt
  | FCMP_UGE => unordered || holds Gt || holds Eq
  | FCMP_ULT => unordered || holds Lt
  | FCMP_ULE => unordered || holds Lt || holds Eq
  | FCMP_UNE => unordered || holds Lt || holds Gt
  | FCMP_TRUE => true
  end.

Definition bool_to_i1 (b : bool) : RuntimeValue := RInt 1 (if b then -1 else 0).

(** Casts.  A conversion from floating point whose result does not fit the
    destination has no defined value ([None]). *)
Definition eval_cast (op : CastOps) (dst : LType) (a : RuntimeValue)
  : option RuntimeValue :=
  match op, dst, a with
  | Trunc, IntegerTy w, RInt _ x => Some (RInt w (wrap_signed w x))
  | ZExt, IntegerTy w, RInt w0 x => Some (RInt w (unsigned_of w0 x))
  | SExt, IntegerTy w, RInt _ x => Some (RInt w x)
  | SIToFP, DoubleTy, RInt _ x => Some (RDouble (double_of_Z x))
  | UIToFP, DoubleTy, RInt w0 x => Some (RDouble (double_of_Z (unsigned_of w0 x)))
  | FPToSI, IntegerTy w, RDouble d =>
      match double_trunc d with
      | Some z => if (- 2 ^ (w - 1) <=? z)%Z && (z <? 2 ^ (w - 1))%Z
                  then Some (RInt w z) else None
      | None => None
      end
  | FPToUI, IntegerTy w, RDouble d =>
      match double_trunc d with
      | Some z => if (0 <=? z)%Z && (z <? 2 ^ w)%Z
                  then Some (RInt w (wrap_signed w z)) else None
      | None => None
      end
  | BitCast, IntegerTy w, RInt w0 x => if (w =? w0)%Z then Some a else None
  | BitCast, DoubleTy, RDouble _ => Some a
  | _, _, _ => None
  end.

(** The instructions of a block are executed in order up to the first
    [ret]; calls, memory accesses and branches are outside this evaluator. *)
Fixpoint eval_instructions (l : list Instruction) (env : gmap nat RuntimeValue)
  (actuals : list RuntimeValue) : option RuntimeValue :=
  match l with
  | [] => None
  | inst :: l =>
      let ev := eval_value env actuals in
      let next r :=
        match r with
        | Some v => eval_instructions l (<[inst_id inst := v]> env) actuals
        | None => None
        end in
      match inst_kind inst with
      | ReturnInst (Some v) => ev v
      | BinaryOperator op a b =>
          next (match ev a, ev b with
                    | Some x, Some y => eval_binop op x y
                    | _, _ => None
                    end)
      | FCmpInst p a b =>
          next (match ev a, ev b with
                    | Some (RDouble x), Some (RDouble y) =>
                        Some (bool_to_i1 (eval_fcmp p x y))
                    | _, _ => None
                    end)
      | ICmpInst p a b =>
          next (match ev a, ev b with
                    | Some (RInt _ x), Some (RInt _ y) =>
                        Some (bool_to_i1 (eval_icmp p x y))
                    | _, _ => None
                    end)
      | CastInst op _ dst a =>
          next (match ev a with
                    | Some x => eval_cast op dst x
                    | None => None
                    end)
      | _ => None
      end
  end.

(** The value returned by a single-block function applied to [actuals]. *)
Definition run (F : Function) (actuals : list RuntimeValue) : option RuntimeValue :=
  match blocks F with
  | [B] => eval_instructions (instructions B) ∅ actuals
  | _ => None
  end.

End IR.

(* ------------------------------------------------------------------ *)
(** ** [QuillTypeDirectedOptimizationPass]                             *)
(* ------------------------------------------------------------------ *)

Module QuillTypeDirectedOptimizationPass.

(** The counters of the pass ([divisions_to_shifts] is spelt as in
    [type_directed_pass_impl.cpp]). *)
Record TypeOptimizationStats := mkStats {
  specializations_applied : nat;
  type_casts_eliminated : nat;
  numeric_optimizations : nat;
  integer_arithmetic_optimized : nat;
  divisions_to_shifts : nat;
  multiplication_to_shifts : nat
}.

(** [resetStats], which the constructor calls. *)
Definition resetStats : TypeOptimizationStats := mkStats 0 0 0 0 0 0.

(** [isIntegerConstant]: the [int64_t] written to [out_value], or [None] for
    [false].  The conversion of 2^63, which passes the range test, is taken
    with wrap-around. *)
Definition isIntegerConstant (val : IR.Value) : option Z :=
  match val with
  | IR.ConstantFP fpVal =>
      if double_is_integral fpVal &&
         double_leb (double_of_Z INT64_MIN) fpVal &&
         double_leb fpVal (double_of_Z INT64_MAX)
      then match double_trunc fpVal with
           | Some z => Some (wrap_signed 64 z)
           | None => None
           end
      else None
  | _ => None
  end.

Definition isFloatConstant (val : IR.Value) : option double :=
  match val with
  | IR.ConstantFP fpVal => Some fpVal
  | _ => None
  end.


(** [while (temp > 1) { temp >>= 1; shift_amount++; }] on a positive [temp]. *)
Fixpoint shift_loop (temp : positive) : Z :=
  match temp with
  | xH => 0
  | xO p => 1 + shift_loop p
  | xI p => 1 + shift_loop p
  end.

Definition getShiftAmount (power_of_two : Z) : Z :=
  match power_of_two with
  | Zpos p => shift_loop p
  | _ => 0
  end.

(** The state of one traversal: the function, the vector [toErase], the
    flag [changed] and the counters. *)
Record traversal := mkTraversal {
  fn : IR.Function;
  toErase : list nat;
  changed : bool;
  stats : TypeOptimizationStats
}.

Definition i64 : IR.LType := IR.IntegerTy 64.
Definition i32 : IR.LType := IR.IntegerTy 32.

(** The end of each rewrite: the new instructions [news] are built in front
    of [id], the uses of [id] become [result], and [id] is queued for
    erasure. *)
Definition rewrite (st : traversal) (id : nat) (news : list IR.Instruction)
  (result : IR.Value) (stats' : TypeOptimizationStats) : traversal :=
  mkTraversal
    (IR.replaceAllUsesWith (IR.insert_before (fn st) id news) id result)
    (toErase st ++ [id])%list true stats'.

Definition count_integer_arithmetic (s : TypeOptimizationStats) :=
  mkStats (specializations_applied s) (type_casts_eliminated s)
    (S (numeric_optimizations s)) (S (integer_arithmetic_optimized s))
    (divisions_to_shifts s) (multiplication_to_shifts s).

Definition count_multiplication_to_shift (s : TypeOptimizationStats) :=
  mkStats (specializations_applied s) (type_casts_eliminated s)
    (S (numeric_optimizations s)) (integer_arithmetic_optimized s)
    (divisions_to_shifts s) (S (multiplication_to_shifts s)).

Definition count_division_to_shift (s : TypeOptimizationStats) :=
  mkStats (specializations_applied s) (type_casts_eliminated s)
    (S (numeric_optimizations s)) (integer_arithmetic_optimized s)
    (S (divisions_to_shifts s)) (multiplication_to_shifts s).

Definition count_cast_eliminated (s : TypeOptimizationStats) :=
  mkStats (specializations_applied s) (S (type_casts_eliminated s))
    (numeric_optimizations s) (integer_arithmetic_optimized s)
    (divisions_to_shifts s) (multiplication_to_shifts s).

Definition count_specialization (s : TypeOptimizationStats) :=
  mkStats (S (specializations_applied s)) (type_casts_eliminated s)
    (numeric_optimizations s) (integer_arithmetic_optimized s)
    (divisions_to_shifts s) (multiplication_to_shifts s).

Definition intPredicate (p : IR.FPredicate) : option IR.IPredicate :=
  match p with
  | IR.FCMP_OEQ => Some IR.ICMP_EQ
  | IR.FCMP_ONE => Some IR.ICMP_NE
  | IR.FCMP_OLT => Some IR.ICMP_SLT
  | IR.FCMP_OLE => Some IR.ICMP_SLE
  | IR.FCMP_OGT => Some IR.ICMP_SGT
  | IR.FCMP_OGE => Some IR.ICMP_SGE
  | _ => None
  end.

(** The body of the loops of [optimizeNumericOperations] for the
    instruction [id].  Each [builder.Create...] yields the instruction it
    names, placed in front of [id]; an [IRBuilder] that folds an operation
    on constants builds the constant this instruction evaluates to instead.
    The shift amount is built as an [i32] next to an [i64] operand, as in the
    source. *)
Definition optimizeNumericInstruction (st : traversal) (id : nat) : traversal :=
  match IR.find_instruction (fn st) id with
  | None => st
  | Some inst =>
      let n := IR.fresh_id (fn st) in
      match IR.inst_kind inst with
      | IR.BinaryOperator opcode lhs rhs =>
          match isIntegerConstant lhs, isIntegerConstant rhs with
          | Some leftInt, Some rightInt =>
              let leftConst := IR.ConstantInt i64 leftInt in
              match opcode with
              | IR.FAdd =>
                  let rightConst := IR.ConstantInt i64 rightInt in
                  let intAdd := IR.mkInst n "int_add_opt"
                                  (IR.BinaryOperator IR.Add leftConst rightConst) in
                  let floatResult := IR.mkInst (S n) IR.unnamed
                        (IR.CastInst IR.SIToFP i64 IR.DoubleTy (IR.InstValue n)) in
                  rewrite st id [intAdd; floatResult] (IR.InstValue (S n))
                    (count_integer_arithmetic (stats st))
              | IR.FMul =>
                  if (0 <? rightInt)%Z && (Z.land rightInt (rightInt - 1) =? 0)%Z
                  then
                    let shift_amount := getShiftAmount rightInt in
                    let shiftConst := IR.ConstantInt i32 shift_amount in
                    let shifted := IR.mkInst n "shift_opt"
                                     (IR.BinaryOperator IR.Shl leftConst shiftConst) in
                    let floatResult := IR.mkInst (S n) IR.unnamed
                          (IR.CastInst IR.SIToFP i64 IR.DoubleTy (IR.InstValue n)) in
                    rewrite st id [shifted; floatResult] (IR.InstValue (S n))
                      (count_multiplication_to_shift (stats st))
                  else st
              | IR.FDiv =>
                  if (0 <? rightInt)%Z && (Z.land rightInt (rightInt - 1) =? 0)%Z
                  then
                    let shift_amount := getShiftAmount rightInt in
                    let shiftConst := IR.ConstantInt i32 shift_amount in
                    let shifted := IR.mkInst n "div_shift_opt"
                                     (IR.BinaryOperator IR.AShr leftConst shiftConst) in
                    let floatResult := IR.mkInst (S n) IR.unnamed
                          (IR.CastInst IR.SIToFP i64 IR.DoubleTy (IR.InstValue n)) in
                    rewrite st id [shifted; floatResult] (IR.InstValue (S n))
                      (count_division_to_shift (stats st))
                  else st
              | _ => st
              end
          | _, _ => st
          end
      | IR.FCmpInst pred lhs rhs =>
          match isIntegerConstant lhs, isIntegerConstant rhs with
          | Some leftInt, Some rightInt =>
              match intPredicate pred with
              | Some intPred =>
                  let intCmp := IR.mkInst n "int_cmp_opt"
                        (IR.ICmpInst intPred (IR.ConstantInt i64 leftInt)
                                             (IR.ConstantInt i64 rightInt)) in
                  let floatResult := IR.mkInst (S n) IR.unnamed
                        (IR.CastInst IR.UIToFP (IR.IntegerTy 1) IR.DoubleTy
                           (IR.InstValue n)) in
                  rewrite st id [intCmp; floatResult] (IR.InstValue (S n))
                    (count_integer_arithmetic (stats st))
              | None => st
              end
          | _, _ => st
          end
      | _ => st
      end
  end.

(** A traversal visits the instructions present when it starts, in block
    order, and erases the queued ones at its end. *)
Definition traverse (step : traversal -> nat -> traversal) (F : IR.Function)
  (s : TypeOptimizationStats) : IR.Function * TypeOptimizationStats * bool :=
  let st := fold_left step (map IR.inst_id (IR.all_instructions F))
              (mkTraversal F [] false s) in
  (IR.erase_all (fn st) (toErase st), stats st, changed st).

Definition optimizeNumericOperations (F : IR.Function) (s : TypeOptimizationStats)
  : IR.Function * TypeOptimizationStats * bool :=
  traverse optimizeNumericInstruction F s.

Section Casts.

(** [CastInst::getCastOpcode] and [CastInst::castIsValid] belong to LLVM;
    [getCastOpcode] receives the type of the value to convert. *)
Variable getCastOpcode : IR.LType -> bool -> IR.LType -> bool -> IR.CastOps.
Variable castIsValid : IR.CastOps -> IR.LType -> IR.LType -> bool.

Definition eliminateCastInstruction (st : traversal) (id : nat) : traversal :=
  match IR.find_instruction (fn st) id with
  | None => st
  | Some inst =>
      match IR.inst_kind inst with
      | IR.CastInst _ srcTy destTy operand =>
          if IR.LType_eqb srcTy destTy
          then rewrite st id [] operand (count_cast_eliminated (stats st))
          else
            match operand with
            | IR.InstValue inner =>
                match option_map IR.inst_kind (IR.find_instruction (fn st) inner) with
                | Some (IR.CastInst _ innerSrcTy _ innerOperand) =>
                    if IR.LType_eqb innerSrcTy destTy
                    then rewrite st id [] innerOperand
                           (count_cast_eliminated (stats st))
                    else
                      let opcode := getCastOpcode innerSrcTy false destTy false in
                      if castIsValid opcode innerSrcTy destTy
                      then
                        let n := IR.fresh_id (fn st) in
                        let newCast := IR.mkInst n "combined_cast"
                              (IR.CastInst opcode innerSrcTy destTy innerOperand) in
                        rewrite st id [newCast] (IR.InstValue n)
                          (count_cast_eliminated (stats st))
                      else st
                | _ => st
                end
            | _ => st
            end
      | _ => st
      end
  end.

Definition eliminateUnnecessaryTypeCasts (F : IR.Function)
  (s : TypeOptimizationStats) : IR.Function * TypeOptimizationStats * bool :=
  traverse eliminateCastInstruction F s.

Definition canSpecializeFunction (func : option IR.Function) : bool :=
  match func with
  | None => false
  | Some f =>
      if IR.isVarArg f || IR.isDeclaration f then false
      else (0 <? IR.arg_size f)%nat && (IR.size f <=? 10)%nat
  end.

(** [specializeGenericFunctions] only counts; the called function is
    found in the module [M]. *)
Definition specializeGenericFunctions (M : IR.Module) (F : IR.Function)
  (s : TypeOptimizationStats) : TypeOptimizationStats * bool :=
  (fold_left (fun s inst =>
     match IR.inst_kind inst with
     | IR.CallInst (Some callee) _ =>
         match IR.getFunction M callee with
         | Some calledFunc =>
             if canSpecializeFunction (Some calledFunc)
             then count_specialization s else s
         | None => s
         end
     | _ => s
     end) (IR.all_instructions F) s, false).

Definition optimizePolymorphicCalls (F : IR.Function) : bool := false.
Definition inlineMonomorphicFunctions (F : IR.Function) : bool := false.

(** [run]: the function and the counters after the pass, and whether it
    reports a change ([PreservedAnalyses::none()]). *)
Definition run (M : IR.Module) (F : IR.Function) (s : TypeOptimizationStats)
  : IR.Function * TypeOptimizationStats * bool :=
  let '(F, s, c1) := optimizeNumericOperations F s in
  let '(F, s, c2) := eliminateUnnecessaryTypeCasts F s in
  let '(s, c3) := specializeGenericFunctions M F s in
  let c4 := optimizePolymorphicCalls F in
  let c5 := inlineMonomorphicFunctions F in
  (F, s, c1 || c2 || c3 || c4 || c5).

End Casts.

End QuillTypeDirectedOptimizationPass.

(* ------------------------------------------------------------------ *)
(** ** [QuillFunctionInliningPass]                                     *)
(* ------------------------------------------------------------------ *)

Module QuillFunctionInliningPass.

Definition INLINE_THRESHOLD : Z := 20.

Definition calculateInstructionCount (func : IR.Function) : Z :=
  fold_left (fun count inst =>
     let count := (count + 1)%Z in
     match IR.inst_kind inst with
     | IR.CallInst _ _ => (count + 5)%Z
     | IR.BranchInst _ => (count + 1)%Z
     | IR.LoadInst _ | IR.StoreInst _ _ => (count + 2)%Z
     | _ => count
     end) (IR.all_instructions func) 0%Z.

Definition shouldInlineFunction (func : option IR.Function) : bool :=
  match func with
  | None => false
  | Some f =>
      if IR.isDeclaration f then false
      else if String.eqb (IR.getName f) "main" then false
      else if (3 <? IR.size f)%nat then false
      else (calculateInstructionCount f <=? INLINE_THRESHOLD)%Z
  end.

(** [call->getCalledFunction()]: the function of the module that a direct
    call names; null for an indirect call. *)
Definition getCalledFunction (M : IR.Module) (inst : IR.Instruction)
  : option IR.Function :=
  match IR.inst_kind inst with
  | IR.CallInst (Some callee) _ => IR.getFunction M callee
  | _ => None
  end.

Definition is_call (inst : IR.Instruction) : bool :=
  match IR.inst_kind inst with
  | IR.CallInst _ _ => true
  | _ => false
  end.

(** The first loop of [inlineSmallFunctions]: the vector [callsToInline],
    each call instruction given by its identifier. *)
Definition callsToInline (M : IR.Module) : list nat :=
  flat_map (fun caller =>
    if IR.isDeclaration caller then []
    else flat_map (fun inst =>
           if is_call inst then
             match getCalledFunction M inst with
             | Some callee =>
                 if shouldInlineFunction (Some callee) then [IR.inst_id inst] else []
             | None => []
             end
           else []) (IR.all_instructions caller)) M.

(** [call->getParent()->getParent()] together with the call itself. *)
Fixpoint find_call (M : IR.Module) (call : nat)
  : option (IR.Function * IR.Instruction) :=
  match M with
  | [] => None
  | F :: M =>
      match IR.find_instruction F call with
      | Some inst => Some (F, inst)
      | None => find_call M call
      end
  end.

(** The inner loops of the second phase: does the body of [callee] hold a
    call whose called function is [callee]? *)
Definition isRecursive (M : IR.Module) (callee : IR.Function) : bool :=
  existsb (fun inst =>
    is_call inst &&
    match getCalledFunction M inst with
    | Some f => String.eqb (IR.getName f) (IR.getName callee)
    | None => false
    end) (IR.all_instructions callee).

(** A successful [InlineFunction]: the module it was applied to, the call
    and the two functions involved. *)
Record Inlined := mkInlined {
  module_before : IR.Module;
  inlined_call : nat;
  into_caller : string;
  inlined_callee : string
}.

Section Inlining.

(** LLVM's [InlineFunction], applied to a call: the module after a successful
    inlining of the call, [None] when [isSuccess()] is false. *)
Variable InlineFunction : IR.Module -> nat -> option IR.Module.

(** The body of the second loop for one queued call; the state is the
    module, the flag [changed] and the inlinings performed so far. *)
Definition inline_call (st : IR.Module * bool * list Inlined) (call : nat)
  : IR.Module * bool * list Inlined :=
  let '(M, changed, inlined) := st in
  match find_call M call with
  | None => st
  | Some (caller, inst) =>
      match getCalledFunction M inst with
      | None => st
      | Some callee =>
          if String.eqb (IR.getName caller) (IR.getName callee) then st
          else if isRecursive M callee then st
          else
            match InlineFunction M call with
            | Some M' =>
                (M', true,
                 (inlined ++
                  [mkInlined M call (IR.getName caller) (IR.getName callee)])%list)
            | None => st
            end
      end
  end.

Definition inlineSmallFunctions (M : IR.Module) : IR.Module * bool * list Inlined :=
  fold_left inline_call (callsToInline M) (M, false, []).

(** [run]: the module after the pass and whether it changed. *)
Definition run (M : IR.Module) : IR.Module * bool :=
  let '(M', changed, _) := inlineSmallFunctions M in (M', changed).

End Inlining.

(** Call-site inlining of a callee made of one block that ends in [ret v]:
    the call is replaced by the body of the callee, its instructions renamed
    apart and its parameters replaced by the arguments of the call, and the
    uses of the call become the returned value.  Other callees are refused.
    This stands for LLVM's [InlineFunction] where a concrete one is needed. *)
Definition rename_value (offset : nat) (actuals : list IR.Value) (v : IR.Value)
  : IR.Value :=
  match v with
  | IR.InstValue i => IR.InstValue (offset + i)
  | IR.Argument i => match actuals !! i with Some a => a | None => v end
  | _ => v
  end.

Definition rename_kind (offset : nat) (actuals : list IR.Value) (k : IR.InstKind)
  : IR.InstKind :=
  let r := rename_value offset actuals in
  match k with
  | IR.BinaryOperator op a b => IR.BinaryOperator op (r a) (r b)
  | IR.FCmpInst p a b => IR.FCmpInst p (r a) (r b)
  | IR.ICmpInst p a b => IR.ICmpInst p (r a) (r b)
  | IR.CastInst op src dst a => IR.CastInst op src dst (r a)
  | IR.CallInst f args => IR.CallInst f (map r args)
  | IR.LoadInst p => IR.LoadInst (r p)
  | IR.StoreInst v p => IR.StoreInst (r v) (r p)
  | IR.AllocaInst => IR.AllocaInst
  | IR.BranchInst c => IR.BranchInst (option_map r c)
  | IR.ReturnInst v => IR.ReturnInst (option_map r v)
  end.

Definition module_fresh_id (M : IR.Module) : nat :=
  fold_right Nat.max 0%nat (map IR.fresh_id M).

Definition splice_call (M : IR.Module) (call : nat) : option IR.Module :=
  match find_call M call with
  | Some (caller, inst) =>
      match IR.inst_kind inst, getCalledFunction M inst with
      | IR.CallInst _ actuals, Some callee =>
          match IR.blocks callee with
          | [B] =>
              match rev (IR.instructions B) with
              | last :: body_rev =>
                  match IR.inst_kind last with
                  | IR.ReturnInst retval =>
                      let offset := module_fresh_id M in
                      let body := map (fun i =>
                            IR.mkInst (offset + IR.inst_id i) (IR.inst_name i)
                              (rename_kind offset actuals (IR.inst_kind i)))
                            (rev body_rev) in
                      let caller' := IR.insert_before caller call body in
                      let caller' :=
                        match retval with
                        | Some v => IR.replaceAllUsesWith caller' call
                                      (rename_value offset actuals v)
                        | None => caller'
                        end in
                      let caller' := IR.erase_all caller' [call] in
                      Some (map (fun F =>
                              if String.eqb (IR.getName F) (IR.getName caller)
                              then caller' else F) M)
                  | _ => None
                  end
              | [] => None
              end
          | _ => None
          end
      | _, _ => None
      end
  | None => None
  end.

End QuillFunctionInliningPass.

(* ------------------------------------------------------------------ *)
(** ** [QuillArithmeticSimplificationPass]                             *)
(* ------------------------------------------------------------------ *)

Module QuillArithmeticSimplificationPass.

Definition constant_equals (val : IR.Value) (c : double) : bool :=
  match val with
  | IR.ConstantFP d => double_eqb d c
  | _ => false
  end.

Definition isZero (val : IR.Value) : bool := constant_equals val (S754_zero false).
Definition isOne (val : IR.Value) : bool := constant_equals val (double_of_Z 1).

(** [simplifyExpression]: the value that replaces the operator, with the
    instruction created in front of it when there is one ([n] is its
    identifier); [None] is the null result. *)
Definition simplifyExpression (n : nat) (opcode : IR.BinaryOps)
  (lhs rhs : IR.Value) : option (IR.Value * list IR.Instruction) :=
  let zero := IR.ConstantFP (S754_zero false) in
  let created op a b :=
    Some (IR.InstValue n, [IR.mkInst n "double" (IR.BinaryOperator op a b)]) in
  match opcode with
  | IR.FAdd =>
      if isZero rhs then Some (lhs, [])
      else if isZero lhs then Some (rhs, [])
      else if IR.Value_eqb lhs rhs
      then created IR.FMul lhs (IR.ConstantFP (double_of_Z 2))
      else None
  | IR.FSub =>
      if isZero rhs then Some (lhs, [])
      else if IR.Value_eqb lhs rhs then Some (zero, [])
      else None
  | IR.FMul =>
      if isZero lhs || isZero rhs then Some (zero, [])
      else if isOne rhs then Some (lhs, [])
      else if isOne lhs then Some (rhs, [])
      else if constant_equals rhs (double_of_Z 2) then created IR.FAdd lhs lhs
      else if constant_equals lhs (double_of_Z 2) then created IR.FAdd rhs rhs
      else None
  | IR.FDiv =>
      if isOne rhs then Some (lhs, [])
      else if IR.Value_eqb lhs rhs then Some (IR.ConstantFP (double_of_Z 1), [])
      else if isZero lhs then Some (zero, [])
      else None
  | _ => None
  end.

(** The body of the loops of [simplifyArithmetic] for the instruction [id];
    the state is the function, the vector [toRemove] and the flag
    [changed]. *)
Definition simplifyInstruction (st : IR.Function * list nat * bool) (id : nat)
  : IR.Function * list nat * bool :=
  let '(F, toRemove, changed) := st in
  match option_map IR.inst_kind (IR.find_instruction F id) with
  | Some (IR.BinaryOperator opcode lhs rhs) =>
      match simplifyExpression (IR.fresh_id F) opcode lhs rhs with
      | Some (simplified, news) =>
          (IR.replaceAllUsesWith (IR.insert_before F id news) id simplified,
           (toRemove ++ [id])%list, true)
      | None => st
      end
  | _ => st
  end.

Definition simplifyArithmetic (F : IR.Function) : IR.Function * bool :=
  let '(F', toRemove, changed) :=
    fold_left simplifyInstruction (map IR.inst_id (IR.all_instructions F))
      (F, [], false) in
  (IR.erase_all F' toRemove, changed).

(** [run]: the function after the pass. *)
Definition run (F : IR.Function) : IR.Function := fst (simplifyArithmetic F).

End QuillArithmeticSimplificationPass.

(* ------------------------------------------------------------------ *)
(** ** [QuillOptimizationManager]                                      *)
(* ------------------------------------------------------------------ *)

Module QuillOptimizationManager.

Inductive OptimizationLevel := O0 | O1 | O2 | O3.

Record OptimizationStats := mkStats {
  instructions_eliminated : nat;
  constants_folded : nat;
  functions_inlined : nat;
  loops_optimized : nat;
  optimization_time_ms : double;
  type_specializations : nat;
  type_casts_eliminated : nat;
  numeric_operations_optimized : nat;
  divisions_to_shifts : nat;
  multiplications_to_shifts : nat
}.

(** [OptimizationStats{}]. *)
Definition zero_stats : OptimizationStats :=
  mkStats 0 0 0 0 (S754_zero false) 0 0 0 0 0.

(** The passes a function pipeline can hold.  The type-directed pass is an
    object with counters: the pipeline holds the address of that object in
    the store [pass_objects] of the manager. *)
Inductive FunctionPass :=
| InstCombinePass
| SimplifyCFGPass
| ReassociatePass
| GVNPass
| ArithmeticSimplificationPass
| TypeDirectedOptimizationPass (object : nat).

(** The manager.  [module_pm] is created empty and no pass is ever added to
    it, so it is not represented.  [type_directed_pass] is the owning
    pointer to a pass object, [None] when null. *)
Record t := mk {
  opt_level : OptimizationLevel;
  stats : OptimizationStats;
  function_pm : list FunctionPass;
  pass_objects : gmap nat QuillTypeDirectedOptimizationPass.TypeOptimizationStats;
  type_directed_pass : option nat
}.

Section Pipeline.

(** What [function_pm->addPass] stores for the dereferenced
    [type_directed_pass] is decided by
    LLVM's [PassManager::addPass]: a copy of the pass object ([true]) or the
    object itself ([false]). *)
Variable addPass_copies : bool.

(** The passes taken from LLVM ([InstCombinePass], [SimplifyCFGPass],
    [ReassociatePass], [GVNPass]), as transformations of a function. *)
Variable run_llvm_pass : FunctionPass -> IR.Function -> IR.Function.

Variable getCastOpcode : IR.LType -> bool -> IR.LType -> bool -> IR.CastOps.
Variable castIsValid : IR.CastOps -> IR.LType -> IR.LType -> bool.

Definition fresh_object (objs : gmap nat QuillTypeDirectedOptimizationPass.TypeOptimizationStats)
  : nat :=
  S (set_fold Nat.max 0%nat (dom objs)).

Definition addBasicOptimizations (pm : list FunctionPass) : list FunctionPass :=
  (pm ++ [InstCombinePass; SimplifyCFGPass])%list.

Definition addAdvancedOptimizations (pm : list FunctionPass) : list FunctionPass :=
  (pm ++ [ReassociatePass; GVNPass])%list.

Definition setupPassPipeline (mgr : t) : t :=
  match opt_level mgr with
  | O0 => mk O0 (stats mgr) [] (pass_objects mgr) (type_directed_pass mgr)
  | O1 => mk O1 (stats mgr) (addBasicOptimizations [])
            (pass_objects mgr) (type_directed_pass mgr)
  | O2 => mk O2 (stats mgr) (addAdvancedOptimizations (addBasicOptimizations []))
            (pass_objects mgr) (type_directed_pass mgr)
  | O3 =>
      let pm := addAdvancedOptimizations (addBasicOptimizations []) in
      let pm := (pm ++ [ArithmeticSimplificationPass])%list in
      (* make_unique<QuillTypeDirectedOptimizationPass>() *)
      let p := fresh_object (pass_objects mgr) in
      let objs := <[p := QuillTypeDirectedOptimizationPass.resetStats]>
                    (pass_objects mgr) in
      (* function_pm->addPass of the dereferenced type_directed_pass *)
      if addPass_copies then
        let q := fresh_object objs in
        mk O3 (stats mgr) (pm ++ [TypeDirectedOptimizationPass q])%list
           (<[q := QuillTypeDirectedOptimizationPass.resetStats]> objs) (Some p)
      else
        mk O3 (stats mgr) (pm ++ [TypeDirectedOptimizationPass p])%list objs (Some p)
  end.

(** The constructor. *)
Definition create (level : OptimizationLevel) : t :=
  setupPassPipeline (mk level zero_stats [] ∅ None).

Definition setOptimizationLevel (mgr : t) (level : OptimizationLevel) : t :=
  setupPassPipeline
    (mk level (stats mgr) (function_pm mgr) (pass_objects mgr)
       (type_directed_pass mgr)).

(** [function_pm->run(F, FAM)]: the passes of the pipeline in order; the
    type-directed pass updates the counters of its object. *)
Definition run_function_pm (pm : list FunctionPass) (M : IR.Module)
  (F : IR.Function)
  (objs : gmap nat QuillTypeDirectedOptimizationPass.TypeOptimizationStats)
  : IR.Function * gmap nat QuillTypeDirectedOptimizationPass.TypeOptimizationStats :=
  fold_left (fun '(F, objs) pass =>
    match pass with
    | TypeDirectedOptimizationPass q =>
        match objs !! q with
        | Some s =>
            let '(F', s', _) :=
              QuillTypeDirectedOptimizationPass.run getCastOpcode castIsValid M F s in
            (F', <[q := s']> objs)
        | None => (F, objs)
        end
    | ArithmeticSimplificationPass =>
        (QuillArithmeticSimplificationPass.run F, objs)
    | _ => (run_llvm_pass pass F, objs)
    end) pm (F, objs).

(** The loop [for (Function& F : module)]: [before] holds the functions
    already visited, [after] those still to visit. *)
Fixpoint run_functions (pm : list FunctionPass) (before after : IR.Module)
  (objs : gmap nat QuillTypeDirectedOptimizationPass.TypeOptimizationStats)
  : IR.Module * gmap nat QuillTypeDirectedOptimizationPass.TypeOptimizationStats :=
  match after with
  | [] => (before, objs)
  | F :: after =>
      if negb (IR.isDeclaration F) then
        let '(F', objs') := run_function_pm pm (before ++ F :: after)%list F objs in
        run_functions pm (before ++ [F'])%list after objs'
      else run_functions pm (before ++ [F])%list after objs
  end.

(** [runOptimizations]; [elapsed_ms] is the duration measured by the two
    readings of the clock. *)
Definition runOptimizations (mgr : t) (module : IR.Module) (elapsed_ms : double)
  : t * IR.Module :=
  (* stats = OptimizationStats{} *)
  let stats0 := zero_stats in
  let '(module', objs) :=
    run_functions (function_pm mgr) [] module (pass_objects mgr) in
  let stats1 :=
    mkStats (instructions_eliminated stats0) (constants_folded stats0)
      (functions_inlined stats0) (loops_optimized stats0) elapsed_ms
      (type_specializations stats0) (type_casts_eliminated stats0)
      (numeric_operations_optimized stats0) (divisions_to_shifts stats0)
      (multiplications_to_shifts stats0) in
  let stats2 :=
    match type_directed_pass mgr with
    | Some p =>
        match objs !! p with
        | Some type_stats =>
            mkStats (instructions_eliminated stats1) (constants_folded stats1)
              (functions_inlined stats1) (loops_optimized stats1)
              (optimization_time_ms stats1)
              (QuillTypeDirectedOptimizationPass.specializations_applied type_stats)
              (QuillTypeDirectedOptimizationPass.type_casts_eliminated type_stats)
              (QuillTypeDirectedOptimizationPass.numeric_optimizations type_stats)
              (QuillTypeDirectedOptimizationPass.divisions_to_shifts type_stats)
              (QuillTypeDirectedOptimizationPass.multiplication_to_shifts type_stats)
        | None => stats1
        end
    | None => stats1
    end in
  (mk (opt_level mgr) stats2 (function_pm mgr) objs (type_directed_pass mgr),
   module').

End Pipeline.

End QuillOptimizationManager.

(* ------------------------------------------------------------------ *)
(** ** Auxiliary notions used by the statements of Part II            *)
(* ------------------------------------------------------------------ *)

(** ** Induction over types *)

(** The induction principle of [QType] with the hypotheses for the types
    nested in the lists of a composite type. *)
Section QType_nested_induction.

Variable P : QType -> Prop.

Hypothesis H_int : P IntType.
Hypothesis H_float : P FloatType.
Hypothesis H_bool : P BoolType.
Hypothesis H_string : P StringType.
Hypothesis H_void : P VoidType.
Hypothesis H_function : forall ps r, Forall P ps -> P r -> P (FunctionType ps r).
Hypothesis H_list : forall e, P e -> P (ListType e).
Hypothesis H_tuple : forall es, Forall P es -> P (TupleType es).
Hypothesis H_union : forall ts, Forall P ts -> P (UnionType ts).
Hypothesis H_generic : forall n cs, Forall P cs -> P (GenericType n cs).
Hypothesis H_discriminated :
  forall vs, Forall (fun v => P (snd v)) vs -> P (DiscriminatedUnionType vs).
Hypothesis H_interface :
  forall n ms,
    Forall (fun m => Forall P (fst (snd m)) /\ P (snd (snd m))) ms ->
    P (InterfaceType n ms).
Hypothesis H_unknown : P UnknownType.
Hypothesis H_error : forall msg, P (ErrorType msg).

Fixpoint QType_nested_ind (t : QType) : P t :=
  let all := fix all (l : list QType) : Forall P l :=
    match l with
    | [] => List.Forall_nil P
    | x :: l => List.Forall_cons P x l (QType_nested_ind x) (all l)
    end in
  match t with
  | IntType => H_int
  | FloatType => H_float
  | BoolType => H_bool
  | StringType => H_string
  | VoidType => H_void
  | FunctionType ps r => H_function ps r (all ps) (QType_nested_ind r)
  | ListType e => H_list e (QType_nested_ind e)
  | TupleType es => H_tuple es (all es)
  | UnionType ts => H_union ts (all ts)
  | GenericType n cs => H_generic n cs (all cs)
  | DiscriminatedUnionType vs =>
      H_discriminated vs
        ((fix go (l : list (string * QType)) : Forall (fun v => P (snd v)) l :=
            match l with
            | [] => List.Forall_nil _
            | v :: l => List.Forall_cons _ v l (QType_nested_ind (snd v)) (go l)
            end) vs)
  | InterfaceType n ms =>
      H_interface n ms
        ((fix go (l : list (string * (list QType * QType)))
            : Forall (fun m => Forall P (fst (snd m)) /\ P (snd (snd m))) l :=
            match l with
            | [] => List.Forall_nil _
            | m :: l =>
                List.Forall_cons _ m l
                  (conj (all (fst (snd m))) (QType_nested_ind (snd (snd m))))
                  (go l)
            end) ms)
  | UnknownType => H_unknown
  | ErrorType msg => H_error msg
  end.

End QType_nested_induction.

(** Names that occur once only: the tags of a discriminated union, the
    method names of an interface. *)
Fixpoint distinct (names : list string) : bool :=
  match names with
  | [] => true
  | n :: names => negb (existsb (String.eqb n) names) && distinct names
  end.

(** A type is well tagged when no discriminated union in it repeats a tag
    and no interface in it repeats a method name. *)
Fixpoint well_tagged (t : QType) : bool :=
  match t with
  | FunctionType ps r => forallb well_tagged ps && well_tagged r
  | ListType e => well_tagged e
  | TupleType es => forallb well_tagged es
  | UnionType ts => forallb well_tagged ts
  | DiscriminatedUnionType vs =>
      distinct (map fst vs) && forallb (fun v => well_tagged (snd v)) vs
  | InterfaceType _ ms =>
      distinct (map fst ms) &&
      forallb (fun m => forallb well_tagged (fst (snd m)) &&
                        well_tagged (snd (snd m))) ms
  | _ => true
  end.


(** The failure of [lookupFunction] on a bound name: the name is bound to a
    function type and either the arity differs or some argument is not
    assignable to its parameter. *)
Definition no_matching_signature (scopes : TypeEnvironment.t) (n : string)
  (arg_types : list (option QType)) : Prop :=
  exists ps r,
    TypeEnvironment.lookup scopes n = Some (FunctionType ps r) /\
    (length ps <> length arg_types \/
     exists i p a, ps !! i = Some p /\ arg_types !! i = Some a /\
                   isAssignableFrom p a = false).

(** *** Example inputs *)

(** The literals [1] and [2.5]. *)
Definition one : double := double_of_Z 1.
Definition two_and_a_half : double := binary_normalize dprec demax 5 (-1) false.

(** [if c: x = 1 else: x = 2.5], as the parser builds it: each branch is a
    block. *)
Definition if_else_program (c : option ExprAST) (x : string) : StmtAST :=
  IfStmtAST c
    (Some (BlockStmtAST [Some (AssignmentStmtAST x (Some (NumberExprAST one)))]))
    (Some (BlockStmtAST
             [Some (AssignmentStmtAST x (Some (NumberExprAST two_and_a_half)))])).

(** A checker in which [f] is declared with one [float] parameter, and one
    whose only function parameter [c] is in scope. *)
Definition checker_with_f : TypeChecker.t :=
  TypeChecker.defineFunction TypeChecker.create "f"
    (FunctionType [FloatType] FloatType).

Definition checker_with_c : TypeChecker.t :=
  TypeChecker.defineVariable (TypeChecker.pushScope TypeChecker.create) "c"
    TypeFactory.createFloat.

(** The sides that [solve] dereferences are present: both sides of an
    [EQUALS] constraint, the left side of a [NUMERIC] or [COMPARABLE] one. *)
Definition sides_present (c : TypeConstraints.Constraint) : bool :=
  match TypeConstraints.ckind c with
  | TypeConstraints.EQUALS =>
      match TypeConstraints.left c, TypeConstraints.right c with
      | Some _, Some _ => true
      | _, _ => false
      end
  | TypeConstraints.NUMERIC | TypeConstraints.COMPARABLE =>
      match TypeConstraints.left c with Some _ => true | None => false end
  | _ => true
  end.

(** What holds of the bindings [b] and the flag [changed] in the middle of
    an iteration that started from the bindings [b0]. *)
Definition iteration_invariant (names : gset string)
  (b0 : gmap string QType) (st : gmap string QType * bool) : Prop :=
  b0 ⊆ fst st /\
  dom (fst st) ⊆ dom b0 ∪ names /\
  size b0 <= size (fst st) /\
  (if snd st then size b0 < size (fst st) else fst st = b0).

(** The constraints of the example used for the solver: [T = float],
    [U numeric], [int = T]. *)
Definition example_constraints : list TypeConstraints.Constraint :=
  [ TypeConstraints.mkConstraint TypeConstraints.EQUALS
      (Some (GenericType "T" [])) (Some FloatType);
    TypeConstraints.mkConstraint TypeConstraints.NUMERIC
      (Some (GenericType "U" [])) None;
    TypeConstraints.mkConstraint TypeConstraints.EQUALS
      (Some IntType) (Some (GenericType "T" [])) ].

(** [ret double (sitofp (fptosi %x))] for the parameter [%x] of the
    function. *)
Definition cast_round_trip : IR.Function :=
  IR.mkFunction "round_trip" 1 false
    [IR.mkBlock "entry"
       [IR.mkInst 1 "a"
          (IR.CastInst IR.FPToSI IR.DoubleTy (IR.IntegerTy 64) (IR.Argument 0));
        IR.mkInst 2 "b"
          (IR.CastInst IR.SIToFP (IR.IntegerTy 64) IR.DoubleTy (IR.InstValue 1));
        IR.mkInst 3 IR.unnamed (IR.ReturnInst (Some (IR.InstValue 2)))]].

(** A function returning the result of one floating-point operation on two
    integer-valued constants. *)
Definition constant_operation (op : IR.BinaryOps) (a b : Z) : IR.Function :=
  IR.mkFunction "constant" 0 false
    [IR.mkBlock "entry"
       [IR.mkInst 1 "r"
          (IR.BinaryOperator op (IR.ConstantFP (double_of_Z a))
                                (IR.ConstantFP (double_of_Z b)));
        IR.mkInst 2 IR.unnamed (IR.ReturnInst (Some (IR.InstValue 1)))]].

(** What [optimizeNumericOperations] makes of [constant_operation] for a
    multiplication or division by a power of two: a shift by [shift] and a
    conversion of its result. *)
Definition shifted_operation (shift_name : string) (op : IR.BinaryOps)
  (a shift : Z) : IR.Function :=
  IR.mkFunction "constant" 0 false
    [IR.mkBlock "entry"
       [IR.mkInst 3 shift_name
          (IR.BinaryOperator op (IR.ConstantInt (IR.IntegerTy 64) a)
                                (IR.ConstantInt (IR.IntegerTy 32) shift));
        IR.mkInst 4 IR.unnamed
          (IR.CastInst IR.SIToFP (IR.IntegerTy 64) IR.DoubleTy (IR.InstValue 3));
        IR.mkInst 2 IR.unnamed (IR.ReturnInst (Some (IR.InstValue 4)))]].

(** A module in which [f] calls [g] and [g] calls [f], and [main] calls
    [f]. *)
Definition mutual_recursion : IR.Module :=
  [ IR.mkFunction "main" 0 false
      [IR.mkBlock "entry"
         [IR.mkInst 1 "r" (IR.CallInst (Some "f") [IR.ConstantFP one]);
          IR.mkInst 2 IR.unnamed (IR.ReturnInst (Some (IR.InstValue 1)))]];
    IR.mkFunction "f" 1 false
      [IR.mkBlock "entry"
         [IR.mkInst 3 "r" (IR.CallInst (Some "g") [IR.Argument 0]);
          IR.mkInst 4 IR.unnamed (IR.ReturnInst (Some (IR.InstValue 3)))]];
    IR.mkFunction "g" 1 false
      [IR.mkBlock "entry"
         [IR.mkInst 5 "r" (IR.CallInst (Some "f") [IR.Argument 0]);
          IR.mkInst 6 IR.unnamed (IR.ReturnInst (Some (IR.InstValue 5)))]] ].

(** Does the body of the function called [caller] hold a direct call to
    the function called [callee]? *)
Definition calls (M : IR.Module) (caller callee : string) : bool :=
  match IR.getFunction M caller with
  | Some F =>
      existsb (fun inst =>
        match IR.inst_kind inst with
        | IR.CallInst (Some n) _ => String.eqb n callee
        | _ => false
        end) (IR.all_instructions F)
  | None => false
  end.

(** [main] returns [square(3.0)], and [square(x)] returns [x * x]. *)
Definition call_square : IR.Module :=
  [ IR.mkFunction "main" 0 false
      [IR.mkBlock "entry"
         [IR.mkInst 1 "r" (IR.CallInst (Some "square") [IR.ConstantFP (double_of_Z 3)]);
          IR.mkInst 2 IR.unnamed (IR.ReturnInst (Some (IR.InstValue 1)))]];
    IR.mkFunction "square" 1 false
      [IR.mkBlock "entry"
         [IR.mkInst 3 "m" (IR.BinaryOperator IR.FMul (IR.Argument 0) (IR.Argument 0));
          IR.mkInst 4 IR.unnamed (IR.ReturnInst (Some (IR.InstValue 3)))]] ].

(** LLVM passes that find nothing to change. *)
Definition llvm_pass_unchanged (pass : QuillOptimizationManager.FunctionPass)
  (F : IR.Function) : IR.Function := F.

(** The field-wise sum of two records of counters. *)
Definition add_stats
  (a b : QuillTypeDirectedOptimizationPass.TypeOptimizationStats)
  : QuillTypeDirectedOptimizationPass.TypeOptimizationStats :=
  QuillTypeDirectedOptimizationPass.mkStats
    (QuillTypeDirectedOptimizationPass.specializations_applied a +
     QuillTypeDirectedOptimizationPass.specializations_applied b)
    (QuillTypeDirectedOptimizationPass.type_casts_eliminated a +
     QuillTypeDirectedOptimizationPass.type_casts_eliminated b)
    (QuillTypeDirectedOptimizationPass.numeric_optimizations a +
     QuillTypeDirectedOptimizationPass.numeric_optimizations b)
    (QuillTypeDirectedOptimizationPass.integer_arithmetic_optimized a +
     QuillTypeDirectedOptimizationPass.integer_arithmetic_optimized b)
    (QuillTypeDirectedOptimizationPass.divisions_to_shifts a +
     QuillTypeDirectedOptimizationPass.divisions_to_shifts b)
    (QuillTypeDirectedOptimizationPass.multiplication_to_shifts a +
     QuillTypeDirectedOptimizationPass.multiplication_to_shifts b).

(** A traversal state whose counters are increased by [s]. *)
Definition shift_stats (s : QuillTypeDirectedOptimizationPass.TypeOptimizationStats)
  (st : QuillTypeDirectedOptimizationPass.traversal)
  : QuillTypeDirectedOptimizationPass.traversal :=
  QuillTypeDirectedOptimizationPass.mkTraversal
    (QuillTypeDirectedOptimizationPass.fn st)
    (QuillTypeDirectedOptimizationPass.toErase st)
    (QuillTypeDirectedOptimizationPass.changed st)
    (add_stats s (QuillTypeDirectedOptimizationPass.stats st)).

(** The counters that a pass object with reset counters would hold after
    one call of [runOptimizations] with the pipeline [pm] on [M]: the work
    of that call. *)
Definition work_of_call
  (run_llvm_pass : QuillOptimizationManager.FunctionPass -> IR.Function -> IR.Function)
  (getCastOpcode : IR.LType -> bool -> IR.LType -> bool -> IR.CastOps)
  (castIsValid : IR.CastOps -> IR.LType -> IR.LType -> bool)
  (pm : list QuillOptimizationManager.FunctionPass) (M : IR.Module) (q : nat)
  (objs : gmap nat QuillTypeDirectedOptimizationPass.TypeOptimizationStats)
  : option QuillTypeDirectedOptimizationPass.TypeOptimizationStats :=
  snd (QuillOptimizationManager.run_functions run_llvm_pass getCastOpcode
         castIsValid pm [] M
         (<[q := QuillTypeDirectedOptimizationPass.resetStats]> objs)) !! q.

(** An inlining that the pass may perform: the caller is not the callee,
    and the callee held no direct call to itself in the module in which it
    was inlined. *)
Definition not_directly_recursive (e : QuillFunctionInliningPass.Inlined) : Prop :=
  QuillFunctionInliningPass.into_caller e
    <> QuillFunctionInliningPass.inlined_callee e /\
  calls (QuillFunctionInliningPass.module_before e)
        (QuillFunctionInliningPass.inlined_callee e)
        (QuillFunctionInliningPass.inlined_callee e) = false.

(** Two stores of pass objects that differ only at [q], where the first
    holds the counters of the second increased by [s]. *)
Definition shifted_at (q : nat)
  (s : QuillTypeDirectedOptimizationPass.TypeOptimizationStats)
  (objs1 objs2 : gmap nat QuillTypeDirectedOptimizationPass.TypeOptimizationStats)
  : Prop :=
  exists w, objs2 !! q = Some w /\ objs1 = <[q := add_stats s w]> objs2.

(** Short names for the two modules the statements about statistics use. *)
Module TD := QuillTypeDirectedOptimizationPass.
Module OM := QuillOptimizationManager.

(* ------------------------------------------------------------------ *)
(** ** Further auxiliary notions                                       *)
(* ------------------------------------------------------------------ *)

(** Types built from the primitive types, [void] and [unknown] by the
    function, list and tuple constructors only. *)
Fixpoint plain (t : QType) : bool :=
  match t with
  | IntType | FloatType | BoolType | StringType | VoidType | UnknownType => true
  | FunctionType ps r => forallb plain ps && plain r
  | ListType e => plain e
  | TupleType es => forallb plain es
  | _ => false
  end.

(** The pairwise loops of [FunctionType::equals], [TupleType::equals] and
    [lookupFunction], named. *)
Definition equals_loop : list QType -> list QType -> bool :=
  fix loop (l l' : list QType) : bool :=
    match l, l' with
    | p :: l, p' :: l' =>
        if negb (equals p (Some p')) then false else loop l l'
    | _, _ => true
    end.

Definition assignable_loop : list QType -> list (option QType) -> bool :=
  fix loop (ps : list QType) (args : list (option QType)) : bool :=
    match ps, args with
    | p :: ps, a :: args =>
        if negb (isAssignableFrom p a) then false else loop ps args
    | _, _ => true
    end.

(** The definitions made in one scope, in order. *)
Definition define_all (scopes : TypeEnvironment.t)
  (definitions : list (string * QType)) : TypeEnvironment.t :=
  fold_left (fun s d => TypeEnvironment.define s (fst d) (snd d))
    definitions scopes.

(** The primitive types and [void]: the classes that keep
    [Type::isAssignableFrom], [FloatType] apart. *)
Definition primitive_or_void (t : QType) : bool := isPrimitive t || isVoid t.

(** The loop of [getCommonType] over the types after the first, named. *)
Fixpoint common_type_loop (result : QType) (l : list QType) : QType :=
  match l with
  | [] => result
  | t :: l =>
      let result := TypeFactory.unifyTypes (Some result) (Some t) in
      if isError result then result else common_type_loop result l
  end.

(** ** Induction over syntax trees *)

(** The induction principles of [ExprAST] and [StmtAST] with the
    hypotheses for the optional children and for the children held in
    lists. *)
Section ExprAST_nested_induction.

Variable P : ExprAST -> Prop.

Definition on_child (e : option ExprAST) : Prop :=
  match e with Some e => P e | None => True end.

Hypothesis H_number : forall value, P (NumberExprAST value).
Hypothesis H_string : forall value, P (StringExprAST value).
Hypothesis H_variable : forall n, P (VariableExprAST n).
Hypothesis H_binary :
  forall op lhs rhs, on_child lhs -> on_child rhs -> P (BinaryExprAST op lhs rhs).
Hypothesis H_unary :
  forall op operand, on_child operand -> P (UnaryExprAST op operand).
Hypothesis H_call :
  forall callee args, Forall on_child args -> P (CallExprAST callee args).

Fixpoint ExprAST_nested_ind (e : ExprAST) : P e :=
  let child := fun o : option ExprAST =>
    match o return on_child o with
    | Some e => ExprAST_nested_ind e
    | None => Logic.I
    end in
  match e with
  | NumberExprAST value => H_number value
  | StringExprAST value => H_string value
  | VariableExprAST n => H_variable n
  | BinaryExprAST op lhs rhs => H_binary op lhs rhs (child lhs) (child rhs)
  | UnaryExprAST op operand => H_unary op operand (child operand)
  | CallExprAST callee args =>
      H_call callee args
        ((fix all (l : list (option ExprAST)) : Forall on_child l :=
            match l with
            | [] => List.Forall_nil _
            | x :: l => List.Forall_cons _ x l (child x) (all l)
            end) args)
  end.

End ExprAST_nested_induction.

Section StmtAST_nested_induction.

Variable P : StmtAST -> Prop.

Definition on_statement (s : option StmtAST) : Prop :=
  match s with Some s => P s | None => True end.

Hypothesis H_assignment : forall n value, P (AssignmentStmtAST n value).
Hypothesis H_expression : forall expression, P (ExprStmtAST expression).
Hypothesis H_block :
  forall statements, Forall on_statement statements -> P (BlockStmtAST statements).
Hypothesis H_if :
  forall condition then_stmt else_stmt,
    on_statement then_stmt -> on_statement else_stmt ->
    P (IfStmtAST condition then_stmt else_stmt).
Hypothesis H_while :
  forall condition body, on_statement body -> P (WhileStmtAST condition body).
Hypothesis H_return : forall value, P (ReturnStmtAST value).
Hypothesis H_print : forall expression, P (PrintStmtAST expression).

Fixpoint StmtAST_nested_ind (s : StmtAST) : P s :=
  let child := fun o : option StmtAST =>
    match o return on_statement o with
    | Some s => StmtAST_nested_ind s
    | None => Logic.I
    end in
  match s with
  | AssignmentStmtAST n value => H_assignment n value
  | ExprStmtAST expression => H_expression expression
  | BlockStmtAST statements =>
      H_block statements
        ((fix all (l : list (option StmtAST)) : Forall on_statement l :=
            match l with
            | [] => List.Forall_nil _
            | x :: l => List.Forall_cons _ x l (child x) (all l)
            end) statements)
  | IfStmtAST condition then_stmt else_stmt =>
      H_if condition then_stmt else_stmt (child then_stmt) (child else_stmt)
  | WhileStmtAST condition body => H_while condition body (child body)
  | ReturnStmtAST value => H_return value
  | PrintStmtAST expression => H_print expression
  end.

End StmtAST_nested_induction.

(** A result of expression inference is settled when it carries a type
    and no error, or no type and one error; in either case no warning. *)
Definition settled (r : TypeCheckResult) : Prop :=
  ((errors r = [] /\ is_Some (type r)) \/
   (exists message, errors r = [message] /\ type r = None)) /\
  warnings r = [].

(** What a statement may change of the checker: the innermost scope of the
    type environment and the inference context.  The scopes around the
    innermost one and the reported messages are those of [before]. *)
Definition same_outer_scopes (before after : TypeChecker.t) : Prop :=
  TypeChecker.type_env after <> [] /\
  tl (TypeChecker.type_env after) = tl (TypeChecker.type_env before) /\
  TypeChecker.error_messages after = TypeChecker.error_messages before /\
  TypeChecker.warning_messages after = TypeChecker.warning_messages before.

(** What holds of a traversal of the type-directed pass that started with
    the counters [s], an empty [toErase] and [changed] cleared: every
    rewrite queued one instruction, set [changed] and counted once, either
    as a cast or as a numeric optimization of one of the three kinds. *)
Definition counted (s : TD.TypeOptimizationStats) (st : TD.traversal) : Prop :=
  let s' := TD.stats st in
  TD.specializations_applied s' = TD.specializations_applied s /\
  TD.numeric_optimizations s' + TD.type_casts_eliminated s' =
    TD.numeric_optimizations s + TD.type_casts_eliminated s +
    length (TD.toErase st) /\
  TD.numeric_optimizations s' +
    (TD.integer_arithmetic_optimized s + TD.divisions_to_shifts s +
     TD.multiplication_to_shifts s) =
    TD.numeric_optimizations s +
    (TD.integer_arithmetic_optimized s' + TD.divisions_to_shifts s' +
     TD.multiplication_to_shifts s') /\
  TD.numeric_optimizations s <= TD.numeric_optimizations s' /\
  TD.type_casts_eliminated s <= TD.type_casts_eliminated s' /\
  TD.integer_arithmetic_optimized s <= TD.integer_arithmetic_optimized s' /\
  TD.divisions_to_shifts s <= TD.divisions_to_shifts s' /\
  TD.multiplication_to_shifts s <= TD.multiplication_to_shifts s' /\
  TD.changed st = (0 <? length (TD.toErase st))%nat.

(** The function [square] of [call_square]. *)
Definition square : IR.Function :=
  IR.mkFunction "square" 1 false
    [IR.mkBlock "entry"
       [IR.mkInst 3 "m" (IR.BinaryOperator IR.FMul (IR.Argument 0) (IR.Argument 0));
        IR.mkInst 4 IR.unnamed (IR.ReturnInst (Some (IR.InstValue 3)))]].

(* ------------------------------------------------------------------ *)
(** ** [QuillDeadCodeEliminationPass]                                  *)
(* ------------------------------------------------------------------ *)

Module QuillDeadCodeEliminationPass.

(** The operands of an instruction, and whether the result of the
    instruction [id] is one of them. *)
Definition operands (k : IR.InstKind) : list IR.Value :=
  match k with
  | IR.BinaryOperator _ a b => [a; b]
  | IR.FCmpInst _ a b => [a; b]
  | IR.ICmpInst _ a b => [a; b]
  | IR.CastInst _ _ _ a => [a]
  | IR.CallInst _ args => args
  | IR.LoadInst p => [p]
  | IR.StoreInst v p => [v; p]
  | IR.AllocaInst => []
  | IR.BranchInst c => match c with Some v => [v] | None => [] end
  | IR.ReturnInst r => match r with Some v => [v] | None => [] end
  end.

Definition is_result_of (id : nat) (v : IR.Value) : bool :=
  match v with
  | IR.InstValue i => (i =? id)%nat
  | _ => false
  end.

Definition uses (id : nat) (k : IR.InstKind) : bool :=
  existsb (is_result_of id) (operands k).

Definition isTerminator (inst : IR.Instruction) : bool :=
  match IR.inst_kind inst with
  | IR.BranchInst _ | IR.ReturnInst _ => true
  | _ => false
  end.

(** [inst->use_empty()]: no instruction of the function has the result of
    [inst] among its operands. *)
Definition use_empty (F : IR.Function) (inst : IR.Instruction) : bool :=
  forallb (fun user => negb (uses (IR.inst_id inst) (IR.inst_kind user)))
    (IR.all_instructions F).

Section SideEffects.

(** LLVM's [Instruction::mayHaveSideEffects]. *)
Variable mayHaveSideEffects : IR.Instruction -> bool.

Definition isInstructionDead (F : IR.Function) (inst : IR.Instruction) : bool :=
  if mayHaveSideEffects inst then false
  else if isTerminator inst then false
  else if negb (use_empty F inst) then false
  else match IR.inst_kind inst with
       | IR.StoreInst _ _ => false
       | IR.CallInst _ _ => false
       | _ => true
       end.

(** The vector [toRemove] after the two [for] loops of one iteration. *)
Definition deadInstructions (F : IR.Function) : list nat :=
  map IR.inst_id (List.filter (isInstructionDead F) (IR.all_instructions F)).

(** The [while (madeChange)] loop, each unit of [fuel] paying for one
    iteration; [None] when the fuel runs out. *)
Fixpoint eliminate_loop (fuel : nat) (F : IR.Function) (changed : bool)
  : option (IR.Function * bool) :=
  match fuel with
  | O => None
  | S fuel =>
      match deadInstructions F with
      | [] => Some (F, changed)
      | toRemove => eliminate_loop fuel (IR.erase_all F toRemove) true
      end
  end.

Definition eliminateDeadInstructions (fuel : nat) (F : IR.Function)
  : option (IR.Function * bool) :=
  eliminate_loop fuel F false.

End SideEffects.

End QuillDeadCodeEliminationPass.

(* ------------------------------------------------------------------ *)
(** ** [QuillConstantFoldingPass]                                      *)
(* ------------------------------------------------------------------ *)

Module QuillConstantFoldingPass.

Section Folding.

(** [fmod] of the C library. *)
Variable fmod : double -> double -> double.

(** [evaluateConstantExpression] for the operator [opcode] with the
    operands [op0] and [op1]; [None] is the null result. *)
Definition evaluateConstantExpression (opcode : IR.BinaryOps)
  (op0 op1 : IR.Value) : option IR.Value :=
  match op0, op1 with
  | IR.ConstantFP lval, IR.ConstantFP rval =>
      match opcode with
      | IR.FAdd => Some (IR.ConstantFP (SFadd dprec demax lval rval))
      | IR.FSub => Some (IR.ConstantFP (SFsub dprec demax lval rval))
      | IR.FMul => Some (IR.ConstantFP (SFmul dprec demax lval rval))
      | IR.FDiv =>
          if double_eqb rval (S754_zero false) then None
          else Some (IR.ConstantFP (SFdiv dprec demax lval rval))
      | IR.FRem =>
          if double_eqb rval (S754_zero false) then None
          else Some (IR.ConstantFP (fmod lval rval))
      | _ => None
      end
  | _, _ => None
  end.



End Folding.

End QuillConstantFoldingPass.

(** ** Notions for the evaluation of rewritten code *)



(** [ret (1.0 + 2.0) * %x], with a sum of constants that nothing uses. *)
Definition constant_sum : IR.Function :=
  IR.mkFunction "sum" 1 false
    [IR.mkBlock "entry"
       [IR.mkInst 1 "a"
          (IR.BinaryOperator IR.FAdd (IR.ConstantFP (double_of_Z 1))
                                     (IR.ConstantFP (double_of_Z 2)));
        IR.mkInst 2 "b"
          (IR.BinaryOperator IR.FMul (IR.InstValue 1) (IR.Argument 0));
        IR.mkInst 3 "unused"
          (IR.BinaryOperator IR.FSub (IR.InstValue 1) (IR.InstValue 1));
        IR.mkInst 4 IR.unnamed (IR.ReturnInst (Some (IR.InstValue 2)))]].


(** LLVM's answer for the instructions of the model: stores and calls may
    have side effects. *)
Definition stores_and_calls (inst : IR.Instruction) : bool :=
  match IR.inst_kind inst with
  | IR.StoreInst _ _ | IR.CallInst _ _ => true
  | _ => false
  end.

(* ------------------------------------------------------------------ *)
(** ** [TypeAnnotationResolver] ([type_checker.cpp])                   *)
(* ------------------------------------------------------------------ *)

Module TypeAnnotationResolver.

(** [std::string::substr(pos, n)] for a position within the string. *)
Definition substr (s : string) (pos n : nat) : string := String.substring pos n s.

(** [std::string::back] of a string that is not empty. *)
Fixpoint back (s : string) : option ascii :=
  match s with
  | EmptyString => None
  | String c EmptyString => Some c
  | String _ s => back s
  end.

Definition empty (s : string) : bool :=
  match s with EmptyString => true | _ => false end.

(** The strings that [while (std::getline(ss, type_str, delim))] reads from
    what is left of the stream, [line] being what it has read of the
    current one: a last string that is empty is not delivered. *)
Fixpoint getlines (delim : ascii) (s : string) (line : string) : list string :=
  match s with
  | EmptyString => if empty line then [] else [line]
  | String c s =>
      if Ascii.eqb c delim then line :: getlines delim s EmptyString
      else getlines delim s (line ++ String c EmptyString)
  end.

Definition is_blank (c : ascii) : bool :=
  Ascii.eqb c " " || Ascii.eqb c (ascii_of_nat 9).

(** [type_str.erase(0, type_str.find_first_not_of(" \t"))]. *)
Fixpoint trim_left (s : string) : string :=
  match s with
  | EmptyString => EmptyString
  | String c s' => if is_blank c then trim_left s' else s
  end.

(** [type_str.erase(type_str.find_last_not_of(" \t") + 1)]. *)
Fixpoint trim_right (s : string) : string :=
  match s with
  | EmptyString => EmptyString
  | String c s' =>
      match trim_right s' with
      | EmptyString => if is_blank c then EmptyString else String c EmptyString
      | kept => String c kept
      end
  end.

Definition trim (s : string) : string := trim_right (trim_left s).

(** [annotation.find(pattern) != std::string::npos]. *)
Fixpoint found (pattern s : string) : bool :=
  String.prefix pattern s ||
  match s with
  | EmptyString => false
  | String _ s' => found pattern s'
  end.

(** [resolveAnnotation]; each unit of [fuel] pays for one level of the
    recursion, and [None] is returned when it runs out. *)
Fixpoint resolveAnnotation (fuel : nat) (annotation : string) : option QType :=
  match fuel with
  | O => None
  | S fuel =>
      let elements (build : list QType -> QType) :=
        fix loop (strs : list string) (resolved : list QType) : option QType :=
          match strs with
          | [] => Some (build resolved)
          | type_str :: strs =>
              match resolveAnnotation fuel (trim type_str) with
              | Some elem_type =>
                  if isError elem_type then Some elem_type
                  else loop strs (resolved ++ [elem_type])%list
              | None => None
              end
          end in
      if empty annotation then Some TypeFactory.createUnknown
      else if String.eqb annotation "int" then Some TypeFactory.createInt
      else if String.eqb annotation "float" then Some TypeFactory.createFloat
      else if String.eqb annotation "bool" then Some TypeFactory.createBool
      else if String.eqb annotation "str" || String.eqb annotation "string"
      then Some TypeFactory.createString
      else if String.eqb annotation "void" then Some TypeFactory.createVoid
      else if String.eqb (substr annotation 0 5) "list[" &&
              match back annotation with
              | Some c => Ascii.eqb c "]"
              | None => false
              end
      then
        let element_type := substr annotation 5 (String.length annotation - 6) in
        match resolveAnnotation fuel element_type with
        | Some elem_type =>
            if isError elem_type then Some elem_type
            else Some (TypeFactory.createList elem_type)
        | None => None
        end
      else if String.eqb (substr annotation 0 6) "tuple[" &&
              match back annotation with
              | Some c => Ascii.eqb c "]"
              | None => false
              end
      then
        let types_str := substr annotation 6 (String.length annotation - 7) in
        elements TypeFactory.createTuple (getlines "," types_str EmptyString) []
      else if found " | " annotation
      then elements TypeFactory.createUnion (getlines "|" annotation EmptyString) []
      else Some (TypeFactory.createError ("Unknown type annotation: " ++ annotation))
  end.

Definition resolveFromFunction (func : option FunctionAST) : QType :=
  match func with
  | None => TypeFactory.createError "Null function"
  | Some f =>
      TypeFactory.createFunction
        (map (fun _ => TypeFactory.createFloat) (fn_args f))
        TypeFactory.createFloat
  end.

Definition validateTypeAnnotation (fuel : nat) (annotation : string)
  : option bool :=
  option_map (fun resolved => negb (isError resolved))
    (resolveAnnotation fuel annotation).

End TypeAnnotationResolver.

(** The types that an annotation without commas and bars denotes: the
    primitive types, [void] and the lists of such types. *)
Fixpoint list_of_primitives (t : QType) : bool :=
  match t with
  | IntType | FloatType | BoolType | StringType | VoidType => true
  | ListType e => list_of_primitives e
  | _ => false
  end.

(** The loop of [resolveAnnotation] over the strings read by [getline],
    named; [resolve] is the recursive call. *)
Definition resolve_elements (resolve : string -> option QType)
  (build : list QType -> QType) : list string -> list QType -> option QType :=
  fix loop (strs : list string) (resolved : list QType) : option QType :=
    match strs with
    | [] => Some (build resolved)
    | type_str :: strs =>
        match resolve (TypeAnnotationResolver.trim type_str) with
        | Some elem_type =>
            if isError elem_type then Some elem_type
            else loop strs (resolved ++ [elem_type])%list
        | None => None
        end
    end.

(** How often a character occurs in a string. *)
Fixpoint occurrences (c : ascii) (s : string) : nat :=
  match s with
  | EmptyString => 0
  | String d s => (if Ascii.eqb d c then 1 else 0) + occurrences c s
  end.

(** Short names for the modules of the two passes above and of the
    annotation resolver. *)
Module DCE := QuillDeadCodeEliminationPass.
Module TAR := TypeAnnotationResolver.

(* ------------------------------------------------------------------ *)
(** ** [TypeChecker::checkProgram] ([type_checker.cpp])                *)
(* ------------------------------------------------------------------ *)

Definition clearMessages (tc : TypeChecker.t) : TypeChecker.t :=
  TypeChecker.mk (TypeChecker.type_env tc) (TypeChecker.current_context tc) [] [].

(** [beginInference] makes [current_context] point to a new, empty
    context. *)
Definition beginInference (tc : TypeChecker.t) : TypeChecker.t :=
  TypeChecker.with_context tc InferenceContext.empty.

Definition reportError (tc : TypeChecker.t) (message : string) : TypeChecker.t :=
  TypeChecker.mk (TypeChecker.type_env tc) (TypeChecker.current_context tc)
    (TypeChecker.error_messages tc ++ [message])%list
    (TypeChecker.warning_messages tc).

(** The body of the first loop of [checkProgram]: the signature of a
    function is declared with unknown parameter and return types. *)
Definition declareSignature (tc : TypeChecker.t) (func : FunctionAST)
  : TypeChecker.t :=
  TypeChecker.defineFunction tc (fn_name func)
    (TypeFactory.createFunction
       (map (fun _ => TypeFactory.createUnknown) (fn_args func))
       TypeFactory.createUnknown).

Section Program.

Variable out_of_range_int : double -> Z.

(** The body of the second loop: a function is checked and its errors are
    reported. *)
Definition checkAndReport (tc : TypeChecker.t) (func : FunctionAST)
  : TypeChecker.t :=
  let '(result, tc) := TypeChecker.checkFunction out_of_range_int tc func in
  if hasErrors result then fold_left reportError (errors result) tc else tc.

(** The checker at the end of the second loop, before [endInference]. *)
Definition checkFunctions (tc : TypeChecker.t) (functions : list FunctionAST)
  : TypeChecker.t :=
  let tc := beginInference (clearMessages tc) in
  let tc := fold_left declareSignature functions tc in
  fold_left checkAndReport functions tc.

(** [checkProgram]: the result, and the type environment that the checker
    is left with; [endInference] resets [current_context], so that no
    context remains.  The functions of a program are not null. *)
Definition checkProgram (tc : TypeChecker.t)
  (program : option (list FunctionAST)) : TypeCheckResult * TypeEnvironment.t :=
  match program with
  | None => (error_result "Null program AST", TypeChecker.type_env tc)
  | Some functions =>
      let tc := checkFunctions tc functions in
      (mkResult (Some TypeFactory.createVoid) (TypeChecker.error_messages tc)
         (TypeChecker.warning_messages tc),
       TypeChecker.type_env tc)
  end.

End Program.

(** A type from which a call gets no number: when it is a function type,
    it returns [unknown] or [void]. *)
Definition opaque_call (t : QType) : bool :=
  match t with
  | FunctionType _ r => isUnknown r || isVoid r
  | _ => true
  end.

(** No name in scope, and no variable of the inference context, is bound
    to a function type that returns anything but [unknown] or [void]. *)
Definition opaque_calls (tc : TypeChecker.t) : Prop :=
  (forall scope n ty, In scope (TypeChecker.type_env tc) ->
     scope !! n = Some ty -> opaque_call ty = true) /\
  (forall n ty,
     InferenceContext.getVariableType (TypeChecker.current_context tc) n
       = Some ty ->
     opaque_call ty = true).

(** [fib(n) = fib(n - 1) + fib(n - 2)], with a block as body. *)
Definition fib : FunctionAST :=
  mkFunctionAST "fib" ["n"]
    (Some (BlockStmtAST
       [Some (ReturnStmtAST (Some
          (BinaryExprAST "+"
             (Some (CallExprAST "fib"
                [Some (BinaryExprAST "-" (Some (VariableExprAST "n"))
                         (Some (NumberExprAST one)))]))
             (Some (CallExprAST "fib"
                [Some (BinaryExprAST "-" (Some (VariableExprAST "n"))
                         (Some (NumberExprAST (double_of_Z 2))))])))))])).

(** The part of [opaque_calls] about an inference context. *)
Definition opaque_context (ctx : InferenceContext.t) : Prop :=
  forall n ty, InferenceContext.getVariableType ctx n = Some ty ->
               opaque_call ty = true.

(* ================================================================== *)
(** * Part II.  Properties                                            *)
(* ================================================================== *)

(** ** Cloning *)

Lemma map_id_Forall {A} (f : A -> A) (l : list A) :
  Forall (fun x => f x = x) l -> map f l = l.
Proof.
  induction 1 as [|x l Hx _ IH]; simpl; [reflexivity|]. now rewrite Hx, IH.
Qed.

(** A clone is structurally the type it was made from. *)
Lemma clone_id (t : QType) : clone t = t.
Proof.
  induction t using QType_nested_ind; simpl; try reflexivity.
  - f_equal; [now apply map_id_Forall | assumption].
  - congruence.
  - f_equal. now apply map_id_Forall.
  - f_equal. now apply map_id_Forall.
  - f_equal. now apply map_id_Forall.
  - f_equal. apply map_id_Forall.
    eapply Forall_impl; [eassumption|]. intros [tag ty] Hty; simpl in *.
    now rewrite Hty.
  - f_equal. apply map_id_Forall.
    eapply Forall_impl; [eassumption|].
    intros [m [ps r]] [Hps Hr]; simpl in *.
    rewrite Hr. f_equal. f_equal. f_equal. now apply map_id_Forall.
Qed.

(** ** Equality of types *)

Lemma TypeKind_eqb_refl (k : TypeKind) : TypeKind_eqb k k = true.
Proof. now destruct k. Qed.

Lemma Type_equals_refl (t : QType) : Type_equals t (Some t) = true.
Proof.
  unfold Type_equals. now rewrite TypeKind_eqb_refl, String.eqb_refl.
Qed.

(** The pairwise loop of [FunctionType::equals] and [TupleType::equals]
    succeeds on a list compared with itself once its members do. *)
Lemma pairwise_loop_refl (l : list QType) :
  Forall (fun p => equals p (Some p) = true) l ->
  (fix loop (l l' : list QType) : bool :=
     match l, l' with
     | p :: l, p' :: l' =>
         if negb (equals p (Some p')) then false else loop l l'
     | _, _ => true
     end) l l = true.
Proof.
  induction 1 as [|p l Hp _ IH]; [reflexivity|]. now rewrite Hp.
Qed.

Lemma FunctionType_equals_refl (ps : list QType) (r : QType) :
  Forall (fun p => equals p (Some p) = true) ps ->
  equals r (Some r) = true ->
  FunctionType_equals equals ps r ps r = true.
Proof.
  intros Hps Hr. unfold FunctionType_equals.
  rewrite Nat.eqb_refl; simpl.
  now rewrite (pairwise_loop_refl ps Hps), Hr.
Qed.

Lemma getVariantType_distinct (vs : list (string * QType)) (tag : string)
  (ty : QType) :
  distinct (map fst vs) = true -> In (tag, ty) vs ->
  getVariantType vs tag = Some ty.
Proof.
  induction vs as [|[t0 ty0] vs IH]; simpl; [easy|].
  intros Hd [Heq | Hin].
  - inversion Heq; subst. now rewrite String.eqb_refl.
  - apply andb_prop in Hd as [Hfresh Hd].
    destruct (String.eqb t0 tag) eqn:E.
    + apply String.eqb_eq in E; subst.
      apply negb_true_iff in Hfresh.
      assert (existsb (String.eqb tag) (map fst vs) = true) as Hex.
      { apply existsb_exists. exists tag. split; [|apply String.eqb_refl].
        apply in_map_iff. now exists (tag, ty). }
      congruence.
    + now apply IH.
Qed.

Lemma getMethod_distinct (ms : list (string * (list QType * QType)))
  (n : string) (sig : list QType * QType) :
  distinct (map fst ms) = true -> In (n, sig) ms -> getMethod ms n = Some sig.
Proof.
  induction ms as [|[m0 sig0] ms IH]; simpl; [easy|].
  intros Hd [Heq | Hin].
  - inversion Heq; subst. now rewrite String.eqb_refl.
  - apply andb_prop in Hd as [Hfresh Hd].
    destruct (String.eqb m0 n) eqn:E.
    + apply String.eqb_eq in E; subst.
      apply negb_true_iff in Hfresh.
      assert (existsb (String.eqb n) (map fst ms) = true) as Hex.
      { apply existsb_exists. exists n. split; [|apply String.eqb_refl].
        apply in_map_iff. now exists (n, sig). }
      congruence.
    + now apply IH.
Qed.

Lemma Forall_forallb_imp {A} (P : A -> Prop) (f g : A -> bool) (l : list A) :
  Forall (fun x => f x = true -> P x) l -> forallb f l = true -> Forall P l.
Proof.
  induction 1 as [|x l Hx _ IH]; simpl; intros Hf; [constructor|].
  apply andb_prop in Hf as [Hfx Hf]. constructor; auto.
Qed.

Lemma equals_refl_well_tagged (t : QType) :
  well_tagged t = true -> equals t (Some t) = true.
Proof.
  induction t as [ | | | | | ps r IHps IHr | e IHe | es IHes | ts IHts
                 | n cs _ | vs IHvs | n ms IHms | | msg ]
    using QType_nested_ind; intros Hwt; simpl in *;
    try reflexivity; try apply String.eqb_refl.
  - apply andb_prop in Hwt as [Hps Hr].
    apply FunctionType_equals_refl; [|now apply IHr].
    now apply (Forall_forallb_imp _ well_tagged well_tagged).
  - now apply IHe.
  - rewrite Nat.eqb_refl; simpl. apply pairwise_loop_refl.
    now apply (Forall_forallb_imp _ well_tagged well_tagged).
  - rewrite Nat.eqb_refl; simpl.
    assert (Forall (fun p => equals p (Some p) = true) ts) as Hall
      by now apply (Forall_forallb_imp _ well_tagged well_tagged).
    apply forallb_forall. intros ty Hin. apply existsb_exists.
    exists ty. split; [assumption|].
    rewrite Forall_forall in Hall. apply Hall.
    now apply list_elem_of_In.
  - rewrite Nat.eqb_refl; simpl.
    apply andb_prop in Hwt as [Hd Hwt].
    apply forallb_forall. intros [tag ty] Hin; simpl.
    rewrite (getVariantType_distinct vs tag ty Hd Hin).
    rewrite Forall_forall in IHvs.
    apply (IHvs (tag, ty)); [now apply list_elem_of_In|].
    rewrite forallb_forall in Hwt. now apply (Hwt (tag, ty)).
  - rewrite String.eqb_refl, Nat.eqb_refl; simpl.
    apply andb_prop in Hwt as [Hd Hwt].
    apply forallb_forall. intros [m [ps r]] Hin; simpl.
    rewrite (getMethod_distinct ms m (ps, r) Hd Hin).
    rewrite Forall_forall in IHms.
    destruct (IHms (m, (ps, r))) as [Hps Hr]; [now apply list_elem_of_In|].
    rewrite forallb_forall in Hwt. specialize (Hwt _ Hin); simpl in Hwt.
    apply andb_prop in Hwt as [Hwps Hwr]. simpl in *.
    apply FunctionType_equals_refl; [|now apply Hr].
    now apply (Forall_forallb_imp _ well_tagged well_tagged).
Qed.

(** C2, as stated, fails: an unknown type equals an unknown type, an error
    type equals an error type whatever the two messages are, and a
    discriminated union that repeats a tag with two payloads does not equal
    itself. *)
Lemma equals_unknown_error_counterexample :
  equals UnknownType (Some UnknownType) = true /\
  equals (ErrorType "first") (Some (ErrorType "second")) = true /\
  equals (DiscriminatedUnionType [("a", IntType); ("a", FloatType)])
         (Some (DiscriminatedUnionType [("a", IntType); ("a", FloatType)]))
    = false.
Proof. repeat split; reflexivity. Qed.

(** C2, amended: every type in which no discriminated union repeats a tag
    and no interface repeats a method name equals itself; this includes the
    unknown and the error types, each of which equals every type of its own
    kind. *)
Theorem equals_reflexive (T : QType) (Hwt : well_tagged T = true) :
  equals T (Some T) = true /\
  (forall U, isUnknown T = true -> isUnknown U = true -> equals T (Some U) = true) /\
  (forall U, isError T = true -> isError U = true -> equals T (Some U) = true).
Proof.
  split; [now apply equals_refl_well_tagged|].
  split; intros U HT HU; destruct T; try discriminate HT;
    destruct U; try discriminate HU; reflexivity.
Qed.

Lemma equals_reflexive_witness :
  well_tagged (FunctionType [UnknownType; ListType IntType]
                 (DiscriminatedUnionType [("ok", IntType); ("err", ErrorType "e")]))
    = true /\
  equals (FunctionType [UnknownType; ListType IntType]
            (DiscriminatedUnionType [("ok", IntType); ("err", ErrorType "e")]))
         (Some (FunctionType [UnknownType; ListType IntType]
            (DiscriminatedUnionType [("ok", IntType); ("err", ErrorType "e")])))
    = true.
Proof.
  split; [reflexivity|].
  exact (proj1 (equals_reflexive
    (FunctionType [UnknownType; ListType IntType]
       (DiscriminatedUnionType [("ok", IntType); ("err", ErrorType "e")]))
    eq_refl)).
Defined.

(** ** Null operands *)

(** C10, as stated, fails: the unknown type accepts the null operand. *)
Lemma isAssignableFrom_null_counterexample :
  isAssignableFrom UnknownType None = true.
Proof. reflexivity. Qed.

(** C10, amended: on a null operand [equals] is false for every type,
    [isAssignableFrom] is false for every type but the unknown type, for
    which it is true, and [promoteNumericTypes] and [unifyTypes] return an
    error type when either argument is null. *)
Theorem null_operand_total (T : QType) (t : option QType) :
  equals T None = false /\
  isAssignableFrom T None = isUnknown T /\
  isError (TypeFactory.promoteNumericTypes None t) = true /\
  isError (TypeFactory.promoteNumericTypes t None) = true /\
  isError (TypeFactory.unifyTypes None t) = true /\
  isError (TypeFactory.unifyTypes t None) = true.
Proof.
  repeat split; try (destruct T; reflexivity); destruct t; reflexivity.
Qed.

(** ** Number literals *)

Lemma wrap_signed_32_range (z : Z) :
  (INT_MIN <= wrap_signed 32 z <= INT_MAX)%Z.
Proof.
  unfold wrap_signed, INT_MIN, INT_MAX.
  pose proof (Z.mod_pos_bound (z + 2 ^ (32 - 1)) (2 ^ 32) ltac:(lia)) as H.
  change (2 ^ (32 - 1))%Z with 2147483648%Z in *.
  change (2 ^ 32)%Z with 4294967296%Z in *.
  change (2 ^ 31)%Z with 2147483648%Z. lia.
Qed.

Lemma static_cast_int_range (oor : double -> Z) (d : double) :
  (INT_MIN <= TypeChecker.static_cast_int oor d <= INT_MAX)%Z.
Proof.
  unfold TypeChecker.static_cast_int.
  destruct (double_trunc d) as [z|]; [|apply wrap_signed_32_range].
  destruct ((INT_MIN <=? z)%Z && (z <=? INT_MAX)%Z) eqn:E;
    [|apply wrap_signed_32_range].
  apply andb_prop in E as [E1 E2]. lia.
Qed.

(** Within the range of [int] the literal is an [Int] exactly when it has
    no fractional part. *)
Lemma inferNumberType_in_int_range (oor : double -> Z) (value : double) (z : Z) :
  double_trunc value = Some z -> (INT_MIN <= z <= INT_MAX)%Z ->
  TypeChecker.inferNumberType oor value =
  result_of (if double_is_integral value then IntType else FloatType).
Proof.
  intros Ht Hr. unfold TypeChecker.inferNumberType, TypeChecker.static_cast_int.
  rewrite Ht.
  replace ((INT_MIN <=? z)%Z && (z <=? INT_MAX)%Z) with true
    by (symmetry; apply andb_true_intro; split; lia).
  destruct value as [s| s | | s m e]; simpl in *; try discriminate.
  - inversion Ht; subst. reflexivity.
  - inversion Ht; subst; clear Ht.
    destruct (0 <=? e)%Z.
    + now rewrite Z.eqb_refl.
    + rewrite Z.eqb_refl, andb_true_r.
      now destruct (Z.pos m mod 2 ^ (- e) =? 0)%Z.
Qed.

(** C9 at the literal 2147483648: the value has no fractional part, its
    conversion to [int] is out of range, and whatever integer that
    conversion yields the literal is typed [Float]. *)
Theorem inferNumberType_beyond_int (oor : double -> Z) :
  double_is_integral (double_of_Z (2 ^ 31)) = true /\
  double_trunc (double_of_Z (2 ^ 31)) = Some (2 ^ 31)%Z /\
  TypeChecker.inferNumberType oor (double_of_Z (2 ^ 31)) = result_of FloatType.
Proof.
  split; [reflexivity|]. split; [reflexivity|].
  unfold TypeChecker.inferNumberType.
  pose proof (static_cast_int_range oor (double_of_Z (2 ^ 31))) as Hr.
  set (i := TypeChecker.static_cast_int oor (double_of_Z (2 ^ 31))) in *.
  assert (double_eq_Z (double_of_Z (2 ^ 31)) i = (2147483648 =? i)%Z) as ->
    by reflexivity.
  destruct (2147483648 =? i)%Z eqn:E; [|reflexivity].
  apply Z.eqb_eq in E. unfold INT_MAX in Hr.
  change (2 ^ 31)%Z with 2147483648%Z in Hr. lia.
Qed.

(** ** Function lookup and calls *)

Lemma assignable_loop_false (ps : list QType) (args : list (option QType))
  (i : nat) (p : QType) (a : option QType) :
  ps !! i = Some p -> args !! i = Some a -> isAssignableFrom p a = false ->
  (fix loop (ps : list QType) (args : list (option QType)) : bool :=
     match ps, args with
     | p :: ps, a :: args =>
         if negb (isAssignableFrom p a) then false else loop ps args
     | _, _ => true
     end) ps args = false.
Proof.
  revert args i. induction ps as [|p0 ps IH]; intros [|a0 args] [|i] Hp Ha Hna;
    try discriminate.
  - simpl in Hp, Ha. inversion Hp; inversion Ha; subst. now rewrite Hna.
  - simpl in Hp, Ha. destruct (negb (isAssignableFrom p0 a0)); [reflexivity|].
    now apply (IH args i).
Qed.

(** [lookupFunction] answers null both for a name without binding and for
    a bound name without matching signature. *)
Lemma lookupFunction_null (scopes : TypeEnvironment.t) (n : string)
  (arg_types : list (option QType)) :
  TypeEnvironment.lookup scopes n = None \/
  no_matching_signature scopes n arg_types ->
  TypeEnvironment.lookupFunction scopes n arg_types = None.
Proof.
  unfold TypeEnvironment.lookupFunction.
  intros [Hnone | (ps & r & Hsome & Hcause)].
  - now rewrite Hnone.
  - rewrite Hsome. destruct Hcause as [Hlen | (i & p & a & Hp & Ha & Hna)].
    + apply Nat.eqb_neq in Hlen. now rewrite Hlen.
    + destruct (negb (length ps =? length arg_types)%nat); [reflexivity|].
      now rewrite (assignable_loop_false ps arg_types i p a Hp Ha Hna).
Qed.

(** C3, as stated, fails: [f] is bound to a function of one parameter, the
    call [f()] matches no signature, and the report is the one of an
    undefined function. *)
Lemma call_arity_mismatch_counterexample :
  TypeEnvironment.lookup (TypeChecker.type_env checker_with_f) "f"
    = Some (FunctionType [FloatType] FloatType) /\
  TypeChecker.inferExpressionType TypeChecker.cvttsd2si_indefinite
    checker_with_f (Some (CallExprAST "f" []))
    = error_result "Undefined function: f".
Proof. split; reflexivity. Qed.

(** C3, amended: when the arguments of a call are inferred without error
    and the callee is unbound, or bound to a function type whose arity
    differs or one of whose parameters does not accept its argument, the
    call is reported as "Undefined function: <callee>" in every case. *)
Theorem call_failure_reports_undefined_function
  (oor : double -> Z) (tc : TypeChecker.t) (callee : string)
  (args : list (option ExprAST)) (arg_types : list (option QType))
  (Hargs : TypeChecker.inferArguments (TypeChecker.inferExpressionType oor tc)
             args [] = inr arg_types)
  (Hfail : TypeEnvironment.lookup (TypeChecker.type_env tc) callee = None \/
           no_matching_signature (TypeChecker.type_env tc) callee arg_types) :
  TypeChecker.inferExpressionType oor tc (Some (CallExprAST callee args))
  = error_result ("Undefined function: " ++ callee).
Proof.
  cbn [TypeChecker.inferExpressionType TypeChecker.inferExpr].
  unfold TypeChecker.inferCallType.
  change (fun e : option ExprAST =>
            match e with
            | Some e0 => TypeChecker.inferExpr oor tc e0
            | None => TypeChecker.null_expression
            end) with (TypeChecker.inferExpressionType oor tc).
  rewrite Hargs. unfold TypeChecker.lookupFunction.
  now rewrite (lookupFunction_null _ _ _ Hfail).
Qed.

Lemma call_failure_reports_undefined_function_witness :
  TypeChecker.inferExpressionType TypeChecker.cvttsd2si_indefinite checker_with_f
    (Some (CallExprAST "f" [Some (StringExprAST "text")]))
  = error_result "Undefined function: f".
Proof.
  apply (call_failure_reports_undefined_function
           TypeChecker.cvttsd2si_indefinite checker_with_f "f"
           [Some (StringExprAST "text")] [Some StringType]).
  - reflexivity.
  - right. exists [FloatType], FloatType. split; [reflexivity|].
    right. exists 0%nat, FloatType, (Some StringType).
    repeat split; reflexivity.
Defined.

(** ** Branches of an [if] *)

Lemma inferNumberType_one (oor : double -> Z) :
  TypeChecker.inferNumberType oor one = result_of IntType.
Proof. reflexivity. Qed.

Lemma inferNumberType_two_and_a_half (oor : double -> Z) :
  TypeChecker.inferNumberType oor two_and_a_half = result_of FloatType.
Proof. reflexivity. Qed.

(** An assignment to a name that neither the context nor the environment
    knows declares it in both and marks it modified. *)
Lemma checkAssignment_new (oor : double -> Z) (tc : TypeChecker.t) (x : string)
  (value : option ExprAST) (ty : QType) :
  TypeChecker.inferExpressionType oor tc value = result_of ty ->
  TypeChecker.lookupVariable tc x = None ->
  TypeChecker.checkAssignment oor tc x value =
  (result_of VoidType,
   TypeChecker.mk
     (TypeEnvironment.define (TypeChecker.type_env tc) x ty)
     (InferenceContext.markVariableModified
        (InferenceContext.setVariableType (TypeChecker.current_context tc) x ty) x)
     (TypeChecker.error_messages tc) (TypeChecker.warning_messages tc)).
Proof.
  intros Hinfer Hx. unfold TypeChecker.checkAssignment.
  rewrite Hinfer, Hx. cbn [hasErrors errors result_of type].
  rewrite !clone_id. reflexivity.
Qed.

(** An assignment of a value that the recorded type of the name does not
    accept is an error and leaves the checker as it was. *)
Lemma checkAssignment_rejected (oor : double -> Z) (tc : TypeChecker.t)
  (x : string) (value : option ExprAST) (existing ty : QType) :
  TypeChecker.inferExpressionType oor tc value = result_of ty ->
  TypeChecker.lookupVariable tc x = Some existing ->
  isAssignableFrom existing (Some ty) = false ->
  TypeChecker.checkAssignment oor tc x value =
  (error_result
     (TypeErrorReporter.formatTypeError ("assignment to variable '" ++ x ++ "'")
        (Some existing) (Some ty)),
   tc).
Proof.
  intros Hinfer Hx Hna. unfold TypeChecker.checkAssignment.
  rewrite Hinfer, Hx. cbn [hasErrors errors result_of type].
  unfold TypeChecker.isAssignable. rewrite Hna. reflexivity.
Qed.

Lemma lookupVariable_pushScope (tc : TypeChecker.t) (x : string) :
  TypeChecker.lookupVariable (TypeChecker.pushScope tc) x =
  TypeChecker.lookupVariable tc x.
Proof.
  unfold TypeChecker.lookupVariable, TypeChecker.pushScope,
    TypeChecker.with_env, TypeEnvironment.pushScope.
  cbn [TypeChecker.current_context TypeChecker.type_env TypeEnvironment.lookup].
  now rewrite lookup_empty.
Qed.

Lemma lookupVariable_context (tc : TypeChecker.t) (x : string) (ty : QType) :
  InferenceContext.getVariableType (TypeChecker.current_context tc) x = Some ty ->
  TypeChecker.lookupVariable tc x = Some ty.
Proof. intros H. unfold TypeChecker.lookupVariable. now rewrite H. Qed.

(** A block made of one assignment to an undeclared name. *)
Lemma checkBlock_assignment_new (oor : double -> Z) (tc : TypeChecker.t)
  (x : string) (value : double) (ty : QType) :
  TypeChecker.inferNumberType oor value = result_of ty ->
  TypeChecker.lookupVariable tc x = None ->
  TypeChecker.checkStmt oor tc
    (BlockStmtAST [Some (AssignmentStmtAST x (Some (NumberExprAST value)))]) =
  (result_of VoidType,
   TypeChecker.popScope
     (TypeChecker.mk
        (TypeEnvironment.define
           (TypeChecker.type_env (TypeChecker.pushScope tc)) x ty)
        (InferenceContext.markVariableModified
           (InferenceContext.setVariableType
              (TypeChecker.current_context tc) x ty) x)
        (TypeChecker.error_messages tc) (TypeChecker.warning_messages tc))).
Proof.
  intros Hinfer Hx.
  cbn [TypeChecker.checkStmt]. unfold TypeChecker.checkBlock.
  cbn [TypeChecker.checkStatements TypeChecker.checkStmt].
  rewrite (checkAssignment_new oor (TypeChecker.pushScope tc) x
             (Some (NumberExprAST value)) ty);
    [reflexivity | exact Hinfer | now rewrite lookupVariable_pushScope].
Qed.

(** A block made of one assignment that the recorded type rejects. *)
Lemma checkBlock_assignment_rejected (oor : double -> Z) (tc : TypeChecker.t)
  (x : string) (value : double) (existing ty : QType) :
  TypeChecker.inferNumberType oor value = result_of ty ->
  TypeChecker.lookupVariable tc x = Some existing ->
  isAssignableFrom existing (Some ty) = false ->
  TypeChecker.checkStmt oor tc
    (BlockStmtAST [Some (AssignmentStmtAST x (Some (NumberExprAST value)))]) =
  (mkResult (Some VoidType)
     [TypeErrorReporter.formatTypeError ("assignment to variable '" ++ x ++ "'")
        (Some existing) (Some ty)] [],
   TypeChecker.popScope (TypeChecker.pushScope tc)).
Proof.
  intros Hinfer Hx Hna.
  cbn [TypeChecker.checkStmt]. unfold TypeChecker.checkBlock.
  cbn [TypeChecker.checkStatements TypeChecker.checkStmt].
  rewrite (checkAssignment_rejected oor (TypeChecker.pushScope tc) x
             (Some (NumberExprAST value)) existing ty);
    [reflexivity | exact Hinfer | now rewrite lookupVariable_pushScope
    | exact Hna].
Qed.

(** The result of checking [if c: x = 1 else: x = 2.5] and the checker it
    leaves, [x] being undeclared and [c] accepted as a condition. *)
Lemma checkIf_int_float (oor : double -> Z) (tc : TypeChecker.t)
  (c : option ExprAST) (x : string) (cond_type : QType) :
  errors (TypeChecker.inferExpressionType oor tc c) = [] ->
  type (TypeChecker.inferExpressionType oor tc c) = Some cond_type ->
  isBool cond_type || isNumeric cond_type = true ->
  TypeChecker.lookupVariable tc x = None ->
  let after_then :=
    TypeChecker.popScope
      (TypeChecker.mk
         (TypeEnvironment.define
            (TypeChecker.type_env (TypeChecker.pushScope tc)) x IntType)
         (InferenceContext.markVariableModified
            (InferenceContext.setVariableType
               (TypeChecker.current_context tc) x IntType) x)
         (TypeChecker.error_messages tc) (TypeChecker.warning_messages tc)) in
  TypeChecker.checkStatement oor tc (Some (if_else_program c x)) =
  (mkResult (Some VoidType)
     [TypeErrorReporter.formatTypeError ("assignment to variable '" ++ x ++ "'")
        (Some IntType) (Some FloatType)] [],
   TypeChecker.with_context
     (TypeChecker.popScope (TypeChecker.pushScope after_then))
     (InferenceContext.merge
        (InferenceContext.clone (TypeChecker.current_context tc))
        (InferenceContext.clone (TypeChecker.current_context after_then)))).
Proof.
  intros Hc_ok Hc_type Hc_cond Hx after_then.
  assert (TypeChecker.lookupVariable after_then x = Some IntType) as Hx1.
  { apply lookupVariable_context.
    unfold InferenceContext.getVariableType; cbn. apply lookup_insert_eq. }
  unfold if_else_program.
  cbn [TypeChecker.checkStatement TypeChecker.checkStmt].
  unfold TypeChecker.checkIf.
  unfold hasErrors at 1. rewrite Hc_ok, Hc_type.
  replace (negb (isBool cond_type) && negb (isNumeric cond_type)) with false
    by (destruct (isBool cond_type), (isNumeric cond_type);
        simpl in *; congruence).
  rewrite (checkBlock_assignment_new oor tc x one IntType
             (inferNumberType_one oor) Hx).
  fold after_then.
  rewrite (checkBlock_assignment_rejected oor after_then x two_and_a_half
             IntType FloatType (inferNumberType_two_and_a_half oor) Hx1 eq_refl).
  reflexivity.
Qed.

(** C1: in a checker where [x] is undeclared and the condition [c] is
    accepted, checking [if c: x = 1 else: x = 2.5] lets the else branch see
    the binding made by the then branch: it reports a type error for the
    second assignment, and the merged context records [x] with type [Int]. *)
Theorem checkIf_branches_share_context
  (oor : double -> Z) (tc : TypeChecker.t) (c : option ExprAST) (x : string)
  (cond_type : QType)
  (Hc_ok : errors (TypeChecker.inferExpressionType oor tc c) = [])
  (Hc_type : type (TypeChecker.inferExpressionType oor tc c) = Some cond_type)
  (Hc_cond : isBool cond_type || isNumeric cond_type = true)
  (Hx : TypeChecker.lookupVariable tc x = None) :
  errors (fst (TypeChecker.checkStatement oor tc (Some (if_else_program c x))))
    = [TypeErrorReporter.formatTypeError
         ("assignment to variable '" ++ x ++ "'")
         (Some IntType) (Some FloatType)] /\
  InferenceContext.getVariableType
    (TypeChecker.current_context
       (snd (TypeChecker.checkStatement oor tc (Some (if_else_program c x))))) x
    = Some IntType.
Proof.
  rewrite (checkIf_int_float oor tc c x cond_type Hc_ok Hc_type Hc_cond Hx).
  split; [reflexivity|].
  cbn [snd fst TypeChecker.current_context TypeChecker.with_context
       TypeChecker.popScope TypeChecker.with_env].
  unfold InferenceContext.getVariableType, InferenceContext.merge,
    InferenceContext.clone, InferenceContext.markVariableModified,
    InferenceContext.setVariableType.
  cbn [InferenceContext.variable_types].
  rewrite lookup_merge, !lookup_fmap, lookup_insert_eq.
  unfold TypeChecker.lookupVariable, InferenceContext.getVariableType in Hx.
  destruct (InferenceContext.variable_types (TypeChecker.current_context tc) !! x);
    [discriminate|].
  reflexivity.
Qed.

Lemma checkIf_branches_share_context_witness :
  errors (fst (TypeChecker.checkStatement TypeChecker.cvttsd2si_indefinite
                 checker_with_c
                 (Some (if_else_program (Some (VariableExprAST "c")) "x"))))
    = ["Type error in assignment to variable 'x': expected int, got float"] /\
  InferenceContext.getVariableType
    (TypeChecker.current_context
       (snd (TypeChecker.checkStatement TypeChecker.cvttsd2si_indefinite
               checker_with_c
               (Some (if_else_program (Some (VariableExprAST "c")) "x"))))) "x"
    = Some IntType.
Proof.
  apply (checkIf_branches_share_context TypeChecker.cvttsd2si_indefinite
           checker_with_c (Some (VariableExprAST "c")) "x" FloatType);
    reflexivity.
Defined.

(** ** The constraint solver *)

Lemma bind_fresh_invariant (names : gset string) (b0 b : gmap string QType)
  (changed : bool) (param : string) (ty : QType) :
  iteration_invariant names b0 (b, changed) ->
  b !! param = None -> param ∈ names ->
  iteration_invariant names b0 (<[param := ty]> b, true).
Proof.
  intros (Hsub & Hdom & Hsize & _) Hfresh Hin. unfold iteration_invariant; simpl in *.
  repeat split.
  - transitivity b; [exact Hsub|]. by apply insert_subseteq.
  - rewrite dom_insert_L. set_solver.
  - rewrite map_size_insert_None by assumption. lia.
  - rewrite map_size_insert_None by assumption. lia.
Qed.

(** One constraint keeps the invariant of the iteration. *)
Lemma solve_constraint_invariant (names : gset string) (b0 : gmap string QType)
  (c : TypeConstraints.Constraint) (st st' : gmap string QType * bool) :
  TypeConstraints.side_generic (TypeConstraints.left c) ∪
  TypeConstraints.side_generic (TypeConstraints.right c) ⊆ names ->
  iteration_invariant names b0 st ->
  TypeConstraints.solve_constraint c st = Some st' ->
  iteration_invariant names b0 st'.
Proof.
  intros Hnames Hinv Hstep. destruct st as [b changed].
  unfold TypeConstraints.solve_constraint in Hstep.
  unfold GenericInstantiator.getBinding, GenericInstantiator.bindTypeVariable,
    GenericInstantiator.t in Hstep.
  destruct c as [k l r]; simpl in *.
  destruct k; try (inversion Hstep; subst; exact Hinv).
  - destruct l as [l|]; [|discriminate]. destruct r as [r|]; [|discriminate].
    destruct l; destruct r; simpl in *;
      try (inversion Hstep; subst; exact Hinv);
      match type of Hstep with
      | context [b !! ?p] =>
          destruct (b !! p) eqn:E; inversion Hstep; subst;
            [exact Hinv | apply (bind_fresh_invariant _ _ _ changed);
                            [exact Hinv | exact E | set_solver]]
      end.
  - destruct l as [l|]; [|discriminate].
    destruct l; simpl in *; try (inversion Hstep; subst; exact Hinv).
    destruct (b !! parameter_name) eqn:E; inversion Hstep; subst;
      [exact Hinv | apply (bind_fresh_invariant _ _ _ changed);
                      [exact Hinv | exact E | set_solver]].
  - destruct l as [l|]; [|discriminate].
    destruct l; simpl in *; try (inversion Hstep; subst; exact Hinv).
    destruct (b !! parameter_name) eqn:E; inversion Hstep; subst;
      [exact Hinv | apply (bind_fresh_invariant _ _ _ changed);
                      [exact Hinv | exact E | set_solver]].
Qed.

Lemma solve_constraints_invariant (names : gset string) (b0 : gmap string QType)
  (cs : list TypeConstraints.Constraint) (st st' : gmap string QType * bool) :
  TypeConstraints.generic_names cs ⊆ names ->
  iteration_invariant names b0 st ->
  TypeConstraints.solve_constraints cs st = Some st' ->
  iteration_invariant names b0 st'.
Proof.
  revert st. induction cs as [|c cs IH]; intros st Hnames Hinv Hrun; simpl in *.
  - now inversion Hrun; subst.
  - destruct (TypeConstraints.solve_constraint c st) as [st1|] eqn:E;
      [|discriminate].
    apply (IH st1); [set_solver | | exact Hrun].
    apply (solve_constraint_invariant names b0 c st st1);
      [set_solver | exact Hinv | exact E].
Qed.

(** One iteration of the loop: the bindings only grow, every new name is a
    generic parameter of the constraints, and the iteration either binds a
    new name or leaves the bindings as they are and clears [changed]. *)
Lemma solve_pass_spec (cs : list TypeConstraints.Constraint)
  (b0 b1 : gmap string QType) (changed : bool) :
  TypeConstraints.solve_pass cs b0 = Some (b1, changed) ->
  b0 ⊆ b1 /\
  dom b1 ⊆ dom b0 ∪ TypeConstraints.generic_names cs /\
  (if changed then size b0 < size b1 else b1 = b0).
Proof.
  intros Hpass.
  destruct (solve_constraints_invariant (TypeConstraints.generic_names cs) b0 cs
              (b0, false) (b1, changed)) as (Hsub & Hdom & _ & Hch).
  - reflexivity.
  - unfold iteration_invariant; simpl.
    split; [reflexivity|]. split; [set_solver|]. split; [lia|reflexivity].
  - exact Hpass.
  - simpl in *. now repeat split.
Qed.

(** An iteration that binds a name leaves fewer unbound generic names. *)
Lemma unbound_names_decrease (names : gset string) (b0 b1 : gmap string QType) :
  b0 ⊆ b1 -> dom b1 ⊆ dom b0 ∪ names -> size b0 < size b1 ->
  size (names ∖ dom b1) < size (names ∖ dom b0).
Proof.
  intros Hsub Hdom Hsize.
  apply subseteq_dom in Hsub.
  set (new := dom b1 ∖ dom b0).
  assert (size (dom b1) = size (dom b0) + size new) as Hnew.
  { rewrite (union_difference_L (dom b0) (dom b1) Hsub) at 1.
    apply size_union. set_solver. }
  rewrite !size_dom in Hnew.
  assert (new ⊆ names ∖ dom b0) as Hin by set_solver.
  assert (names ∖ dom b1 ⊆ (names ∖ dom b0) ∖ new) as Hrest by set_solver.
  apply subseteq_size in Hrest.
  assert (size (names ∖ dom b0) = size new + size ((names ∖ dom b0) ∖ new))
    as Hsplit.
  { rewrite (union_difference_L new (names ∖ dom b0) Hin) at 1.
    apply size_union. set_solver. }
  lia.
Qed.

Lemma solve_enough_fuel (cs : list TypeConstraints.Constraint) (fuel : nat) :
  forall b : gmap string QType,
    size (TypeConstraints.generic_names cs ∖ dom b) < fuel ->
    TypeConstraints.solve fuel cs b <> TypeConstraints.OutOfFuel /\
    (forall result b', TypeConstraints.solve fuel cs b
                       = TypeConstraints.Solved result b' ->
       result = true /\ b ⊆ b' /\
       dom b' ⊆ dom b ∪ TypeConstraints.generic_names cs /\
       TypeConstraints.solve_pass cs b' = Some (b', false)).
Proof.
  induction fuel as [|fuel IH]; intros b Hfuel; [lia|].
  cbn [TypeConstraints.solve].
  destruct (TypeConstraints.solve_pass cs b) as [[b1 changed]|] eqn:Hpass;
    [|split; [discriminate | intros ? ? [=]]].
  destruct (solve_pass_spec cs b b1 changed Hpass) as (Hsub & Hdom & Hch).
  destruct changed.
  - pose proof (unbound_names_decrease _ b b1 Hsub Hdom Hch) as Hdec.
    destruct (IH b1 ltac:(lia)) as [Hnot Hres].
    split; [exact Hnot|].
    intros result b' Hsolved.
    destruct (Hres result b' Hsolved) as (Hr & Hsub' & Hdom' & Hfix).
    split; [exact Hr|]. split; [by transitivity b1|].
    split; [set_solver | exact Hfix].
  - subst b1. split; [discriminate|].
    intros result b' [= <- <-].
    split; [reflexivity|]. split; [reflexivity|]. split; [set_solver|exact Hpass].
Qed.

Lemma solve_constraints_present (cs : list TypeConstraints.Constraint)
  (st : gmap string QType * bool) :
  forallb sides_present cs = true ->
  TypeConstraints.solve_constraints cs st <> None.
Proof.
  revert st. induction cs as [|c cs IH]; intros st Hall; simpl in *;
    [discriminate|].
  apply andb_prop in Hall as [Hc Hall].
  assert (TypeConstraints.solve_constraint c st <> None) as Hstep.
  { destruct st as [b changed]. destruct c as [k l r].
    unfold sides_present in Hc. unfold TypeConstraints.solve_constraint.
    simpl in *.
    destruct k, l as [l|], r as [r|]; simpl in *; try discriminate;
      try destruct l; try destruct r; simpl; try discriminate;
      repeat match goal with
             | |- context [GenericInstantiator.getBinding ?b ?p] =>
                 destruct (GenericInstantiator.getBinding b p)
             end; discriminate.
  }
  destruct (TypeConstraints.solve_constraint c st) as [st1|]; [|congruence].
  now apply IH.
Qed.

Lemma solve_no_null_dereference (cs : list TypeConstraints.Constraint)
  (fuel : nat) (b : gmap string QType) :
  forallb sides_present cs = true ->
  TypeConstraints.solve fuel cs b <> TypeConstraints.NullDereference.
Proof.
  intros Hall. revert b. induction fuel as [|fuel IH]; intros b; simpl;
    [discriminate|].
  destruct (TypeConstraints.solve_pass cs b) as [[b1 changed]|] eqn:Hpass.
  - destruct changed; [apply IH | discriminate].
  - exfalso. now apply (solve_constraints_present cs (b, false) Hall).
Qed.

(** C8: the solver terminates.  Every iteration of its loop either binds
    at least one more name or changes nothing and ends the loop; the
    bindings only grow, by generic parameter names of the constraints; so
    one more iteration than there are such names is enough, whatever the
    bindings the instantiator starts with, and the bindings made by the
    solver are at most as many as those names.  When no side that the
    solver reads is null the run ends with a result. *)
Theorem solve_terminates (cs : list TypeConstraints.Constraint)
  (b : gmap string QType) :
  let names := TypeConstraints.generic_names cs in
  (forall b0 b1 changed,
      TypeConstraints.solve_pass cs b0 = Some (b1, changed) ->
      b0 ⊆ b1 /\ dom b1 ⊆ dom b0 ∪ names /\
      (if changed then size b0 < size b1 else b1 = b0)) /\
  (forall fuel, size names < fuel ->
      TypeConstraints.solve fuel cs b <> TypeConstraints.OutOfFuel /\
      (forall result b',
          TypeConstraints.solve fuel cs b = TypeConstraints.Solved result b' ->
          result = true /\ b ⊆ b' /\ dom b' ∖ dom b ⊆ names /\
          size (dom b' ∖ dom b) <= size names /\
          size b' <= size b + size names) /\
      (forallb sides_present cs = true ->
       exists b', TypeConstraints.solve fuel cs b = TypeConstraints.Solved true b')).
Proof.
  intros names. split; [apply solve_pass_spec|].
  intros fuel Hfuel.
  assert (size (names ∖ dom b) < fuel) as Hmeasure.
  { pose proof (subseteq_size (names ∖ dom b) names ltac:(set_solver)). lia. }
  destruct (solve_enough_fuel cs fuel b Hmeasure) as [Hnot Hres].
  split; [exact Hnot|]. split.
  - intros result b' Hsolved.
    destruct (Hres result b' Hsolved) as (Hr & Hsub & Hdom & _).
    split; [exact Hr|]. split; [exact Hsub|]. split; [set_solver|].
    split; [apply subseteq_size; set_solver|].
    unfold GenericInstantiator.t in *.
    pose proof (subseteq_size _ _ Hdom) as Hle.
    rewrite size_union_alt, !size_dom in Hle.
    pose proof (subseteq_size (names ∖ dom b) names ltac:(set_solver)).
    fold names in Hle. lia.
  - intros Hpresent.
    pose proof (solve_no_null_dereference cs fuel b Hpresent) as Hnull.
    destruct (TypeConstraints.solve fuel cs b) as [result b'| |] eqn:E;
      [| congruence | congruence].
    exists b'. now destruct (Hres result b' eq_refl) as [-> _].
Qed.

Lemma solve_terminates_witness :
  exists b', TypeConstraints.solve 3 example_constraints ∅
             = TypeConstraints.Solved true b'.
Proof.
  apply (proj2 (solve_terminates example_constraints ∅) 3%nat).
  - vm_compute. lia.
  - reflexivity.
Defined.

(** On the example the solver binds [T] to [float] and [U] to [int] in its
    first iteration and stops after the second. *)
Example solve_example :
  TypeConstraints.solve 2 example_constraints ∅
  = TypeConstraints.Solved true (<["U" := IntType]> (<["T" := FloatType]> ∅)).
Proof. vm_compute. reflexivity. Qed.

(** ** Type-directed rewrites *)




(** An arithmetic shift to the right is the division rounded toward
    minus infinity. *)
Lemma ashr_is_floor_division (a k : Z) :
  (0 <= k < 32)%Z ->
  IR.eval_binop IR.AShr (IR.RInt 64 a) (IR.RInt 32 k)
  = Some (IR.RInt 64 (a / 2 ^ k)).
Proof.
  intros Hk. cbn [IR.eval_binop]. unfold IR.unsigned_of, wrap_unsigned.
  rewrite Z.mod_small by (change (2 ^ 32)%Z with 4294967296%Z; lia).
  replace (k <? 64)%Z with true by (symmetry; apply Z.ltb_lt; lia).
  now rewrite Z.shiftr_div_pow2 by lia.
Qed.

(** C6 at [5.0 / 4.0]: the division is rewritten to [sitofp (ashr 5, 2)];
    the division evaluates to 1.25 and its replacement to 1.0. *)
Theorem division_to_shift_changes_value :
  QuillTypeDirectedOptimizationPass.optimizeNumericOperations
    (constant_operation IR.FDiv 5 4)
    QuillTypeDirectedOptimizationPass.resetStats
  = (shifted_operation "div_shift_opt" IR.AShr 5 2,
     QuillTypeDirectedOptimizationPass.mkStats 0 0 1 0 1 0, true) /\
  IR.run (constant_operation IR.FDiv 5 4) []
  = Some (IR.RDouble (binary_normalize dprec demax 5 (-2) false)) /\
  IR.run (shifted_operation "div_shift_opt" IR.AShr 5 2) []
  = Some (IR.RDouble (double_of_Z 1)).
Proof. repeat split; vm_compute; reflexivity. Qed.

(** [3.0 * 8.0] becomes [sitofp (shl 3, 3)], and both evaluate to 24.0. *)
Lemma multiplication_to_shift_example :
  QuillTypeDirectedOptimizationPass.optimizeNumericOperations
    (constant_operation IR.FMul 3 8)
    QuillTypeDirectedOptimizationPass.resetStats
  = (shifted_operation "shift_opt" IR.Shl 3 3,
     QuillTypeDirectedOptimizationPass.mkStats 0 0 1 0 0 1, true) /\
  IR.run (constant_operation IR.FMul 3 8) []
  = Some (IR.RDouble (double_of_Z 24)) /\
  IR.run (shifted_operation "shift_opt" IR.Shl 3 3) []
  = Some (IR.RDouble (double_of_Z 24)).
Proof. repeat split; vm_compute; reflexivity. Qed.

(** A cast between identical types is a [bitcast], which returns its
    operand. *)
Lemma same_type_cast_is_identity (ty : IR.LType) (v : IR.RuntimeValue) :
  match ty, v with
  | IR.IntegerTy w, IR.RInt w' _ => w = w'
  | IR.DoubleTy, IR.RDouble _ => True
  | _, _ => False
  end ->
  IR.eval_cast IR.BitCast ty v = Some v.
Proof.
  destruct ty, v; simpl; try contradiction; [|reflexivity].
  intros ->. now rewrite Z.eqb_refl.
Qed.

(** C5 at [sitofp (fptosi x)] with [x = 2.5]: the outer cast returns to the
    source type of the inner one, the pass replaces it by [x], and the
    function that returned 2.0 returns 2.5. *)
Theorem cast_chain_collapse_changes_value
  (getCastOpcode : IR.LType -> bool -> IR.LType -> bool -> IR.CastOps)
  (castIsValid : IR.CastOps -> IR.LType -> IR.LType -> bool) :
  let optimized :=
    fst (fst (QuillTypeDirectedOptimizationPass.eliminateUnnecessaryTypeCasts
                getCastOpcode castIsValid cast_round_trip
                QuillTypeDirectedOptimizationPass.resetStats)) in
  IR.blocks optimized =
    [IR.mkBlock "entry"
       [IR.mkInst 1 "a"
          (IR.CastInst IR.FPToSI IR.DoubleTy (IR.IntegerTy 64) (IR.Argument 0));
        IR.mkInst 3 IR.unnamed (IR.ReturnInst (Some (IR.Argument 0)))]] /\
  IR.run cast_round_trip [IR.RDouble two_and_a_half]
  = Some (IR.RDouble (double_of_Z 2)) /\
  IR.run optimized [IR.RDouble two_and_a_half]
  = Some (IR.RDouble two_and_a_half).
Proof. repeat split; vm_compute; reflexivity. Qed.

(** ** Function inlining *)

Lemma getFunction_name (M : IR.Module) (n : string) (F : IR.Function) :
  IR.getFunction M n = Some F -> IR.getName F = n.
Proof.
  induction M as [|G M IH]; simpl; [discriminate|].
  destruct (String.eqb (IR.getName G) n) eqn:E.
  - intros [= <-]. now apply String.eqb_eq.
  - exact IH.
Qed.

Lemma getCalledFunction_name (M : IR.Module) (inst : IR.Instruction)
  (callee : IR.Function) :
  QuillFunctionInliningPass.getCalledFunction M inst = Some callee ->
  IR.getFunction M (IR.getName callee) = Some callee.
Proof.
  unfold QuillFunctionInliningPass.getCalledFunction.
  destruct (IR.inst_kind inst) as [| | | | [n|] ? | | | | |]; try discriminate.
  intros H. now rewrite (getFunction_name M n callee H).
Qed.

(** The test made by the pass on a callee is the absence of a direct call
    to itself in its body. *)
Lemma isRecursive_calls (M : IR.Module) (callee : IR.Function) :
  IR.getFunction M (IR.getName callee) = Some callee ->
  QuillFunctionInliningPass.isRecursive M callee
  = calls M (IR.getName callee) (IR.getName callee).
Proof.
  intros Hget. unfold QuillFunctionInliningPass.isRecursive, calls.
  rewrite Hget. induction (IR.all_instructions callee) as [|inst l IH];
    [reflexivity|].
  cbn [existsb]. rewrite IH. f_equal.
  unfold QuillFunctionInliningPass.is_call,
    QuillFunctionInliningPass.getCalledFunction.
  destruct (IR.inst_kind inst) as [| | | | [n|] ? | | | | |]; try reflexivity.
  cbn [andb].
  destruct (IR.getFunction M n) as [g|] eqn:Eg.
  - now rewrite (getFunction_name M n g Eg).
  - destruct (String.eqb n (IR.getName callee)) eqn:En; [|reflexivity].
    apply String.eqb_eq in En; subst. congruence.
Qed.

(** One queued call keeps the property of the inlinings performed. *)
Lemma inline_call_sound
  (InlineFunction : IR.Module -> nat -> option IR.Module)
  (st : IR.Module * bool * list QuillFunctionInliningPass.Inlined) (call : nat) :
  Forall not_directly_recursive (snd st) ->
  Forall not_directly_recursive
    (snd (QuillFunctionInliningPass.inline_call InlineFunction st call)).
Proof.
  destruct st as [[M changed] inlined]. intros Hall.
  unfold QuillFunctionInliningPass.inline_call.
  destruct (QuillFunctionInliningPass.find_call M call) as [[caller inst]|];
    [|exact Hall].
  destruct (QuillFunctionInliningPass.getCalledFunction M inst) as [callee|] eqn:Ec;
    [|exact Hall].
  destruct (String.eqb (IR.getName caller) (IR.getName callee)) eqn:En;
    [exact Hall|].
  destruct (QuillFunctionInliningPass.isRecursive M callee) eqn:Er; [exact Hall|].
  destruct (InlineFunction M call) as [M'|]; [|exact Hall].
  cbn [snd]. apply Forall_app. split; [exact Hall|].
  constructor; [|constructor].
  unfold not_directly_recursive; cbn.
  split; [now apply String.eqb_neq|].
  rewrite <- (isRecursive_calls M callee); [exact Er|].
  now apply (getCalledFunction_name M inst).
Qed.

(** C4, as stated, fails: [f] calls [g] and [g] calls [f], so [f] is
    recursive through one other function, and the pass inlines [f] at its
    call site in [main], after which [main] calls [g] itself. *)
Lemma mutual_recursion_inlined_counterexample :
  calls mutual_recursion "f" "g" = true /\
  calls mutual_recursion "g" "f" = true /\
  map (fun e => (QuillFunctionInliningPass.inlined_call e,
                 QuillFunctionInliningPass.into_caller e,
                 QuillFunctionInliningPass.inlined_callee e))
      (snd (QuillFunctionInliningPass.inlineSmallFunctions
              QuillFunctionInliningPass.splice_call mutual_recursion))
  = [(1%nat, "main", "f"); (3%nat, "f", "g")] /\
  calls (fst (fst (QuillFunctionInliningPass.inlineSmallFunctions
                     QuillFunctionInliningPass.splice_call mutual_recursion)))
        "main" "g" = true.
Proof. repeat split; vm_compute; reflexivity. Qed.

(** C4, amended: whatever [InlineFunction] does, the pass applies it only
    to a call whose callee is not the caller and whose callee, in the
    module as it is at that moment, holds no direct call to itself.  A
    function that reaches itself only through another function is not
    detected. *)
Theorem inlined_callee_not_directly_recursive
  (InlineFunction : IR.Module -> nat -> option IR.Module) (M : IR.Module) :
  Forall not_directly_recursive
    (snd (QuillFunctionInliningPass.inlineSmallFunctions InlineFunction M)).
Proof.
  unfold QuillFunctionInliningPass.inlineSmallFunctions.
  assert (forall queue st,
             Forall not_directly_recursive (snd st) ->
             Forall not_directly_recursive
               (snd (fold_left
                       (QuillFunctionInliningPass.inline_call InlineFunction)
                       queue st))) as Hfold.
  { induction queue as [|call queue IH]; intros st Hst; [exact Hst|].
    cbn [fold_left]. apply IH. now apply inline_call_sound. }
  apply Hfold. constructor.
Qed.

(** ** Statistics of the optimization manager *)

Lemma add_stats_reset (s : TD.TypeOptimizationStats) :
  add_stats s TD.resetStats = s.
Proof.
  destruct s; unfold add_stats, TD.resetStats; cbn.
  now rewrite !Nat.add_0_r.
Qed.

Ltac stats_arith :=
  unfold add_stats, TD.count_integer_arithmetic, TD.count_multiplication_to_shift,
    TD.count_division_to_shift, TD.count_cast_eliminated, TD.count_specialization;
  cbn; f_equal; lia.

(** Each rewrite of the pass adds to the counters it finds, whatever they
    are. *)
Lemma optimizeNumericInstruction_shift (s : TD.TypeOptimizationStats)
  (st : TD.traversal) (id : nat) :
  TD.optimizeNumericInstruction (shift_stats s st) id
  = shift_stats s (TD.optimizeNumericInstruction st id).
Proof.
  unfold TD.optimizeNumericInstruction, shift_stats.
  cbn [TD.fn TD.stats TD.toErase TD.changed].
  destruct (IR.find_instruction (TD.fn st) id) as [inst|]; [|reflexivity].
  destruct (IR.inst_kind inst) as [opcode a b | pred a b | | | | | | | |];
    try reflexivity.
  - destruct (TD.isIntegerConstant a) as [x|]; [|reflexivity].
    destruct (TD.isIntegerConstant b) as [y|]; [|reflexivity].
    destruct opcode; try reflexivity;
      try (destruct ((0 <? y)%Z && (Z.land y (y - 1) =? 0)%Z); [|reflexivity]);
      unfold TD.rewrite; cbn [TD.fn TD.stats TD.toErase TD.changed];
      f_equal; stats_arith.
  - destruct (TD.isIntegerConstant a) as [x|]; [|reflexivity].
    destruct (TD.isIntegerConstant b) as [y|]; [|reflexivity].
    destruct (TD.intPredicate pred); [|reflexivity].
    unfold TD.rewrite; cbn [TD.fn TD.stats TD.toErase TD.changed].
    f_equal; stats_arith.
Qed.

Lemma eliminateCastInstruction_shift
  (getCastOpcode : IR.LType -> bool -> IR.LType -> bool -> IR.CastOps)
  (castIsValid : IR.CastOps -> IR.LType -> IR.LType -> bool)
  (s : TD.TypeOptimizationStats) (st : TD.traversal) (id : nat) :
  TD.eliminateCastInstruction getCastOpcode castIsValid (shift_stats s st) id
  = shift_stats s (TD.eliminateCastInstruction getCastOpcode castIsValid st id).
Proof.
  unfold TD.eliminateCastInstruction, shift_stats.
  cbn [TD.fn TD.stats TD.toErase TD.changed].
  destruct (IR.find_instruction (TD.fn st) id) as [inst|]; [|reflexivity].
  destruct (IR.inst_kind inst) as [| | | op src dst operand | | | | | |];
    try reflexivity.
  destruct (IR.LType_eqb src dst).
  { unfold TD.rewrite; cbn [TD.fn TD.stats TD.toErase TD.changed].
    f_equal; stats_arith. }
  destruct operand as [| | | inner]; try reflexivity.
  destruct (option_map IR.inst_kind (IR.find_instruction (TD.fn st) inner))
    as [[| | | iop isrc idst ioperand | | | | | |]|]; try reflexivity.
  destruct (IR.LType_eqb isrc dst).
  { unfold TD.rewrite; cbn [TD.fn TD.stats TD.toErase TD.changed].
    f_equal; stats_arith. }
  destruct (castIsValid (getCastOpcode isrc false dst false) isrc dst);
    [|reflexivity].
  unfold TD.rewrite; cbn [TD.fn TD.stats TD.toErase TD.changed].
  f_equal; stats_arith.
Qed.

Lemma traverse_shift (step : TD.traversal -> nat -> TD.traversal)
  (F : IR.Function) (s w : TD.TypeOptimizationStats) :
  (forall st id, step (shift_stats s st) id = shift_stats s (step st id)) ->
  TD.traverse step F (add_stats s w)
  = (fst (fst (TD.traverse step F w)),
     add_stats s (snd (fst (TD.traverse step F w))),
     snd (TD.traverse step F w)).
Proof.
  intros Hstep. unfold TD.traverse.
  assert (forall l st, fold_left step l (shift_stats s st)
                       = shift_stats s (fold_left step l st)) as Hfold.
  { induction l as [|id l IH]; intros st; [reflexivity|].
    cbn [fold_left]. now rewrite Hstep, IH. }
  change (TD.mkTraversal F [] false (add_stats s w))
    with (shift_stats s (TD.mkTraversal F [] false w)).
  rewrite Hfold. reflexivity.
Qed.

Lemma specializeGenericFunctions_shift (M : IR.Module) (F : IR.Function)
  (s w : TD.TypeOptimizationStats) :
  TD.specializeGenericFunctions M F (add_stats s w)
  = (add_stats s (fst (TD.specializeGenericFunctions M F w)), false).
Proof.
  unfold TD.specializeGenericFunctions. cbn [fst]. f_equal.
  revert w. induction (IR.all_instructions F) as [|inst l IH]; intros w;
    [reflexivity|].
  cbn [fold_left].
  destruct (IR.inst_kind inst) as [| | | | [callee|] ? | | | | |];
    try apply IH.
  destruct (IR.getFunction M callee) as [calledFunc|]; [|apply IH].
  destruct (TD.canSpecializeFunction (Some calledFunc)); [|apply IH].
  replace (TD.count_specialization (add_stats s w))
    with (add_stats s (TD.count_specialization w)) by stats_arith.
  apply IH.
Qed.

(** The pass run on counters [s + w] does what it does on [w], and ends
    with [s] more on every counter. *)
Lemma run_shift
  (getCastOpcode : IR.LType -> bool -> IR.LType -> bool -> IR.CastOps)
  (castIsValid : IR.CastOps -> IR.LType -> IR.LType -> bool)
  (M : IR.Module) (F : IR.Function) (s w : TD.TypeOptimizationStats) :
  TD.run getCastOpcode castIsValid M F (add_stats s w)
  = (fst (fst (TD.run getCastOpcode castIsValid M F w)),
     add_stats s (snd (fst (TD.run getCastOpcode castIsValid M F w))),
     snd (TD.run getCastOpcode castIsValid M F w)).
Proof.
  unfold TD.run, TD.optimizeNumericOperations, TD.eliminateUnnecessaryTypeCasts.
  rewrite (traverse_shift TD.optimizeNumericInstruction F s w
             (optimizeNumericInstruction_shift s)).
  destruct (TD.traverse TD.optimizeNumericInstruction F w) as [[F1 w1] c1].
  cbn [fst snd].
  rewrite (traverse_shift (TD.eliminateCastInstruction getCastOpcode castIsValid)
             F1 s w1 (eliminateCastInstruction_shift getCastOpcode castIsValid s)).
  destruct (TD.traverse (TD.eliminateCastInstruction getCastOpcode castIsValid)
              F1 w1) as [[F2 w2] c2].
  cbn [fst snd].
  rewrite specializeGenericFunctions_shift.
  destruct (TD.specializeGenericFunctions M F2 w2) as [w3 c3] eqn:E.
  cbn [fst snd]. unfold TD.specializeGenericFunctions in E.
  inversion E; subst. reflexivity.
Qed.

Lemma shifted_at_lookup (q : nat) (s : TD.TypeOptimizationStats)
  (objs1 objs2 : gmap nat TD.TypeOptimizationStats) (q' : nat) :
  shifted_at q s objs1 objs2 -> q' <> q -> objs1 !! q' = objs2 !! q'.
Proof. intros (w & _ & ->) Hne. now rewrite lookup_insert_ne. Qed.

Lemma run_function_pm_shift
  (run_llvm_pass : OM.FunctionPass -> IR.Function -> IR.Function)
  (getCastOpcode : IR.LType -> bool -> IR.LType -> bool -> IR.CastOps)
  (castIsValid : IR.CastOps -> IR.LType -> IR.LType -> bool)
  (M : IR.Module) (q : nat) (s : TD.TypeOptimizationStats)
  (pm : list OM.FunctionPass) :
  forall (F : IR.Function) (objs1 objs2 : gmap nat TD.TypeOptimizationStats),
    shifted_at q s objs1 objs2 ->
    fst (OM.run_function_pm run_llvm_pass getCastOpcode castIsValid pm M F objs1)
    = fst (OM.run_function_pm run_llvm_pass getCastOpcode castIsValid pm M F objs2)
    /\
    shifted_at q s
      (snd (OM.run_function_pm run_llvm_pass getCastOpcode castIsValid pm M F objs1))
      (snd (OM.run_function_pm run_llvm_pass getCastOpcode castIsValid pm M F objs2)).
Proof.
  unfold OM.run_function_pm.
  induction pm as [|pass pm IH]; intros F objs1 objs2 Hsh; [now split|].
  cbn [fold_left].
  destruct pass as [| | | | | q']; try (apply IH; exact Hsh).
  destruct (decide (q' = q)) as [->|Hne].
  - destruct Hsh as (w & Hw & ->).
    rewrite lookup_insert_eq, Hw, run_shift.
    destruct (TD.run getCastOpcode castIsValid M F w) as [[F' w'] c].
    cbn [fst snd]. apply IH.
    exists w'. split; [apply lookup_insert_eq|].
    now rewrite !insert_insert_eq.
  - rewrite (shifted_at_lookup q s objs1 objs2 q' Hsh Hne).
    destruct (objs2 !! q') as [s0|]; [|apply IH; exact Hsh].
    destruct (TD.run getCastOpcode castIsValid M F s0) as [[F' s0'] c].
    apply IH. destruct Hsh as (w & Hw & ->).
    exists w. split; [now rewrite lookup_insert_ne|].
    now apply insert_insert_ne.
Qed.

Lemma run_functions_shift
  (run_llvm_pass : OM.FunctionPass -> IR.Function -> IR.Function)
  (getCastOpcode : IR.LType -> bool -> IR.LType -> bool -> IR.CastOps)
  (castIsValid : IR.CastOps -> IR.LType -> IR.LType -> bool)
  (pm : list OM.FunctionPass) (q : nat) (s : TD.TypeOptimizationStats)
  (after : IR.Module) :
  forall (before : IR.Module) (objs1 objs2 : gmap nat TD.TypeOptimizationStats),
    shifted_at q s objs1 objs2 ->
    fst (OM.run_functions run_llvm_pass getCastOpcode castIsValid pm
           before after objs1)
    = fst (OM.run_functions run_llvm_pass getCastOpcode castIsValid pm
             before after objs2)
    /\
    shifted_at q s
      (snd (OM.run_functions run_llvm_pass getCastOpcode castIsValid pm
              before after objs1))
      (snd (OM.run_functions run_llvm_pass getCastOpcode castIsValid pm
              before after objs2)).
Proof.
  induction after as [|F after IH]; intros before objs1 objs2 Hsh; [now split|].
  cbn [OM.run_functions].
  destruct (negb (IR.isDeclaration F)); [|apply IH; exact Hsh].
  destruct (run_function_pm_shift run_llvm_pass getCastOpcode castIsValid
              (before ++ F :: after)%list q s pm F objs1 objs2 Hsh) as [HF Hsh'].
  destruct (OM.run_function_pm run_llvm_pass getCastOpcode castIsValid pm
              (before ++ F :: after)%list F objs1) as [F1 o1].
  destruct (OM.run_function_pm run_llvm_pass getCastOpcode castIsValid pm
              (before ++ F :: after)%list F objs2) as [F2 o2].
  cbn [fst snd] in *. subst F2. apply IH. exact Hsh'.
Qed.

(** [runOptimizations] does not reset the counters of a pass object: after
    the call they are the counters found at its start increased by the
    work of the call. *)
Lemma runOptimizations_counters_accumulate
  (run_llvm_pass : OM.FunctionPass -> IR.Function -> IR.Function)
  (getCastOpcode : IR.LType -> bool -> IR.LType -> bool -> IR.CastOps)
  (castIsValid : IR.CastOps -> IR.LType -> IR.LType -> bool)
  (mgr : OM.t) (M : IR.Module) (elapsed_ms : double) (q : nat)
  (s : TD.TypeOptimizationStats) :
  OM.pass_objects mgr !! q = Some s ->
  exists w,
    work_of_call run_llvm_pass getCastOpcode castIsValid (OM.function_pm mgr) M q
      (OM.pass_objects mgr) = Some w /\
    OM.pass_objects
      (fst (OM.runOptimizations run_llvm_pass getCastOpcode castIsValid
              mgr M elapsed_ms)) !! q
    = Some (add_stats s w).
Proof.
  intros Hq.
  assert (shifted_at q s (OM.pass_objects mgr)
            (<[q := TD.resetStats]> (OM.pass_objects mgr))) as Hsh.
  { exists TD.resetStats. split; [apply lookup_insert_eq|].
    rewrite insert_insert_eq, add_stats_reset. symmetry. now apply insert_id. }
  destruct (run_functions_shift run_llvm_pass getCastOpcode castIsValid
              (OM.function_pm mgr) q s M [] _ _ Hsh) as [_ (w & Hw & Heq)].
  exists w. split; [exact Hw|].
  unfold OM.runOptimizations.
  destruct (OM.run_functions run_llvm_pass getCastOpcode castIsValid
              (OM.function_pm mgr) [] M (OM.pass_objects mgr)) as [M' objs'].
  cbn [fst snd OM.pass_objects] in *. subst objs'. apply lookup_insert_eq.
Qed.

(** C7 on two calls of [runOptimizations] at O3 with the module
    [call_square], which the first call leaves as it is.  Each call
    finds one call site to specialize.  If the pipeline runs the pass object
    of the manager, the snapshot of the second call counts 2; if it runs a
    copy, both snapshots count 0.  Neither is the work of the second call,
    which is 1. *)
Theorem runOptimizations_counters_carry_over (addPass_copies : bool)
  (getCastOpcode : IR.LType -> bool -> IR.LType -> bool -> IR.CastOps)
  (castIsValid : IR.CastOps -> IR.LType -> IR.LType -> bool) :
  let run := OM.runOptimizations llvm_pass_unchanged getCastOpcode castIsValid in
  let first := run (OM.create addPass_copies OM.O3) call_square (S754_zero false) in
  let second := run (fst first) (snd first) (S754_zero false) in
  let pass_object := if addPass_copies then 2%nat else 1%nat in
  snd first = call_square /\
  work_of_call llvm_pass_unchanged getCastOpcode castIsValid
    (OM.function_pm (fst first)) (snd first) pass_object
    (OM.pass_objects (fst first))
  = Some (TD.mkStats 1 0 0 0 0 0) /\
  OM.type_specializations (OM.stats (fst first))
  = (if addPass_copies then 0%nat else 1%nat) /\
  OM.type_specializations (OM.stats (fst second))
  = (if addPass_copies then 0%nat else 2%nat) /\
  OM.pass_objects (fst second) !! pass_object = Some (TD.mkStats 2 0 0 0 0 0).
Proof. destruct addPass_copies; repeat split; vm_compute; reflexivity. Qed.

(* ------------------------------------------------------------------ *)
(** ** Further properties of the type model                            *)
(* ------------------------------------------------------------------ *)

Lemma equals_loop_eq (l l' : list QType) :
  Forall (fun p => forall o, equals p (Some o) = true <-> p = o) l ->
  length l = length l' ->
  (equals_loop l l' = true <-> l = l').
Proof.
  intros Hall. revert l'.
  induction Hall as [|p l Hp _ IH]; intros [|p' l'] Hlen; simpl in *;
    try discriminate.
  - split; reflexivity.
  - injection Hlen as Hlen. specialize (IH l' Hlen).
    destruct (equals p (Some p')) eqn:E; simpl.
    + apply Hp in E; subst p'. rewrite IH. split; congruence.
    + split; [discriminate|]. intros Heq. injection Heq as Hp' Hl'.
      apply Hp in Hp'. congruence.
Qed.

Lemma plain_Forall (P : QType -> Prop) (l : list QType) :
  Forall (fun p => plain p = true -> P p) l -> forallb plain l = true ->
  Forall P l.
Proof. apply (Forall_forallb_imp P plain plain). Qed.

(** X2.  On a type built from the primitive types, [void] and [unknown] by
    functions, lists and tuples, [equals] is structural equality: it holds
    of exactly one operand, the type itself. *)
Theorem equals_plain_structural (t : QType) :
  plain t = true -> forall o, equals t (Some o) = true <-> t = o.
Proof.
  induction t as [ | | | | | ps r IHps IHr | e IHe | es IHes | ts _
                 | n cs _ | vs _ | n ms _ | | msg ]
    using QType_nested_ind; intros Hp o; simpl in Hp; try discriminate Hp;
    try (destruct o; cbn; split; intros H; (discriminate H || reflexivity)).
  - apply andb_prop in Hp as [Hps Hr].
    pose proof (plain_Forall _ ps IHps Hps) as Hall.
    destruct o; simpl; try (split; discriminate).
    unfold FunctionType_equals.
    destruct (length ps =? length param_types)%nat eqn:El; simpl.
    + apply Nat.eqb_eq in El.
      pose proof (equals_loop_eq ps param_types Hall El) as Hloop.
      unfold equals_loop in Hloop.
      match goal with
      | |- (if negb ?b then _ else _) = _ <-> _ => destruct b eqn:Eb
      end; simpl.
      * assert (ps = param_types) as -> by now apply Hloop.
        rewrite (IHr Hr o). split; congruence.
      * split; [discriminate|]. intros Heq. injection Heq as Hps' Hr'.
        apply Hloop in Hps'. discriminate Hps'.
    + split; [discriminate|]. intros Heq. injection Heq as Hps' Hr'.
      subst. now rewrite Nat.eqb_refl in El.
  - destruct o; simpl; try (split; discriminate).
    rewrite (IHe Hp o). split; congruence.
  - pose proof (plain_Forall _ es IHes Hp) as Hall.
    destruct o; simpl; try (split; discriminate).
    destruct (length es =? length element_types)%nat eqn:El; simpl.
    + apply Nat.eqb_eq in El.
      pose proof (equals_loop_eq es element_types Hall El) as Hloop.
      unfold equals_loop in Hloop. rewrite Hloop. split; congruence.
    + split; [discriminate|]. intros Heq. injection Heq as Hes.
      subst. now rewrite Nat.eqb_refl in El.
Qed.

Lemma equals_plain_structural_witness :
  plain (FunctionType [ListType IntType; FloatType] (TupleType [BoolType]))
    = true /\
  (equals (FunctionType [ListType IntType; FloatType] (TupleType [BoolType]))
          (Some (FunctionType [ListType IntType; FloatType]
                   (TupleType [BoolType]))) = true <->
   FunctionType [ListType IntType; FloatType] (TupleType [BoolType]) =
   FunctionType [ListType IntType; FloatType] (TupleType [BoolType])).
Proof.
  split; [reflexivity|].
  apply (equals_plain_structural
           (FunctionType [ListType IntType; FloatType] (TupleType [BoolType]))).
  reflexivity.
Defined.

Lemma primitive_assignable (m o : QType) :
  primitive_or_void m = true ->
  isAssignableFrom m (Some o) =
  TypeKind_eqb (kind m) (kind o) || isFloat m && isInteger o.
Proof.
  intros Hm. destruct m; try (cbv in Hm; discriminate Hm);
    destruct o; reflexivity.
Qed.

(** X3.  A union whose members are primitive types or [void] accepts a
    type exactly when a member has the kind of that type, or the type is
    [int] and [float] is a member.  So it accepts no union type, not even
    one that [equals] finds equal to it. *)
Theorem union_of_primitives_assignability (ts : list QType) :
  forallb primitive_or_void ts = true ->
  (forall o, isAssignableFrom (UnionType ts) (Some o) =
     existsb (fun m => TypeKind_eqb (kind m) (kind o) ||
                       isFloat m && isInteger o) ts) /\
  (forall ts', isAssignableFrom (UnionType ts) (Some (UnionType ts')) = false).
Proof.
  intros Hts.
  assert (forall o, isAssignableFrom (UnionType ts) (Some o) =
     existsb (fun m => TypeKind_eqb (kind m) (kind o) ||
                       isFloat m && isInteger o) ts) as Hchar.
  { intros o. simpl. induction ts as [|m ts IH]; [reflexivity|].
    simpl in Hts. apply andb_prop in Hts as [Hm Hts]. simpl.
    now rewrite (primitive_assignable m o Hm), (IH Hts). }
  split; [exact Hchar|].
  intros ts'. rewrite Hchar. clear Hchar.
  induction ts as [|m ts IH]; [reflexivity|].
  simpl in Hts. apply andb_prop in Hts as [Hm Hts]. cbn [existsb].
  rewrite (IH Hts).
  destruct m; try (cbv in Hm; discriminate Hm); reflexivity.
Qed.

Lemma union_of_primitives_assignability_witness :
  forallb primitive_or_void [IntType; StringType] = true /\
  equals (UnionType [IntType; StringType])
         (Some (UnionType [IntType; StringType])) = true /\
  isAssignableFrom (UnionType [IntType; StringType])
                   (Some (UnionType [IntType; StringType])) = false.
Proof.
  split; [reflexivity|]. split; [reflexivity|].
  apply (union_of_primitives_assignability [IntType; StringType]).
  reflexivity.
Defined.

(** X4.  Numeric promotion does not depend on the order of its operands,
    null ones included, nor, for present operands, on the way three of them
    are grouped. *)
Theorem promoteNumericTypes_comm_assoc :
  (forall t1 t2, TypeFactory.promoteNumericTypes t1 t2 =
                 TypeFactory.promoteNumericTypes t2 t1) /\
  (forall a b c,
     TypeFactory.promoteNumericTypes
       (Some (TypeFactory.promoteNumericTypes (Some a) (Some b))) (Some c) =
     TypeFactory.promoteNumericTypes
       (Some a) (Some (TypeFactory.promoteNumericTypes (Some b) (Some c)))).
Proof.
  split.
  - intros [a|] [b|]; try reflexivity.
    unfold TypeFactory.promoteNumericTypes, isFloat, isNumeric, isInteger.
    destruct (kind a), (kind b); reflexivity.
  - intros a b c.
    unfold TypeFactory.promoteNumericTypes, isFloat, isNumeric, isInteger.
    destruct (kind a), (kind b); simpl; destruct (kind c); reflexivity.
Qed.

(** X5.  [unknown] is a neutral operand of unification on either side:
    unifying it with a type gives that type. *)
Theorem unifyTypes_unknown_identity (t : QType) :
  TypeFactory.unifyTypes (Some UnknownType) (Some t) = t /\
  TypeFactory.unifyTypes (Some t) (Some UnknownType) = t.
Proof.
  split; unfold TypeFactory.unifyTypes.
  - destruct (equals UnknownType (Some t)) eqn:E.
    + destruct t; try (cbv in E; discriminate E). reflexivity.
    + simpl. apply clone_id.
  - destruct (equals t (Some UnknownType)); [apply clone_id|].
    replace (isNumeric t && isNumeric UnknownType) with false
      by (now rewrite andb_false_r).
    destruct (isUnknown t) eqn:Eu.
    + destruct t; try (cbv in Eu; discriminate Eu). reflexivity.
    + simpl. apply clone_id.
Qed.

Lemma unifyTypes_numeric (a b : QType) :
  isNumeric a = true -> isNumeric b = true ->
  TypeFactory.unifyTypes (Some a) (Some b) =
  if isFloat a || isFloat b then FloatType else IntType.
Proof.
  intros Ha Hb.
  destruct a; try (cbv in Ha; discriminate Ha);
    destruct b; try (cbv in Hb; discriminate Hb); reflexivity.
Qed.

(** X6.  The common type of a non-empty list of numeric types is [float]
    when one of them is [float], and [int] otherwise. *)
Theorem getCommonType_numeric (types : list QType) :
  types <> [] -> forallb isNumeric types = true ->
  TypeFactory.getCommonType types =
  if existsb isFloat types then FloatType else IntType.
Proof.
  destruct types as [|t0 rest]; [congruence|]. intros _ Hnum.
  simpl in Hnum. apply andb_prop in Hnum as [H0 Hrest].
  assert (forall l result,
            isNumeric result = true -> forallb isNumeric l = true ->
            common_type_loop result l =
            if isFloat result || existsb isFloat l then FloatType else IntType)
    as Hloop.
  { induction l as [|t l IH]; intros result Hr Hl.
    - destruct result; try (cbv in Hr; discriminate Hr); reflexivity.
    - simpl in Hl. apply andb_prop in Hl as [Ht Hl].
      cbn [common_type_loop existsb].
      rewrite (unifyTypes_numeric result t Hr Ht), orb_assoc.
      destruct (isFloat result || isFloat t); cbn [isError kind TypeKind_eqb].
      + now rewrite (IH FloatType eq_refl Hl).
      + now rewrite (IH IntType eq_refl Hl). }
  destruct rest as [|t1 rest].
  - destruct t0; try (cbv in H0; discriminate H0); reflexivity.
  - change (TypeFactory.getCommonType (t0 :: t1 :: rest))
      with (common_type_loop (clone t0) (t1 :: rest)).
    rewrite clone_id. apply (Hloop (t1 :: rest) t0 H0 Hrest).
Qed.

Lemma getCommonType_numeric_witness :
  TypeFactory.getCommonType [IntType; FloatType; IntType] = FloatType.
Proof.
  apply (getCommonType_numeric [IntType; FloatType; IntType]);
    [discriminate | reflexivity].
Defined.

(* ------------------------------------------------------------------ *)
(** ** Scopes of the type environment                                  *)
(* ------------------------------------------------------------------ *)

(** X7.  In an environment with a scope, a definition is found again under
    its name, and it hides nothing but that name. *)
Theorem define_lookup (scopes : TypeEnvironment.t) (n m : string) (ty : QType) :
  scopes <> [] ->
  TypeEnvironment.lookup (TypeEnvironment.define scopes n ty) n = Some ty /\
  (m <> n ->
   TypeEnvironment.lookup (TypeEnvironment.define scopes n ty) m =
   TypeEnvironment.lookup scopes m).
Proof.
  destruct scopes as [|back rest]; [congruence|]. intros _. simpl. split.
  - now rewrite lookup_insert_eq.
  - intros Hne. rewrite lookup_insert_ne by congruence. reflexivity.
Qed.

Lemma define_lookup_witness :
  TypeEnvironment.lookup
    (TypeEnvironment.define TypeEnvironment.create "x" IntType) "x"
  = Some IntType.
Proof.
  apply (define_lookup TypeEnvironment.create "x" "y" IntType). discriminate.
Defined.

Lemma define_all_outer (back : gmap string QType) (rest : TypeEnvironment.t)
  (definitions : list (string * QType)) :
  exists back', define_all (back :: rest) definitions = back' :: rest.
Proof.
  revert back. induction definitions as [|d ds IH]; intros back; simpl.
  - now exists back.
  - apply IH.
Qed.

(** X8.  Whatever is defined between [pushScope] and the matching
    [popScope] is gone after it: the environment is the one before the
    [pushScope], so a shadowed outer definition is visible again. *)
Theorem popScope_undoes_scope (scopes : TypeEnvironment.t)
  (definitions : list (string * QType)) :
  scopes <> [] ->
  TypeEnvironment.popScope
    (define_all (TypeEnvironment.pushScope scopes) definitions) = scopes.
Proof.
  intros Hne. unfold TypeEnvironment.pushScope.
  destruct (define_all_outer ∅ scopes definitions) as [back' ->].
  unfold TypeEnvironment.popScope.
  destruct scopes as [|s rest]; [congruence|]. reflexivity.
Qed.

Lemma popScope_undoes_scope_witness :
  TypeEnvironment.popScope
    (define_all (TypeEnvironment.pushScope
                   (TypeEnvironment.define TypeEnvironment.create "x" IntType))
                [("x", FloatType); ("y", BoolType)])
  = TypeEnvironment.define TypeEnvironment.create "x" IntType.
Proof.
  apply (popScope_undoes_scope
           (TypeEnvironment.define TypeEnvironment.create "x" IntType)
           [("x", FloatType); ("y", BoolType)]).
  discriminate.
Defined.

(** X9.  [k] calls of [popScope] remove the [k] innermost scopes, but never
    the outermost one: the global scope stays however often [popScope] is
    called. *)
Theorem popScope_keeps_global (scopes : TypeEnvironment.t) (k : nat) :
  Nat.iter k TypeEnvironment.popScope scopes =
  drop (Nat.min k (length scopes - 1)) scopes.
Proof.
  induction k as [|k IH]; [reflexivity|].
  rewrite Nat.iter_succ, IH. unfold TypeEnvironment.popScope.
  rewrite length_drop.
  destruct (1 <? length scopes - k `min` (length scopes - 1))%nat eqn:E.
  - apply Nat.ltb_lt in E.
    replace (S k `min` (length scopes - 1))%nat
      with (k `min` (length scopes - 1) + 1)%nat by lia.
    rewrite <- drop_drop.
    destruct (drop (k `min` (length scopes - 1)) scopes); reflexivity.
  - apply Nat.ltb_ge in E. f_equal. lia.
Qed.

Lemma assignable_loop_Forall2 (ps : list QType) (args : list (option QType)) :
  length ps = length args ->
  (assignable_loop ps args = true <->
   Forall2 (fun p a => isAssignableFrom p a = true) ps args).
Proof.
  revert args. induction ps as [|p ps IH]; intros [|a args] Hlen;
    simpl in *; try discriminate.
  - split; [constructor | reflexivity].
  - injection Hlen as Hlen. specialize (IH args Hlen).
    destruct (isAssignableFrom p a) eqn:E; simpl.
    + rewrite IH. split.
      * now constructor.
      * intros H. now apply Forall2_cons_1 in H as [_ H].
    + split; [discriminate|]. intros H.
      apply Forall2_cons_1 in H as [H _]. congruence.
Qed.

(** X10.  [lookupFunction] returns a function type exactly when the name is
    bound to it and there are as many arguments as parameters, each
    parameter accepting its argument; what it returns is the binding. *)
Theorem lookupFunction_some (scopes : TypeEnvironment.t) (n : string)
  (arg_types : list (option QType)) (f : QType) :
  TypeEnvironment.lookupFunction scopes n arg_types = Some f <->
  exists ps r,
    f = FunctionType ps r /\
    TypeEnvironment.lookup scopes n = Some f /\
    Forall2 (fun p a => isAssignableFrom p a = true) ps arg_types.
Proof.
  unfold TypeEnvironment.lookupFunction. split.
  - destruct (TypeEnvironment.lookup scopes n) as [[]|]; try discriminate.
    destruct (length param_types =? length arg_types)%nat eqn:El; simpl;
      [|discriminate].
    apply Nat.eqb_eq in El.
    pose proof (assignable_loop_Forall2 param_types arg_types El) as Hloop.
    unfold assignable_loop in Hloop.
    match goal with
    | |- (if ?b then _ else _) = _ -> _ => destruct b
    end; [|discriminate].
    intros Heq. injection Heq as <-.
    exists param_types, return_type. repeat split. now apply Hloop.
  - intros (ps & r & -> & -> & Hall).
    pose proof (Forall2_length _ _ _ Hall) as El.
    pose proof (assignable_loop_Forall2 ps arg_types El) as Hloop.
    unfold assignable_loop in Hloop.
    apply Nat.eqb_eq in El. rewrite El. simpl.
    apply Hloop in Hall. now rewrite Hall.
Qed.

(* ------------------------------------------------------------------ *)
(** ** Instantiation of generic types                                  *)
(* ------------------------------------------------------------------ *)

(** X11.  Without bindings, [instantiate] returns the type it is given. *)
Theorem instantiate_no_bindings (t : QType) :
  GenericInstantiator.instantiate ∅ t = t.
Proof.
  induction t as [ | | | | | ps r IHps IHr | e IHe | es IHes | ts IHts
                 | n cs _ | vs _ | n ms _ | | msg ]
    using QType_nested_ind; try reflexivity.
  - simpl. unfold GenericInstantiator.instantiateFunction_with.
    rewrite IHr. f_equal. now apply map_id_Forall.
  - simpl. now rewrite IHe.
  - simpl. f_equal. now apply map_id_Forall.
  - simpl. f_equal. now apply map_id_Forall.
  - change (clone (GenericType n cs) = GenericType n cs). apply clone_id.
  - change (clone (DiscriminatedUnionType vs) = DiscriminatedUnionType vs).
    apply clone_id.
  - change (clone (InterfaceType n ms) = InterfaceType n ms). apply clone_id.
Qed.

(* ------------------------------------------------------------------ *)
(** ** The constraint solver, once it has stopped                      *)
(* ------------------------------------------------------------------ *)

Lemma solve_fixed_point (cs : list TypeConstraints.Constraint) (fuel : nat) :
  forall (b : gmap string QType) result b',
    TypeConstraints.solve fuel cs b = TypeConstraints.Solved result b' ->
    TypeConstraints.solve_pass cs b' = Some (b', false).
Proof.
  induction fuel as [|fuel IH]; intros b result b'; simpl; [discriminate|].
  destruct (TypeConstraints.solve_pass cs b) as [[b1 changed]|] eqn:Hpass;
    [|discriminate].
  destruct changed.
  - apply IH.
  - intros Heq. injection Heq as _ <-.
    destruct (solve_pass_spec cs b b1 false Hpass) as (_ & _ & ->).
    exact Hpass.
Qed.

(** X13.  The result of the solver does not depend on the number of
    iterations it is allowed beyond those it needs, and solving again from
    the bindings it returned ends in the first iteration with the same
    bindings. *)
Theorem solve_stable (cs : list TypeConstraints.Constraint) (fuel : nat)
  (b : gmap string QType) (result : bool) (b' : gmap string QType) :
  TypeConstraints.solve fuel cs b = TypeConstraints.Solved result b' ->
  (forall more, TypeConstraints.solve (fuel + more) cs b
                = TypeConstraints.Solved result b') /\
  (forall again, TypeConstraints.solve (S again) cs b'
                 = TypeConstraints.Solved true b').
Proof.
  intros Hsolved. split.
  - intros more. revert b Hsolved.
    induction fuel as [|fuel IH]; intros b; simpl; [discriminate|].
    destruct (TypeConstraints.solve_pass cs b) as [[b1 changed]|];
      [|discriminate].
    destruct changed; [apply IH | trivial].
  - intros again. simpl.
    now rewrite (solve_fixed_point cs fuel b result b' Hsolved).
Qed.

Lemma solve_stable_witness :
  (forall more, TypeConstraints.solve (2 + more) example_constraints ∅
     = TypeConstraints.Solved true
         (<["U" := IntType]> (<["T" := FloatType]> ∅))) /\
  (forall again,
     TypeConstraints.solve (S again) example_constraints
       (<["U" := IntType]> (<["T" := FloatType]> ∅))
     = TypeConstraints.Solved true
         (<["U" := IntType]> (<["T" := FloatType]> ∅))).
Proof.
  apply (solve_stable example_constraints 2 ∅ true
           (<["U" := IntType]> (<["T" := FloatType]> ∅))).
  vm_compute. reflexivity.
Defined.

Lemma solve_constraint_unchanged (c : TypeConstraints.Constraint)
  (b b1 : gmap string QType) (changed : bool) :
  TypeConstraints.solve_constraint c (b, changed) = Some (b1, false) ->
  changed = false /\ b1 = b.
Proof.
  unfold TypeConstraints.solve_constraint.
  destruct (TypeConstraints.ckind c),
           (TypeConstraints.left c) as [[]|],
           (TypeConstraints.right c) as [[]|];
    try discriminate;
    repeat match goal with
           | |- context [match ?x with _ => _ end] => destruct x
           end;
    intros H; inversion H; auto.
Qed.

Lemma solve_constraints_unchanged (cs : list TypeConstraints.Constraint) :
  forall (b b1 : gmap string QType) (changed : bool),
    TypeConstraints.solve_constraints cs (b, changed) = Some (b1, false) ->
    changed = false /\ b1 = b /\
    Forall (fun c => TypeConstraints.solve_constraint c (b, false)
                     = Some (b, false)) cs.
Proof.
  induction cs as [|c cs IH]; intros b b1 changed;
    cbn [TypeConstraints.solve_constraints].
  - intros H. inversion H. repeat split. constructor.
  - destruct (TypeConstraints.solve_constraint c (b, changed))
      as [[b2 changed2]|] eqn:Hc; [|intros H; discriminate H].
    intros Hrest. destruct (IH _ _ _ Hrest) as (-> & -> & Hall).
    destruct (solve_constraint_unchanged c b b2 changed Hc) as [-> ->].
    repeat split; try reflexivity. constructor; assumption.
Qed.

(** X14.  When the solver stops, no constraint is left that it could act
    on: the generic parameter of every [NUMERIC] or [COMPARABLE] constraint
    is bound, and so is the generic side of every [EQUALS] constraint whose
    other side is not generic. *)
Theorem solve_binds_all (cs : list TypeConstraints.Constraint) (fuel : nat)
  (b : gmap string QType) (result : bool) (b' : gmap string QType) :
  TypeConstraints.solve fuel cs b = TypeConstraints.Solved result b' ->
  forall c, In c cs ->
  forall p ks,
    ((TypeConstraints.ckind c = TypeConstraints.NUMERIC \/
      TypeConstraints.ckind c = TypeConstraints.COMPARABLE) ->
     TypeConstraints.left c = Some (GenericType p ks) ->
     is_Some (GenericInstantiator.getBinding b' p)) /\
    (TypeConstraints.ckind c = TypeConstraints.EQUALS ->
     forall other, kind other <> GENERIC ->
       (TypeConstraints.left c = Some (GenericType p ks) /\
        TypeConstraints.right c = Some other) \/
       (TypeConstraints.left c = Some other /\
        TypeConstraints.right c = Some (GenericType p ks)) ->
       is_Some (GenericInstantiator.getBinding b' p)).
Proof.
  intros Hsolved c Hin p ks.
  pose proof (solve_fixed_point cs fuel b result b' Hsolved) as Hfix.
  unfold TypeConstraints.solve_pass in Hfix.
  destruct (solve_constraints_unchanged cs b' b' false Hfix) as (_ & _ & Hall).
  rewrite Forall_forall in Hall.
  assert (TypeConstraints.solve_constraint c (b', false) = Some (b', false))
    as Hc by (apply Hall; now apply list_elem_of_In).
  clear Hall Hfix Hsolved Hin.
  unfold TypeConstraints.solve_constraint in Hc.
  unfold GenericInstantiator.getBinding.
  split.
  - intros Hk Hl. rewrite Hl in Hc.
    destruct Hk as [Hk | Hk]; rewrite Hk in Hc;
      match type of Hc with
      | context [match ?x with _ => _ end] => destruct x as [ty|] eqn:Hb
      end;
      solve [ exists ty; exact Hb | inversion Hc ].
  - intros Hk other Hother Hsides. rewrite Hk in Hc.
    destruct Hsides as [[Hl Hr] | [Hl Hr]]; rewrite Hl, Hr in Hc;
      destruct other; try (now exfalso; apply Hother);
      match type of Hc with
      | context [match ?x with _ => _ end] => destruct x as [ty|] eqn:Hb
      end;
      solve [ exists ty; exact Hb | inversion Hc ].
Qed.

Lemma solve_binds_all_witness :
  is_Some (GenericInstantiator.getBinding
             (<["U" := IntType]> (<["T" := FloatType]> ∅)) "U").
Proof.
  refine (proj1 (solve_binds_all example_constraints 2 ∅ true
                   (<["U" := IntType]> (<["T" := FloatType]> ∅)) _
                   (TypeConstraints.mkConstraint TypeConstraints.NUMERIC
                      (Some (GenericType "U" [])) None) _ "U" []) _ _).
  - vm_compute. reflexivity.
  - simpl. tauto.
  - left. reflexivity.
  - reflexivity.
Defined.

(* ------------------------------------------------------------------ *)
(** ** Inference contexts                                              *)
(* ------------------------------------------------------------------ *)

Lemma bool_decide_ext_orb (n : string) (a b : gset string) :
  bool_decide (n ∈ a ∪ b) = bool_decide (n ∈ a) || bool_decide (n ∈ b).
Proof.
  destruct (bool_decide (n ∈ a)) eqn:Ea, (bool_decide (n ∈ b)) eqn:Eb; simpl;
    try (apply bool_decide_eq_true; apply bool_decide_eq_true in Ea || 
         apply bool_decide_eq_true in Eb; set_solver).
  apply bool_decide_eq_false. apply bool_decide_eq_false in Ea, Eb. set_solver.
Qed.

Lemma unifyTypes_diag (t : QType) :
  isError (TypeFactory.unifyTypes (Some t) (Some t)) = false ->
  TypeFactory.unifyTypes (Some t) (Some t) = t.
Proof.
  unfold TypeFactory.unifyTypes.
  destruct (equals t (Some t)); [intros _; apply clone_id|].
  destruct t; intros Hne; try reflexivity; discriminate Hne.
Qed.

Lemma merge_entry_clone (t : QType) :
  InferenceContext.merge_entry (Some t) (Some (clone t)) = Some t.
Proof.
  rewrite clone_id. unfold InferenceContext.merge_entry.
  destruct (isError (TypeFactory.unifyTypes (Some t) (Some t))) eqn:E;
    [reflexivity|].
  simpl. f_equal. now apply unifyTypes_diag.
Qed.

(** X15.  Merging a context with its own clone changes nothing: every
    variable keeps its type and the set of modified variables is the
    same. *)
Theorem merge_clone_unchanged (ctx : InferenceContext.t) :
  InferenceContext.merge ctx (InferenceContext.clone ctx) = ctx.
Proof.
  destruct ctx as [types modified].
  unfold InferenceContext.merge, InferenceContext.clone; simpl. f_equal.
  - apply map_eq. intros n. rewrite lookup_merge, lookup_fmap.
    destruct (types !! n) as [t|]; simpl; [|reflexivity].
    apply merge_entry_clone.
  - set_solver.
Qed.

(** X16.  [merge] loses nothing: a variable has a type in the merged
    context exactly when it has one in either context, a variable that only
    this context knows keeps its type, and a variable is marked modified
    exactly when either context marks it. *)
Theorem merge_keeps_variables (ctx other : InferenceContext.t) (n : string) :
  (is_Some (InferenceContext.getVariableType
              (InferenceContext.merge ctx other) n) <->
   is_Some (InferenceContext.getVariableType ctx n) \/
   is_Some (InferenceContext.getVariableType other n)) /\
  (InferenceContext.getVariableType other n = None ->
   InferenceContext.getVariableType (InferenceContext.merge ctx other) n =
   InferenceContext.getVariableType ctx n) /\
  InferenceContext.isVariableModified (InferenceContext.merge ctx other) n =
  InferenceContext.isVariableModified ctx n ||
  InferenceContext.isVariableModified other n.
Proof.
  unfold InferenceContext.getVariableType, InferenceContext.isVariableModified,
    InferenceContext.merge; simpl.
  rewrite lookup_merge.
  destruct (InferenceContext.variable_types ctx !! n) as [t|],
           (InferenceContext.variable_types other !! n) as [o|]; simpl.
  - split; [|split].
    + destruct (negb _); split; eauto.
    + discriminate.
    + apply bool_decide_ext_orb.
  - split; [|split]; [split; eauto | reflexivity | apply bool_decide_ext_orb].
  - split; [|split]; [split; eauto | discriminate | apply bool_decide_ext_orb].
  - split; [|split]; [|reflexivity | apply bool_decide_ext_orb].
    split; [intros []; discriminate | intros [[]|[]]; discriminate].
Qed.

(* ------------------------------------------------------------------ *)
(** ** Results of expression inference                                 *)
(* ------------------------------------------------------------------ *)

Lemma settled_result_of (ty : QType) : settled (result_of ty).
Proof. split; [left; split; [reflexivity | now exists ty] | reflexivity]. Qed.

Lemma settled_error_result (msg : string) : settled (error_result msg).
Proof. split; [right; now exists msg | reflexivity]. Qed.

Create HintDb settled.
#[local] Hint Resolve settled_result_of settled_error_result : settled.

Lemma inferBinaryType_settled (infer : option ExprAST -> TypeCheckResult)
  (op : ascii) (lhs rhs : option ExprAST) :
  settled (infer lhs) -> settled (infer rhs) ->
  settled (TypeChecker.inferBinaryType infer op lhs rhs).
Proof.
  intros Hl Hr. unfold TypeChecker.inferBinaryType.
  destruct (hasErrors (infer lhs)); [exact Hl|].
  destruct (hasErrors (infer rhs)); [exact Hr|].
  unfold TypeChecker.null_type_dereference.
  destruct (type (infer lhs)), (type (infer rhs)); auto with settled.
  destruct (TypeChecker.is_arithmetic_op op).
  - destruct (isNumeric q && isNumeric q0); auto with settled.
  - destruct (TypeChecker.is_comparison_op op); auto with settled.
    destruct (TypeChecker.isComparable (Some q) (Some q0)); auto with settled.
Qed.

Lemma inferUnaryType_settled (infer : option ExprAST -> TypeCheckResult)
  (op : ascii) (operand : option ExprAST) :
  settled (infer operand) ->
  settled (TypeChecker.inferUnaryType infer op operand).
Proof.
  intros Ho. unfold TypeChecker.inferUnaryType.
  destruct (hasErrors (infer operand)); [exact Ho|].
  unfold TypeChecker.null_type_dereference.
  destruct (type (infer operand)); auto with settled.
  destruct (Ascii.eqb op "-").
  - destruct (isNumeric q); auto with settled.
  - destruct (Ascii.eqb op "!"); auto with settled.
Qed.

Lemma inferCallType_settled (tc : TypeChecker.t)
  (infer : option ExprAST -> TypeCheckResult)
  (callee : string) (args : list (option ExprAST)) :
  Forall (fun a => settled (infer a)) args ->
  settled (TypeChecker.inferCallType tc infer callee args).
Proof.
  intros Hargs. unfold TypeChecker.inferCallType.
  assert (forall acc,
            match TypeChecker.inferArguments infer args acc with
            | inl r => settled r
            | inr _ => True
            end) as Hloop.
  { induction Hargs as [|a args Ha _ IH]; intros acc; simpl; [exact Logic.I|].
    destruct (hasErrors (infer a)); [exact Ha | apply IH]. }
  specialize (Hloop []).
  destruct (TypeChecker.inferArguments infer args []) as [r|arg_types];
    [exact Hloop|].
  destruct (TypeChecker.lookupFunction tc callee arg_types) as [[]|];
    auto with settled.
Qed.

(** X17.  Expression inference stops at the first error: its result
    carries either a type and no error message, or no type and exactly one
    error message, and never a warning.  So a result without errors always
    holds a type, which is what the callers dereference. *)
Theorem inferExpressionType_settled (out_of_range_int : double -> Z)
  (tc : TypeChecker.t) (expr : option ExprAST) :
  settled (TypeChecker.inferExpressionType out_of_range_int tc expr).
Proof.
  destruct expr as [e|]; [|apply settled_error_result].
  cbn [TypeChecker.inferExpressionType].
  induction e as [value | value | n | op lhs rhs IHl IHr | op operand IHo
                 | callee args IHargs] using ExprAST_nested_ind;
    cbn [TypeChecker.inferExpr].
  - unfold TypeChecker.inferNumberType.
    destruct (double_eq_Z _ _); apply settled_result_of.
  - apply settled_result_of.
  - unfold TypeChecker.inferVariableType.
    destruct (TypeChecker.lookupVariable tc n); auto with settled.
  - apply inferBinaryType_settled.
    + destruct lhs; [exact IHl | apply settled_error_result].
    + destruct rhs; [exact IHr | apply settled_error_result].
  - apply inferUnaryType_settled.
    destruct operand; [exact IHo | apply settled_error_result].
  - apply inferCallType_settled.
    eapply Forall_impl; [exact IHargs|].
    intros [a|] Ha; [exact Ha | apply settled_error_result].
Qed.

(* ------------------------------------------------------------------ *)
(** ** Scopes while statements are checked                             *)
(* ------------------------------------------------------------------ *)

Lemma same_outer_scopes_refl (tc : TypeChecker.t) :
  TypeChecker.type_env tc <> [] -> same_outer_scopes tc tc.
Proof. intros H. repeat split. exact H. Qed.

Lemma same_outer_scopes_trans (a b c : TypeChecker.t) :
  same_outer_scopes a b -> same_outer_scopes b c -> same_outer_scopes a c.
Proof.
  intros (_ & Ht & He & Hw) (Hne & Ht' & He' & Hw').
  repeat split; [exact Hne | congruence | congruence | congruence].
Qed.

Lemma same_outer_scopes_context (a b : TypeChecker.t)
  (ctx : InferenceContext.t) :
  same_outer_scopes a b -> same_outer_scopes a (TypeChecker.with_context b ctx).
Proof. intros H. exact H. Qed.

Lemma same_outer_scopes_define (a b : TypeChecker.t) (n : string) (ty : QType) :
  same_outer_scopes a b ->
  same_outer_scopes a (TypeChecker.defineVariable b n ty).
Proof.
  intros (Hne & Ht & He & Hw).
  unfold same_outer_scopes, TypeChecker.defineVariable; simpl.
  destruct (TypeChecker.type_env b) as [|back rest]; [congruence|].
  repeat split; try assumption. discriminate.
Qed.

Lemma checkAssignment_outer_scopes (out_of_range_int : double -> Z)
  (tc : TypeChecker.t) (n : string) (value : option ExprAST) :
  TypeChecker.type_env tc <> [] ->
  same_outer_scopes tc
    (snd (TypeChecker.checkAssignment out_of_range_int tc n value)).
Proof.
  intros Hne. pose proof (same_outer_scopes_refl tc Hne) as Hrefl.
  unfold TypeChecker.checkAssignment.
  destruct (hasErrors _); [exact Hrefl|].
  destruct (TypeChecker.lookupVariable tc n).
  - destruct (negb _); exact Hrefl.
  - destruct (type _); [|exact Hrefl].
    cbn [snd]. unfold TypeChecker.markVariableModified.
    apply same_outer_scopes_context, same_outer_scopes_context.
    now apply same_outer_scopes_define.
Qed.

Lemma checkIf_outer_scopes (out_of_range_int : double -> Z)
  (check : TypeChecker.t -> option StmtAST -> TypeCheckResult * TypeChecker.t)
  (tc : TypeChecker.t) (condition : option ExprAST)
  (then_stmt else_stmt : option StmtAST) :
  (forall tc, TypeChecker.type_env tc <> [] ->
              same_outer_scopes tc (snd (check tc then_stmt))) ->
  (forall tc, TypeChecker.type_env tc <> [] ->
              same_outer_scopes tc (snd (check tc else_stmt))) ->
  TypeChecker.type_env tc <> [] ->
  same_outer_scopes tc
    (snd (TypeChecker.checkIf out_of_range_int check tc condition
            then_stmt else_stmt)).
Proof.
  intros Hthen Helse Hne. pose proof (same_outer_scopes_refl tc Hne) as Hrefl.
  unfold TypeChecker.checkIf.
  destruct (hasErrors _); [exact Hrefl|].
  destruct (type _); [|exact Hrefl].
  destruct (negb _ && negb _); [exact Hrefl|].
  specialize (Hthen tc Hne).
  destruct (check tc then_stmt) as [then_result tc1]; cbn [snd] in Hthen.
  destruct else_stmt as [s|]; cbn [snd].
  - assert (TypeChecker.type_env tc1 <> []) as Hne1 by apply Hthen.
    specialize (Helse tc1 Hne1).
    destruct (check tc1 (Some s)) as [else_result tc2]; cbn [snd] in *.
    apply same_outer_scopes_context.
    now apply (same_outer_scopes_trans tc tc1 tc2).
  - now apply same_outer_scopes_context.
Qed.

Lemma checkWhile_outer_scopes (out_of_range_int : double -> Z)
  (check : TypeChecker.t -> option StmtAST -> TypeCheckResult * TypeChecker.t)
  (tc : TypeChecker.t) (condition : option ExprAST) (body : option StmtAST) :
  (forall tc, TypeChecker.type_env tc <> [] ->
              same_outer_scopes tc (snd (check tc body))) ->
  TypeChecker.type_env tc <> [] ->
  same_outer_scopes tc
    (snd (TypeChecker.checkWhile out_of_range_int check tc condition body)).
Proof.
  intros Hbody Hne. pose proof (same_outer_scopes_refl tc Hne) as Hrefl.
  unfold TypeChecker.checkWhile.
  destruct (hasErrors _); [exact Hrefl|].
  destruct (type _); [|exact Hrefl].
  destruct (negb _ && negb _); [exact Hrefl|].
  specialize (Hbody tc Hne).
  destruct (check tc body) as [body_result tc1]; exact Hbody.
Qed.

Lemma checkStatements_outer_scopes
  (check : TypeChecker.t -> option StmtAST -> TypeCheckResult * TypeChecker.t)
  (statements : list (option StmtAST)) :
  Forall (fun s => forall tc, TypeChecker.type_env tc <> [] ->
                     same_outer_scopes tc (snd (check tc s))) statements ->
  forall result tc,
    TypeChecker.type_env tc <> [] ->
    same_outer_scopes tc
      (snd (TypeChecker.checkStatements check statements result tc)).
Proof.
  induction 1 as [|s rest Hs _ IH]; intros result tc Hne;
    cbn [TypeChecker.checkStatements].
  - now apply same_outer_scopes_refl.
  - specialize (Hs tc Hne).
    destruct (check tc s) as [stmt_result tc1]; cbn [snd] in Hs.
    eapply same_outer_scopes_trans; [exact Hs|].
    apply IH. apply Hs.
Qed.

(** A block leaves the type environment as it found it. *)
Lemma checkBlock_environment
  (check : TypeChecker.t -> option StmtAST -> TypeCheckResult * TypeChecker.t)
  (tc : TypeChecker.t) (statements : list (option StmtAST)) :
  Forall (fun s => forall tc, TypeChecker.type_env tc <> [] ->
                     same_outer_scopes tc (snd (check tc s))) statements ->
  TypeChecker.type_env tc <> [] ->
  TypeChecker.type_env (snd (TypeChecker.checkBlock check tc statements))
    = TypeChecker.type_env tc /\
  same_outer_scopes tc (snd (TypeChecker.checkBlock check tc statements)).
Proof.
  intros Hall Hne. unfold TypeChecker.checkBlock.
  pose proof (checkStatements_outer_scopes check statements Hall
                (result_of TypeFactory.createVoid) (TypeChecker.pushScope tc))
    as Hloop.
  destruct (TypeChecker.checkStatements check statements _ _) as [result tc1].
  cbn [snd] in *.
  destruct Hloop as (Hne1 & Ht & He & Hw); [discriminate|].
  cbn in Ht.
  unfold same_outer_scopes, TypeChecker.popScope, TypeEnvironment.popScope;
    cbn.
  destruct (TypeChecker.type_env tc1) as [|top rest]; [congruence|].
  cbn in Ht. subst rest.
  destruct (TypeChecker.type_env tc) as [|back outer]; [congruence|].
  cbn. repeat split; try assumption; discriminate.
Qed.

Lemma checkStmt_outer_scopes (out_of_range_int : double -> Z) (s : StmtAST) :
  forall tc, TypeChecker.type_env tc <> [] ->
    same_outer_scopes tc (snd (TypeChecker.checkStmt out_of_range_int tc s)).
Proof.
  induction s as [n value | expression | statements IH
                 | condition then_stmt else_stmt IHt IHe
                 | condition body IHb | value | expression]
    using StmtAST_nested_ind; intros tc Hne; cbn [TypeChecker.checkStmt].
  - now apply checkAssignment_outer_scopes.
  - now apply same_outer_scopes_refl.
  - apply checkBlock_environment; [|exact Hne].
    eapply Forall_impl; [exact IH|].
    intros [s|] Hs tc' Hne'; [now apply Hs | now apply same_outer_scopes_refl].
  - apply checkIf_outer_scopes; [| |exact Hne].
    + destruct then_stmt; intros tc' Hne';
        [now apply IHt | now apply same_outer_scopes_refl].
    + destruct else_stmt; intros tc' Hne';
        [now apply IHe | now apply same_outer_scopes_refl].
  - apply checkWhile_outer_scopes; [|exact Hne].
    destruct body; intros tc' Hne';
      [now apply IHb | now apply same_outer_scopes_refl].
  - unfold TypeChecker.checkReturn.
    destruct value; now apply same_outer_scopes_refl.
  - unfold TypeChecker.checkPrint.
    destruct (hasErrors _); now apply same_outer_scopes_refl.
Qed.

(** X18.  Checking a statement changes at most the innermost scope of the
    type environment: the scopes around it are left as they were, no scope
    is added or removed, and nothing is reported to the checker's lists of
    error and warning messages. *)
Theorem checkStatement_outer_scopes (out_of_range_int : double -> Z)
  (tc : TypeChecker.t) (stmt : option StmtAST) :
  TypeChecker.type_env tc <> [] ->
  same_outer_scopes tc
    (snd (TypeChecker.checkStatement out_of_range_int tc stmt)).
Proof.
  intros Hne. destruct stmt as [s|]; cbn [TypeChecker.checkStatement].
  - now apply checkStmt_outer_scopes.
  - now apply same_outer_scopes_refl.
Qed.

Lemma checkStatement_outer_scopes_witness :
  same_outer_scopes checker_with_c
    (snd (TypeChecker.checkStatement TypeChecker.cvttsd2si_indefinite
            checker_with_c
            (Some (if_else_program (Some (VariableExprAST "c")) "x")))).
Proof.
  apply (checkStatement_outer_scopes TypeChecker.cvttsd2si_indefinite
           checker_with_c).
  discriminate.
Defined.

Lemma define_parameters_outer (tc : TypeChecker.t) (params : list string) :
  TypeChecker.type_env tc <> [] ->
  same_outer_scopes tc
    (fold_left (fun tc param_name =>
                  TypeChecker.defineVariable tc param_name
                    TypeFactory.createFloat) params tc).
Proof.
  intros Hne.
  assert (forall tc', same_outer_scopes tc tc' ->
            same_outer_scopes tc
              (fold_left (fun tc param_name =>
                            TypeChecker.defineVariable tc param_name
                              TypeFactory.createFloat) params tc')) as Hfold.
  { induction params as [|p params IH]; intros tc' H; [exact H|].
    simpl. apply IH. now apply same_outer_scopes_define. }
  apply Hfold. now apply same_outer_scopes_refl.
Qed.

Lemma checkFunction_environment (out_of_range_int : double -> Z)
  (tc : TypeChecker.t) (function : FunctionAST) :
  TypeChecker.type_env tc <> [] ->
  same_outer_scopes tc
    (snd (TypeChecker.checkFunction out_of_range_int tc function)) /\
  TypeChecker.type_env
    (snd (TypeChecker.checkFunction out_of_range_int tc function))
  = TypeChecker.type_env tc /\
  TypeChecker.current_context
    (snd (TypeChecker.checkFunction out_of_range_int tc function))
  = TypeChecker.current_context
      (snd (TypeChecker.checkStatement out_of_range_int
              (fold_left (fun tc param_name =>
                            TypeChecker.defineVariable tc param_name
                              TypeFactory.createFloat)
                 (fn_args function) (TypeChecker.pushScope tc))
              (fn_body function))).
Proof.
  intros Hne. unfold TypeChecker.checkFunction.
  pose proof (define_parameters_outer (TypeChecker.pushScope tc)
                (fn_args function)) as Hparams.
  destruct Hparams as (Hne1 & Ht1 & He1 & Hw1); [discriminate|].
  set (tc1 := fold_left _ (fn_args function) (TypeChecker.pushScope tc)) in *.
  assert (same_outer_scopes tc1
            (snd (TypeChecker.checkStatement out_of_range_int tc1
                    (fn_body function)))) as (Hne2 & Ht2 & He2 & Hw2).
  { destruct (fn_body function) as [s|]; cbn [TypeChecker.checkStatement].
    - now apply checkStmt_outer_scopes.
    - now apply same_outer_scopes_refl. }
  destruct (TypeChecker.checkStatement out_of_range_int tc1
              (fn_body function)) as [body_result tc2].
  cbn [snd] in *. cbn in Ht1, He1, Hw1.
  unfold same_outer_scopes, TypeChecker.popScope, TypeEnvironment.popScope;
    cbn.
  destruct (TypeChecker.type_env tc2) as [|top rest]; [congruence|].
  cbn in Ht2. rewrite Ht1 in Ht2. subst rest.
  destruct (TypeChecker.type_env tc) as [|back outer]; [congruence|].
  cbn. repeat split; try congruence; discriminate.
Qed.

(** X19.  A block and a function are scopes of their own: after
    [checkBlock], and after [checkFunction], the type environment is the
    one before the call, so neither the parameters nor what the body
    defined is visible in it. *)
Theorem checkFunction_restores_environment (out_of_range_int : double -> Z)
  (tc : TypeChecker.t) :
  TypeChecker.type_env tc <> [] ->
  (forall function,
     TypeChecker.type_env
       (snd (TypeChecker.checkFunction out_of_range_int tc function))
     = TypeChecker.type_env tc) /\
  (forall statements,
     TypeChecker.type_env
       (snd (TypeChecker.checkStatement out_of_range_int tc
               (Some (BlockStmtAST statements))))
     = TypeChecker.type_env tc).
Proof.
  intros Hne. split.
  - intros function.
    now apply (checkFunction_environment out_of_range_int tc function).
  - intros statements. cbn [TypeChecker.checkStatement TypeChecker.checkStmt].
    apply checkBlock_environment; [|exact Hne].
    apply Forall_forall. intros [s|] _ tc' Hne'.
    + now apply checkStmt_outer_scopes.
    + now apply same_outer_scopes_refl.
Qed.

Lemma checkFunction_restores_environment_witness :
  TypeChecker.type_env
    (snd (TypeChecker.checkFunction TypeChecker.cvttsd2si_indefinite
            TypeChecker.create
            (mkFunctionAST "f" ["c"]
               (Some (if_else_program (Some (VariableExprAST "c")) "x")))))
  = TypeChecker.type_env TypeChecker.create.
Proof.
  apply (proj1 (checkFunction_restores_environment
                  TypeChecker.cvttsd2si_indefinite TypeChecker.create
                  ltac:(discriminate))).
Defined.

(* ------------------------------------------------------------------ *)
(** ** Counters of the type-directed pass                              *)
(* ------------------------------------------------------------------ *)

Ltac counted_rewrite :=
  unfold TD.rewrite, counted, TD.count_integer_arithmetic,
    TD.count_multiplication_to_shift, TD.count_division_to_shift,
    TD.count_cast_eliminated in *;
  cbn [TD.fn TD.stats TD.toErase TD.changed
       TD.specializations_applied TD.type_casts_eliminated
       TD.numeric_optimizations TD.integer_arithmetic_optimized
       TD.divisions_to_shifts TD.multiplication_to_shifts] in *;
  rewrite length_app; cbn [length];
  repeat split; try lia;
  symmetry; apply Nat.ltb_lt; lia.

Lemma optimizeNumericInstruction_counted (s : TD.TypeOptimizationStats)
  (st : TD.traversal) (id : nat) :
  counted s st -> counted s (TD.optimizeNumericInstruction st id).
Proof.
  intros H. unfold TD.optimizeNumericInstruction.
  destruct (IR.find_instruction (TD.fn st) id) as [inst|]; [|exact H].
  destruct (IR.inst_kind inst) as [opcode a b | pred a b | | | | | | | |];
    try exact H.
  - destruct (TD.isIntegerConstant a) as [x|]; [|exact H].
    destruct (TD.isIntegerConstant b) as [y|]; [|exact H].
    destruct opcode; try exact H;
      try (destruct ((0 <? y)%Z && (Z.land y (y - 1) =? 0)%Z); [|exact H]);
      counted_rewrite.
  - destruct (TD.isIntegerConstant a) as [x|]; [|exact H].
    destruct (TD.isIntegerConstant b) as [y|]; [|exact H].
    destruct (TD.intPredicate pred); [|exact H].
    counted_rewrite.
Qed.

Lemma eliminateCastInstruction_counted
  (getCastOpcode : IR.LType -> bool -> IR.LType -> bool -> IR.CastOps)
  (castIsValid : IR.CastOps -> IR.LType -> IR.LType -> bool)
  (s : TD.TypeOptimizationStats) (st : TD.traversal) (id : nat) :
  counted s st ->
  counted s (TD.eliminateCastInstruction getCastOpcode castIsValid st id).
Proof.
  intros H. unfold TD.eliminateCastInstruction.
  destruct (IR.find_instruction (TD.fn st) id) as [inst|]; [|exact H].
  destruct (IR.inst_kind inst) as [| | | op src dst operand | | | | | |];
    try exact H.
  destruct (IR.LType_eqb src dst); [counted_rewrite|].
  destruct operand as [| | | inner]; try exact H.
  destruct (option_map IR.inst_kind (IR.find_instruction (TD.fn st) inner))
    as [[| | | iop isrc idst ioperand | | | | | |]|]; try exact H.
  destruct (IR.LType_eqb isrc dst); [counted_rewrite|].
  destruct (castIsValid (getCastOpcode isrc false dst false) isrc dst);
    [|exact H].
  counted_rewrite.
Qed.

Lemma traverse_counted (step : TD.traversal -> nat -> TD.traversal)
  (F : IR.Function) (s : TD.TypeOptimizationStats) :
  (forall st id, counted s st -> counted s (step st id)) ->
  exists st, TD.traverse step F s
             = (IR.erase_all (TD.fn st) (TD.toErase st), TD.stats st,
                TD.changed st) /\
             counted s st.
Proof.
  intros Hstep. unfold TD.traverse.
  eexists; split; [reflexivity|].
  assert (forall l st, counted s st -> counted s (fold_left step l st)) as Hfold.
  { induction l as [|id l IH]; intros st H; [exact H|].
    cbn [fold_left]. now apply IH, Hstep. }
  apply Hfold. unfold counted; cbn. repeat split; lia.
Qed.

Lemma specializeGenericFunctions_counts (M : IR.Module) (F : IR.Function)
  (s : TD.TypeOptimizationStats) :
  let s' := fst (TD.specializeGenericFunctions M F s) in
  TD.specializations_applied s <= TD.specializations_applied s' /\
  TD.type_casts_eliminated s' = TD.type_casts_eliminated s /\
  TD.numeric_optimizations s' = TD.numeric_optimizations s /\
  TD.integer_arithmetic_optimized s' = TD.integer_arithmetic_optimized s /\
  TD.divisions_to_shifts s' = TD.divisions_to_shifts s /\
  TD.multiplication_to_shifts s' = TD.multiplication_to_shifts s.
Proof.
  unfold TD.specializeGenericFunctions. cbn [fst]. cbn zeta.
  revert s. induction (IR.all_instructions F) as [|inst l IH]; intros s.
  - cbn. repeat split; lia.
  - cbn [fold_left].
    destruct (IR.inst_kind inst) as [| | | | [callee|] ? | | | | |];
      try apply IH.
    destruct (IR.getFunction M callee) as [calledFunc|]; [|apply IH].
    destruct (TD.canSpecializeFunction (Some calledFunc)); [|apply IH].
    destruct (IH (TD.count_specialization s)) as (H1 & H2 & H3 & H4 & H5 & H6).
    change (TD.specializations_applied (TD.count_specialization s))
      with (S (TD.specializations_applied s)) in H1.
    change (TD.type_casts_eliminated (TD.count_specialization s))
      with (TD.type_casts_eliminated s) in H2.
    change (TD.numeric_optimizations (TD.count_specialization s))
      with (TD.numeric_optimizations s) in H3.
    change (TD.integer_arithmetic_optimized (TD.count_specialization s))
      with (TD.integer_arithmetic_optimized s) in H4.
    change (TD.divisions_to_shifts (TD.count_specialization s))
      with (TD.divisions_to_shifts s) in H5.
    change (TD.multiplication_to_shifts (TD.count_specialization s))
      with (TD.multiplication_to_shifts s) in H6.
    repeat split; try assumption. lia.
Qed.

(** X20.  Whatever the function and the counters the pass starts with, a
    run of the type-directed pass never lowers a counter; it adds to
    [numeric_optimizations] what it adds to the three counters of integer
    arithmetic, multiplications and divisions together; and it reports a
    change exactly when it counted a numeric optimization or an eliminated
    cast.  Counting a specialization reports no change. *)
Theorem run_counters_consistent
  (getCastOpcode : IR.LType -> bool -> IR.LType -> bool -> IR.CastOps)
  (castIsValid : IR.CastOps -> IR.LType -> IR.LType -> bool)
  (M : IR.Module) (F : IR.Function) (s : TD.TypeOptimizationStats) :
  let result := TD.run getCastOpcode castIsValid M F s in
  let s' := snd (fst result) in
  (TD.numeric_optimizations s' +
     (TD.integer_arithmetic_optimized s + TD.divisions_to_shifts s +
      TD.multiplication_to_shifts s) =
   TD.numeric_optimizations s +
     (TD.integer_arithmetic_optimized s' + TD.divisions_to_shifts s' +
      TD.multiplication_to_shifts s')) /\
  (snd result = true <->
   TD.numeric_optimizations s + TD.type_casts_eliminated s <
   TD.numeric_optimizations s' + TD.type_casts_eliminated s') /\
  (TD.specializations_applied s <= TD.specializations_applied s' /\
   TD.type_casts_eliminated s <= TD.type_casts_eliminated s' /\
   TD.numeric_optimizations s <= TD.numeric_optimizations s' /\
   TD.integer_arithmetic_optimized s <= TD.integer_arithmetic_optimized s' /\
   TD.divisions_to_shifts s <= TD.divisions_to_shifts s' /\
   TD.multiplication_to_shifts s <= TD.multiplication_to_shifts s').
Proof.
  intros result s'. subst s' result.
  unfold TD.run, TD.optimizeNumericOperations, TD.eliminateUnnecessaryTypeCasts.
  destruct (traverse_counted TD.optimizeNumericInstruction F s
              (optimizeNumericInstruction_counted s)) as (st1 & -> & H1).
  destruct (traverse_counted
              (TD.eliminateCastInstruction getCastOpcode castIsValid)
              (IR.erase_all (TD.fn st1) (TD.toErase st1)) (TD.stats st1)
              (eliminateCastInstruction_counted getCastOpcode castIsValid
                 (TD.stats st1))) as (st2 & -> & H2).
  pose proof (specializeGenericFunctions_counts M
                (IR.erase_all (TD.fn st2) (TD.toErase st2)) (TD.stats st2))
    as H3.
  destruct (TD.specializeGenericFunctions M
              (IR.erase_all (TD.fn st2) (TD.toErase st2)) (TD.stats st2))
    as [s3 c3] eqn:E3.
  assert (c3 = false) as ->
    by (unfold TD.specializeGenericFunctions in E3; now inversion E3).
  cbn [fst snd] in *.
  unfold TD.optimizePolymorphicCalls, TD.inlineMonomorphicFunctions.
  rewrite !orb_false_r.
  unfold counted in H1, H2. cbn zeta in H1, H2.
  destruct H1 as (A1 & A2 & A3 & A4 & A5 & A6 & A7 & A8 & A9).
  destruct H2 as (B1 & B2 & B3 & B4 & B5 & B6 & B7 & B8 & B9).
  destruct H3 as (C1 & C2 & C3 & C4 & C5 & C6).
  split; [lia|]. split; [|repeat split; lia].
  rewrite A9, B9. split.
  - intros H. apply orb_prop in H as [H | H]; apply Nat.ltb_lt in H; lia.
  - intros H. apply orb_true_iff.
    destruct (TD.toErase st1) as [|x l1]; [right | left; reflexivity].
    apply Nat.ltb_lt. cbn [length] in *. lia.
Qed.



(* ------------------------------------------------------------------ *)
(** ** The inlining pass                                               *)
(* ------------------------------------------------------------------ *)

Lemma calculateInstructionCount_lower_bound (l : list IR.Instruction) (count : Z) :
  (count + Z.of_nat (length l) +
   5 * Z.of_nat (length (List.filter QuillFunctionInliningPass.is_call l))
   <= fold_left (fun count inst =>
        let count := (count + 1)%Z in
        match IR.inst_kind inst with
        | IR.CallInst _ _ => (count + 5)%Z
        | IR.BranchInst _ => (count + 1)%Z
        | IR.LoadInst _ | IR.StoreInst _ _ => (count + 2)%Z
        | _ => count
        end) l count)%Z.
Proof.
  revert count. induction l as [|inst l IH]; intros count.
  - cbn. lia.
  - cbn [fold_left length List.filter].
    unfold QuillFunctionInliningPass.is_call at 1.
    etransitivity; [|apply IH].
    destruct (IR.inst_kind inst); cbn zeta; cbn [length]; lia.
Qed.

(** X22.  A function that [shouldInlineFunction] accepts is not [main], has
    one to three basic blocks, at most twenty instructions and at most
    three calls among them. *)
Theorem shouldInlineFunction_bounds (f : IR.Function) :
  QuillFunctionInliningPass.shouldInlineFunction (Some f) = true ->
  IR.getName f <> "main" /\
  1 <= IR.size f <= 3 /\
  length (IR.all_instructions f) <= 20 /\
  length (List.filter QuillFunctionInliningPass.is_call
            (IR.all_instructions f)) <= 3.
Proof.
  unfold QuillFunctionInliningPass.shouldInlineFunction, IR.isDeclaration,
    IR.size, QuillFunctionInliningPass.calculateInstructionCount,
    QuillFunctionInliningPass.INLINE_THRESHOLD.
  destruct (IR.blocks f) as [|B Bs] eqn:EB; [discriminate|].
  destruct (String.eqb (IR.getName f) "main") eqn:En; [discriminate|].
  destruct (3 <? length (B :: Bs))%nat eqn:Es; [discriminate|].
  intros Hcount. apply Z.leb_le in Hcount.
  apply String.eqb_neq in En. apply Nat.ltb_ge in Es.
  pose proof (calculateInstructionCount_lower_bound (IR.all_instructions f) 0)
    as Hlow.
  pose proof (List.filter_length_le QuillFunctionInliningPass.is_call
                (IR.all_instructions f)) as Hcalls.
  cbn zeta in Hlow, Hcount. cbn [length] in *.
  repeat split; try assumption; lia.
Qed.

Lemma shouldInlineFunction_bounds_witness :
  IR.getName square <> "main" /\
  1 <= IR.size square <= 3 /\
  length (IR.all_instructions square) <= 20 /\
  length (List.filter QuillFunctionInliningPass.is_call
            (IR.all_instructions square)) <= 3.
Proof. apply (shouldInlineFunction_bounds square). reflexivity. Defined.

(** X23.  The inlining pass reports a change exactly when it inlined a
    call; when it inlined none the module is the one it was given; and
    every call it inlined is one it queued in its first loop, so it inlines
    at most as many calls as it queued. *)
Theorem inlineSmallFunctions_log
  (InlineFunction : IR.Module -> nat -> option IR.Module) (M : IR.Module) :
  let result := QuillFunctionInliningPass.inlineSmallFunctions InlineFunction M in
  let inlined := snd result in
  (snd (fst result) = true <-> inlined <> []) /\
  (inlined = [] -> fst (fst result) = M) /\
  Forall (fun e => In (QuillFunctionInliningPass.inlined_call e)
                      (QuillFunctionInliningPass.callsToInline M)) inlined /\
  length inlined <= length (QuillFunctionInliningPass.callsToInline M).
Proof.
  cbn zeta. unfold QuillFunctionInliningPass.inlineSmallFunctions.
  set (queue := QuillFunctionInliningPass.callsToInline M).
  assert (forall done todo st,
            (snd (fst st) = true <-> snd st <> []) ->
            (snd st = [] -> fst (fst st) = M) ->
            Forall (fun e => In (QuillFunctionInliningPass.inlined_call e)
                                (done ++ todo)) (snd st) ->
            length (snd st) <= length done ->
            let st' := fold_left
                         (QuillFunctionInliningPass.inline_call InlineFunction)
                         todo st in
            (snd (fst st') = true <-> snd st' <> []) /\
            (snd st' = [] -> fst (fst st') = M) /\
            Forall (fun e => In (QuillFunctionInliningPass.inlined_call e)
                                (done ++ todo)) (snd st') /\
            length (snd st') <= length (done ++ todo)) as Hfold.
  { intros done todo. revert done.
    induction todo as [|call todo IH]; intros done st H1 H2 H3 H4; cbn zeta.
    - cbn [fold_left]. rewrite app_nil_r in *. auto.
    - cbn [fold_left].
      replace (done ++ call :: todo)%list with ((done ++ [call]) ++ todo)%list
        in * by (now rewrite <- app_assoc).
      apply IH; clear IH;
        destruct st as [[M0 changed] inlined];
        unfold QuillFunctionInliningPass.inline_call;
        destruct (QuillFunctionInliningPass.find_call M0 call) as [[caller inst]|];
        cbn [fst snd] in *; try assumption;
        try (rewrite length_app; cbn [length]; lia);
        destruct (QuillFunctionInliningPass.getCalledFunction M0 inst) as [callee|];
        cbn [fst snd] in *; try assumption;
        try (rewrite length_app; cbn [length]; lia);
        destruct (String.eqb (IR.getName caller) (IR.getName callee));
        cbn [fst snd] in *; try assumption;
        try (rewrite length_app; cbn [length]; lia);
        destruct (QuillFunctionInliningPass.isRecursive M0 callee);
        cbn [fst snd] in *; try assumption;
        try (rewrite length_app; cbn [length]; lia);
        destruct (InlineFunction M0 call) as [M'|];
        cbn [fst snd] in *; try assumption;
        try (rewrite !length_app; cbn [length]; lia).
      + split; [intros _ | reflexivity].
        intros Habs. now apply app_eq_nil in Habs as [_ Habs].
      + intros Habs. now apply app_eq_nil in Habs as [_ Habs].
      + apply Forall_app. split; [exact H3|].
        constructor; [|constructor]. cbn.
        apply in_or_app. left. apply in_or_app. right. now left. }
  apply (Hfold [] queue (M, false, [])); cbn [fst snd].
  - split; [discriminate | congruence].
  - reflexivity.
  - constructor.
  - cbn. lia.
Qed.

(* ------------------------------------------------------------------ *)
(** ** The optimization manager below [O3]                             *)
(* ------------------------------------------------------------------ *)

Lemma run_functions_empty_pipeline
  (run_llvm_pass : OM.FunctionPass -> IR.Function -> IR.Function)
  (getCastOpcode : IR.LType -> bool -> IR.LType -> bool -> IR.CastOps)
  (castIsValid : IR.CastOps -> IR.LType -> IR.LType -> bool)
  (after before : IR.Module) (objs : gmap nat TD.TypeOptimizationStats) :
  OM.run_functions run_llvm_pass getCastOpcode castIsValid [] before after objs
  = ((before ++ after)%list, objs).
Proof.
  revert before. induction after as [|F after IH]; intros before;
    cbn [OM.run_functions].
  - now rewrite app_nil_r.
  - destruct (negb (IR.isDeclaration F)); cbn [OM.run_function_pm fold_left];
      rewrite IH, <- app_assoc; reflexivity.
Qed.

(** X24.  The report of a run: the counters of eliminated instructions,
    folded constants, inlined functions and optimized loops are zero after
    every call of [runOptimizations], whatever the manager and the module,
    and the time is the measured one; a manager constructed at [O0], [O1]
    or [O2] reports zero on the other counters as well; and at [O0] the
    module is left as it was. *)
Theorem runOptimizations_report (addPass_copies : bool)
  (run_llvm_pass : OM.FunctionPass -> IR.Function -> IR.Function)
  (getCastOpcode : IR.LType -> bool -> IR.LType -> bool -> IR.CastOps)
  (castIsValid : IR.CastOps -> IR.LType -> IR.LType -> bool)
  (M : IR.Module) (elapsed_ms : double) :
  (forall mgr,
     let report := OM.stats (fst (OM.runOptimizations run_llvm_pass
                                    getCastOpcode castIsValid mgr M elapsed_ms)) in
     OM.instructions_eliminated report = 0 /\
     OM.constants_folded report = 0 /\
     OM.functions_inlined report = 0 /\
     OM.loops_optimized report = 0 /\
     OM.optimization_time_ms report = elapsed_ms) /\
  Forall (fun level =>
            OM.stats (fst (OM.runOptimizations run_llvm_pass getCastOpcode
                             castIsValid (OM.create addPass_copies level)
                             M elapsed_ms))
            = OM.mkStats 0 0 0 0 elapsed_ms 0 0 0 0 0)
         [OM.O0; OM.O1; OM.O2] /\
  snd (OM.runOptimizations run_llvm_pass getCastOpcode castIsValid
         (OM.create addPass_copies OM.O0) M elapsed_ms) = M.
Proof.
  split; [|split].
  - intros mgr. cbn zeta. unfold OM.runOptimizations.
    destruct (OM.run_functions _ _ _ _ _ _ _) as [module' objs].
    cbn [fst OM.stats].
    destruct (OM.type_directed_pass mgr) as [p|]; [|repeat split].
    destruct (objs !! p); repeat split.
  - repeat constructor; unfold OM.runOptimizations;
      cbn [OM.create OM.setupPassPipeline OM.opt_level OM.function_pm
           OM.pass_objects OM.type_directed_pass OM.stats];
      destruct (OM.run_functions _ _ _ _ _ _ _) as [module' objs];
      reflexivity.
  - unfold OM.runOptimizations.
    cbn [OM.create OM.setupPassPipeline OM.opt_level OM.function_pm
         OM.pass_objects OM.type_directed_pass OM.stats].
    rewrite run_functions_empty_pipeline. reflexivity.
Qed.

(* ------------------------------------------------------------------ *)
(** ** Evaluation of rewritten straight-line code                      *)
(* ------------------------------------------------------------------ *)



Lemma all_instructions_map_blocks
  (f : list IR.Instruction -> list IR.Instruction) (F : IR.Function) :
  IR.all_instructions (IR.map_blocks f F)
  = concat (map (fun B => f (IR.instructions B)) (IR.blocks F)).
Proof.
  unfold IR.all_instructions, IR.map_blocks. cbn [IR.blocks].
  now rewrite map_map.
Qed.

Lemma all_instructions_erase_all (F : IR.Function) (toErase : list nat) :
  IR.all_instructions (IR.erase_all F toErase)
  = filter (fun inst => IR.inst_id inst ∉ toErase) (IR.all_instructions F).
Proof.
  unfold IR.erase_all. rewrite all_instructions_map_blocks.
  unfold IR.all_instructions.
  induction (IR.blocks F) as [|B Bs IH]; [reflexivity|].
  cbn [map concat]. now rewrite filter_app, IH.
Qed.












(* ------------------------------------------------------------------ *)
(** ** Constant folding                                                *)
(* ------------------------------------------------------------------ *)

Lemma evaluateConstantExpression_constants
  (fmod : double -> double -> double)
  (opcode : IR.BinaryOps) (op0 op1 result : IR.Value) :
  QuillConstantFoldingPass.evaluateConstantExpression fmod opcode op0 op1
    = Some result ->
  exists lval rval z,
    op0 = IR.ConstantFP lval /\ op1 = IR.ConstantFP rval /\
    result = IR.ConstantFP z /\
    (forall r, IR.eval_binop opcode (IR.RDouble lval) (IR.RDouble rval) = Some r ->
               r = IR.RDouble z).
Proof.
  unfold QuillConstantFoldingPass.evaluateConstantExpression.
  destruct op0 as [lval| | |]; try (intros H; discriminate H).
  destruct op1 as [rval| | |]; try (intros H; discriminate H).
  destruct opcode; try (intros H; discriminate H);
    try (destruct (double_eqb rval (S754_zero false));
         [intros H; discriminate H|]);
    intros H; injection H as <-; eexists lval, rval, _;
    (split; [reflexivity|]; split; [reflexivity|]; split; [reflexivity|]);
    intros r Hr; cbn in Hr; try discriminate Hr; now injection Hr as <-.
Qed.

(** X25.  [evaluateConstantExpression] folds nothing but a floating-point
    operation on two constants, leaves a division or a remainder by zero of
    either sign alone, and, the remainder apart, returns the constant that
    the operation evaluates to. *)
Theorem evaluateConstantExpression_sound (fmod : double -> double -> double)
  (opcode : IR.BinaryOps) (op0 op1 result : IR.Value) :
  QuillConstantFoldingPass.evaluateConstantExpression fmod opcode op0 op1
    = Some result ->
  exists lval rval z,
    op0 = IR.ConstantFP lval /\ op1 = IR.ConstantFP rval /\
    result = IR.ConstantFP z /\
    (opcode = IR.FDiv \/ opcode = IR.FRem ->
     rval <> S754_zero false /\ rval <> S754_zero true) /\
    (forall r, IR.eval_binop opcode (IR.RDouble lval) (IR.RDouble rval) = Some r ->
               r = IR.RDouble z).
Proof.
  intros H.
  destruct (evaluateConstantExpression_constants fmod opcode op0 op1 result H)
    as (lval & rval & z & -> & -> & -> & Hz).
  exists lval, rval, z.
  split; [reflexivity|]. split; [reflexivity|]. split; [reflexivity|].
  split; [|exact Hz].
  unfold QuillConstantFoldingPass.evaluateConstantExpression in H.
  intros [-> | ->];
    (destruct (double_eqb rval (S754_zero false)) eqn:E; [discriminate H|]);
    split; intros ->; discriminate E.
Qed.

Lemma evaluateConstantExpression_sound_witness :
  exists lval rval z,
    IR.ConstantFP (double_of_Z 1) = IR.ConstantFP lval /\
    IR.ConstantFP (double_of_Z 2) = IR.ConstantFP rval /\
    IR.ConstantFP (binary_normalize dprec demax 1 (-1) false) = IR.ConstantFP z /\
    (IR.FDiv = IR.FDiv \/ IR.FDiv = IR.FRem ->
     rval <> S754_zero false /\ rval <> S754_zero true) /\
    (forall r, IR.eval_binop IR.FDiv (IR.RDouble lval) (IR.RDouble rval) = Some r ->
               r = IR.RDouble z).
Proof.
  apply (evaluateConstantExpression_sound (fun x _ => x) IR.FDiv
           (IR.ConstantFP (double_of_Z 1)) (IR.ConstantFP (double_of_Z 2))).
  vm_compute. reflexivity.
Defined.







(* ------------------------------------------------------------------ *)
(** ** Dead code elimination                                           *)
(* ------------------------------------------------------------------ *)

Lemma deadInstructions_elem (mayHaveSideEffects : IR.Instruction -> bool)
  (F : IR.Function) (id : nat) :
  id ∈ DCE.deadInstructions mayHaveSideEffects F ->
  exists d, d ∈ IR.all_instructions F /\ IR.inst_id d = id /\
            DCE.isInstructionDead mayHaveSideEffects F d = true.
Proof.
  unfold DCE.deadInstructions. intros Hin.
  apply list_elem_of_In, in_map_iff in Hin as (d & Hid & Hd).
  apply filter_In in Hd as [Hd Hdead].
  exists d. split; [now apply list_elem_of_In | now split].
Qed.



Lemma erase_dead_shorter (mayHaveSideEffects : IR.Instruction -> bool)
  (F : IR.Function) :
  DCE.deadInstructions mayHaveSideEffects F <> [] ->
  length (IR.all_instructions
            (IR.erase_all F (DCE.deadInstructions mayHaveSideEffects F)))
  < length (IR.all_instructions F).
Proof.
  intros Hne. rewrite all_instructions_erase_all.
  destruct (DCE.deadInstructions mayHaveSideEffects F) as [|id rest] eqn:E;
    [congruence|].
  destruct (deadInstructions_elem mayHaveSideEffects F id) as (d & Hd & Hid & _).
  { rewrite E. left. }
  apply (length_filter_lt _ _ d Hd). intros Hnot. apply Hnot.
  rewrite Hid. left.
Qed.

Lemma eliminate_loop_spec (mayHaveSideEffects : IR.Instruction -> bool)
  (fuel : nat) :
  forall (F : IR.Function) (changed : bool),
    length (IR.all_instructions F) < fuel ->
    exists F' changed',
      DCE.eliminate_loop mayHaveSideEffects fuel F changed = Some (F', changed') /\
      DCE.deadInstructions mayHaveSideEffects F' = [] /\
      (changed' = true <->
       changed = true \/ DCE.deadInstructions mayHaveSideEffects F <> []) /\
      (DCE.deadInstructions mayHaveSideEffects F = [] -> F' = F) /\
      length (IR.all_instructions F') <= length (IR.all_instructions F).
Proof.
  induction fuel as [|fuel IH]; intros F changed Hlen; [lia|].
  cbn [DCE.eliminate_loop].
  destruct (DCE.deadInstructions mayHaveSideEffects F) as [|id rest] eqn:E.
  - exists F, changed. repeat split; auto. intros [H | H]; [exact H | congruence].
  - pose proof (erase_dead_shorter mayHaveSideEffects F) as Hshort.
    rewrite E in Hshort. specialize (Hshort ltac:(discriminate)).
    destruct (IH (IR.erase_all F (id :: rest)) true ltac:(lia))
      as (F' & c & Hrun & Hfix & Hc & _ & Hle).
    exists F', c. split; [exact Hrun|]. split; [exact Hfix|].
    split; [|split; [discriminate | lia]].
    split; [intros _; right; discriminate | intros _; apply Hc; now left].
Qed.

(** X27.  The loop of [eliminateDeadInstructions] ends: one iteration more
    than the function has instructions is always enough.  The function it
    leaves holds no dead instruction, so a second run changes nothing and
    reports no change; and it reports a change exactly when the function it
    was given held a dead instruction. *)
Theorem eliminateDeadInstructions_terminates
  (mayHaveSideEffects : IR.Instruction -> bool) (F : IR.Function)
  (fuel : nat) :
  length (IR.all_instructions F) < fuel ->
  exists F' changed,
    DCE.eliminateDeadInstructions mayHaveSideEffects fuel F
      = Some (F', changed) /\
    DCE.deadInstructions mayHaveSideEffects F' = [] /\
    (changed = true <-> DCE.deadInstructions mayHaveSideEffects F <> []) /\
    (changed = false -> F' = F) /\
    (forall again,
       DCE.eliminateDeadInstructions mayHaveSideEffects (S again) F'
       = Some (F', false)).
Proof.
  intros Hlen. unfold DCE.eliminateDeadInstructions.
  destruct (eliminate_loop_spec mayHaveSideEffects fuel F false Hlen)
    as (F' & c & Hrun & Hfix & Hc & Hsame & _).
  exists F', c. split; [exact Hrun|]. split; [exact Hfix|].
  split; [|split].
  - rewrite Hc. split; [intros [H | H]; [discriminate H | exact H] | now right].
  - intros ->. apply Hsame.
    destruct (DCE.deadInstructions mayHaveSideEffects F); [reflexivity|].
    assert (false = true) by (apply Hc; right; discriminate). discriminate.
  - intros again. cbn [DCE.eliminate_loop]. now rewrite Hfix.
Qed.

Lemma eliminateDeadInstructions_terminates_witness :
  exists F' changed,
    DCE.eliminateDeadInstructions stores_and_calls 5 constant_sum
      = Some (F', changed) /\
    DCE.deadInstructions stores_and_calls F' = [] /\
    (changed = true <-> DCE.deadInstructions stores_and_calls constant_sum <> []) /\
    (changed = false -> F' = constant_sum) /\
    (forall again,
       DCE.eliminateDeadInstructions stores_and_calls (S again) F'
       = Some (F', false)).
Proof.
  apply (eliminateDeadInstructions_terminates stores_and_calls constant_sum 5).
  vm_compute. lia.
Defined.




(* ------------------------------------------------------------------ *)
(** ** Type annotations                                                *)
(* ------------------------------------------------------------------ *)

Lemma resolveAnnotation_unfold (fuel : nat) (annotation : string) :
  TAR.resolveAnnotation (S fuel) annotation =
  if TAR.empty annotation then Some TypeFactory.createUnknown
  else if String.eqb annotation "int" then Some TypeFactory.createInt
  else if String.eqb annotation "float" then Some TypeFactory.createFloat
  else if String.eqb annotation "bool" then Some TypeFactory.createBool
  else if String.eqb annotation "str" || String.eqb annotation "string"
  then Some TypeFactory.createString
  else if String.eqb annotation "void" then Some TypeFactory.createVoid
  else if String.eqb (TAR.substr annotation 0 5) "list[" &&
          match TAR.back annotation with
          | Some c => Ascii.eqb c "]"
          | None => false
          end
  then
    match TAR.resolveAnnotation fuel
            (TAR.substr annotation 5 (String.length annotation - 6)) with
    | Some elem_type =>
        if isError elem_type then Some elem_type
        else Some (TypeFactory.createList elem_type)
    | None => None
    end
  else if String.eqb (TAR.substr annotation 0 6) "tuple[" &&
          match TAR.back annotation with
          | Some c => Ascii.eqb c "]"
          | None => false
          end
  then
    resolve_elements (TAR.resolveAnnotation fuel) TypeFactory.createTuple
      (TAR.getlines ","
         (TAR.substr annotation 6 (String.length annotation - 7)) EmptyString)
      []
  else if TAR.found " | " annotation
  then resolve_elements (TAR.resolveAnnotation fuel) TypeFactory.createUnion
         (TAR.getlines "|" annotation EmptyString) []
  else Some (TypeFactory.createError ("Unknown type annotation: " ++ annotation)).
Proof. reflexivity. Qed.

Lemma length_substring (s : string) :
  forall n m, String.length (String.substring n m s) <= m.
Proof.
  induction s as [|c s IH]; intros [|n] [|m]; cbn; try lia.
  - specialize (IH 0 m). lia.
  - apply (IH n 0).
  - apply (IH n (S m)).
Qed.

Lemma length_string_append (a b : string) :
  String.length (a ++ b) = String.length a + String.length b.
Proof.
  induction a as [|c a IH]; [reflexivity|].
  change (String.append (String c a) b) with (String c (String.append a b)).
  cbn [String.length Nat.add]. now f_equal.
Qed.

Lemma length_trim_left (s : string) :
  String.length (TAR.trim_left s) <= String.length s.
Proof.
  induction s as [|c s IH]; cbn; [lia|].
  destruct (TAR.is_blank c); cbn; lia.
Qed.

Lemma length_trim_right (s : string) :
  String.length (TAR.trim_right s) <= String.length s.
Proof.
  induction s as [|c s IH]; cbn; [lia|].
  destruct (TAR.trim_right s); [destruct (TAR.is_blank c)|]; cbn in *; lia.
Qed.

Lemma length_trim (s : string) :
  String.length (TAR.trim s) <= String.length s.
Proof.
  unfold TAR.trim.
  pose proof (length_trim_right (TAR.trim_left s)).
  pose proof (length_trim_left s). lia.
Qed.

Lemma occurrences_le (c : ascii) (s : string) :
  occurrences c s <= String.length s.
Proof.
  induction s as [|d s IH]; cbn; [lia|]. destruct (Ascii.eqb d c); lia.
Qed.

(** What [getline] delivers leaves the delimiters out. *)
Lemma getlines_length (delim : ascii) (s : string) :
  forall line p, In p (TAR.getlines delim s line) ->
    String.length p + occurrences delim s
    <= String.length line + String.length s.
Proof.
  induction s as [|c s IH]; intros line p; cbn [TAR.getlines occurrences].
  - destruct (TAR.empty line); cbn; [tauto|]. intros [<- | []]. cbn. lia.
  - destruct (Ascii.eqb c delim); cbn [In String.length].
    + intros [<- | Hin].
      * pose proof (occurrences_le delim s). lia.
      * specialize (IH EmptyString p Hin). cbn in IH. lia.
    + intros Hin. specialize (IH _ p Hin).
      rewrite length_string_append in IH. cbn in IH. lia.
Qed.

Lemma found_bar_occurs (s : string) :
  TAR.found " | " s = true -> 1 <= occurrences "|" s.
Proof.
  induction s as [|c s IH]; cbn [TAR.found occurrences].
  - cbn. discriminate.
  - intros H. apply orb_prop in H as [H | H].
    + destruct s as [|d s]; unfold String.prefix in H;
        destruct (ascii_dec " " c); try discriminate H.
      destruct (ascii_dec "|" d) as [<-|]; [|discriminate H].
      cbn. lia.
    + specialize (IH H). lia.
Qed.

Lemma resolve_elements_total (resolve : string -> option QType)
  (build : list QType -> QType) (bound : nat) (strs : list string) :
  (forall s, String.length s < bound -> exists t, resolve s = Some t) ->
  (forall p, In p strs -> String.length p < bound) ->
  forall resolved, exists t, resolve_elements resolve build strs resolved = Some t.
Proof.
  intros Hresolve. induction strs as [|p strs IH]; intros Hshort resolved;
    cbn [resolve_elements].
  - now eexists.
  - destruct (Hresolve (TAR.trim p)) as [t ->].
    { pose proof (length_trim p). specialize (Hshort p (or_introl eq_refl)). lia. }
    destruct (isError t); [now eexists|].
    apply IH. intros q Hq. apply Hshort. now right.
Qed.

(** X29.  [resolveAnnotation] ends on every string: each of its recursive
    calls is for a strictly shorter string, so a recursion one level deeper
    than the annotation is long always returns a type, an error type for
    what it does not recognise; and [validateTypeAnnotation] answers. *)
Theorem resolveAnnotation_total (fuel : nat) :
  forall annotation,
    String.length annotation < fuel ->
    (exists t, TAR.resolveAnnotation fuel annotation = Some t) /\
    (exists b, TAR.validateTypeAnnotation fuel annotation = Some b).
Proof.
  assert (forall annotation, String.length annotation < fuel ->
            exists t, TAR.resolveAnnotation fuel annotation = Some t) as Htotal.
  { induction fuel as [|fuel IH]; intros annotation Hlen; [lia|].
    rewrite resolveAnnotation_unfold.
    destruct (TAR.empty annotation) eqn:Hempty; [now eexists|].
    assert (1 <= String.length annotation) as Hpos
      by (destruct annotation; [discriminate Hempty | cbn; lia]).
    repeat match goal with
           | |- exists t, (if ?c then Some _ else _) = Some t =>
               destruct c; [now eexists|]
           end.
    destruct (_ && _).
    { destruct (IH (TAR.substr annotation 5 (String.length annotation - 6)))
        as [t ->].
      { pose proof (length_substring annotation 5
                      (String.length annotation - 6)).
        unfold TAR.substr. lia. }
      destruct (isError t); now eexists. }
    destruct (_ && _).
    { apply (resolve_elements_total _ _ fuel); [exact IH|].
      intros p Hp. apply getlines_length in Hp. cbn in Hp.
      pose proof (length_substring annotation 6
                    (String.length annotation - 7)).
      unfold TAR.substr in *. lia. }
    destruct (TAR.found " | " annotation) eqn:Hfound; [|now eexists].
    apply (resolve_elements_total _ _ fuel); [exact IH|].
    intros p Hp. apply getlines_length in Hp. cbn in Hp.
    pose proof (found_bar_occurs annotation Hfound). lia. }
  intros annotation Hlen. split; [now apply Htotal|].
  unfold TAR.validateTypeAnnotation.
  destruct (Htotal annotation Hlen) as [t ->]. now eexists.
Qed.

Lemma resolveAnnotation_total_witness :
  (exists t, TAR.resolveAnnotation 18 "tuple[int, float]" = Some t) /\
  (exists b, TAR.validateTypeAnnotation 18 "tuple[int, float]" = Some b).
Proof.
  apply (resolveAnnotation_total 18 "tuple[int, float]"). vm_compute. lia.
Defined.

Lemma back_append_char (s : string) (c d : ascii) :
  TAR.back (String c (s ++ String d EmptyString)) = Some d.
Proof.
  revert c. induction s as [|e s IH]; intros c; [reflexivity|].
  change (String.append (String e s) (String d EmptyString))
    with (String e (String.append s (String d EmptyString))).
  cbn [TAR.back]. apply IH.
Qed.

Lemma back_skip (c d : ascii) (s : string) :
  TAR.back (String c (String d s)) = TAR.back (String d s).
Proof. reflexivity. Qed.

Lemma substring_append_prefix (a b : string) :
  String.substring 0 (String.length a) (a ++ b) = a.
Proof.
  induction a as [|c a IH].
  - destruct b; reflexivity.
  - change (String.append (String c a) b) with (String c (String.append a b)).
    cbn [String.length String.substring]. now rewrite IH.
Qed.

Lemma list_of_primitives_not_error (t : QType) :
  list_of_primitives t = true -> isError t = false.
Proof. destruct t; try discriminate; reflexivity. Qed.

(** X30.  An annotation is read back as the type it was printed from: for
    a primitive type, [void] or a list of such types at any depth,
    [resolveAnnotation] applied to [toString] of the type returns the
    type. *)
Theorem resolveAnnotation_toString (t : QType) :
  list_of_primitives t = true ->
  forall fuel, String.length (toString t) < fuel ->
    TAR.resolveAnnotation fuel (toString t) = Some t.
Proof.
  induction t; intros Hprim; try discriminate Hprim;
    intros [|fuel] Hlen; try (cbn in Hlen; lia); try reflexivity.
  cbn [list_of_primitives] in Hprim. specialize (IHt Hprim fuel).
  rewrite resolveAnnotation_unfold.
  cbn [toString] in *.
  set (X := toString t) in *.
  change ("list[" ++ X ++ "]")
    with (String "l" (String "i" (String "s" (String "t"
            (String "[" (X ++ "]")))))) in *.
  cbn [TAR.empty String.eqb Ascii.eqb Bool.eqb orb andb TAR.substr
       String.substring].
  replace (String.substring 0 0 (X ++ "]")) with EmptyString
    by (now destruct (X ++ "]")).
  rewrite !back_skip, !back_append_char.
  cbn [Ascii.eqb Bool.eqb andb].
  cbn [String.length] in *. rewrite length_string_append in *.
  cbn [String.length] in *.
  replace (S (S (S (S (S (String.length X + 1))))) - 6)
    with (String.length X) by lia.
  rewrite substring_append_prefix.
  rewrite IHt by lia.
  now rewrite (list_of_primitives_not_error t Hprim).
Qed.

Lemma resolveAnnotation_toString_witness :
  TAR.resolveAnnotation 16 "list[list[int]]" = Some (ListType (ListType IntType)).
Proof.
  apply (resolveAnnotation_toString (ListType (ListType IntType)) eq_refl 16).
  vm_compute. lia.
Defined.

(* ------------------------------------------------------------------ *)
(** ** Checking a program                                              *)
(* ------------------------------------------------------------------ *)

Lemma reportError_fold (tc : TypeChecker.t) (messages : list string) :
  TypeChecker.type_env (fold_left reportError messages tc)
    = TypeChecker.type_env tc /\
  TypeChecker.current_context (fold_left reportError messages tc)
    = TypeChecker.current_context tc /\
  TypeChecker.warning_messages (fold_left reportError messages tc)
    = TypeChecker.warning_messages tc.
Proof.
  revert tc. induction messages as [|m messages IH]; intros tc; [easy|].
  cbn [fold_left]. destruct (IH (reportError tc m)) as (-> & -> & ->). easy.
Qed.

Lemma declareSignature_fold (functions : list FunctionAST) :
  forall tc tc' : TypeChecker.t,
    TypeChecker.type_env tc = TypeChecker.type_env tc' ->
    TypeChecker.type_env (fold_left declareSignature functions tc)
      = TypeChecker.type_env (fold_left declareSignature functions tc') /\
    (TypeChecker.type_env tc <> [] ->
     TypeChecker.type_env (fold_left declareSignature functions tc) <> []) /\
    TypeChecker.current_context (fold_left declareSignature functions tc)
      = TypeChecker.current_context tc /\
    TypeChecker.warning_messages (fold_left declareSignature functions tc)
      = TypeChecker.warning_messages tc.
Proof.
  induction functions as [|f functions IH]; intros tc tc' Henv; [easy|].
  cbn [fold_left].
  destruct (IH (declareSignature tc f) (declareSignature tc' f))
    as (H1 & H2 & H3 & H4).
  { unfold declareSignature, TypeChecker.defineFunction. cbn. now rewrite Henv. }
  split; [exact H1|]. split; [|split; [exact H3 | exact H4]].
  intros Hne. apply H2.
  unfold declareSignature, TypeChecker.defineFunction,
    TypeEnvironment.defineFunction. cbn.
  destruct (TypeChecker.type_env tc); [congruence | discriminate].
Qed.

Lemma checkAndReport_environment (out_of_range_int : double -> Z)
  (tc : TypeChecker.t) (func : FunctionAST) :
  TypeChecker.type_env tc <> [] ->
  TypeChecker.type_env (checkAndReport out_of_range_int tc func)
    = TypeChecker.type_env tc /\
  TypeChecker.warning_messages (checkAndReport out_of_range_int tc func)
    = TypeChecker.warning_messages tc.
Proof.
  intros Hne. unfold checkAndReport.
  destruct (checkFunction_environment out_of_range_int tc func Hne)
    as ((_ & _ & _ & Hw) & Henv & _).
  destruct (TypeChecker.checkFunction out_of_range_int tc func)
    as [result tc1]. cbn [snd] in *.
  destruct (hasErrors result); [|now split].
  destruct (reportError_fold tc1 (errors result)) as (-> & _ & ->).
  now split.
Qed.

(** X1.  What [checkProgram] leaves behind: the type environment holds the
    declarations of the functions of the program and nothing else of them,
    no parameter and no variable of a body; the result has the type
    [void] and no warning; and neither the messages nor the inference
    context that the checker held before the call have any influence. *)
Theorem checkProgram_environment (out_of_range_int : double -> Z)
  (tc : TypeChecker.t) (functions : list FunctionAST) :
  TypeChecker.type_env tc <> [] ->
  let result := checkProgram out_of_range_int tc (Some functions) in
  snd result
    = TypeChecker.type_env (fold_left declareSignature functions tc) /\
  type (fst result) = Some VoidType /\
  warnings (fst result) = [] /\
  result = checkProgram out_of_range_int
             (TypeChecker.mk (TypeChecker.type_env tc)
                InferenceContext.empty [] [])
             (Some functions).
Proof.
  intros Hne. cbn zeta. unfold checkProgram. cbn [fst snd type warnings].
  split; [|split; [reflexivity|split; [|reflexivity]]].
  - unfold checkFunctions.
    destruct (declareSignature_fold functions (beginInference (clearMessages tc))
                tc eq_refl) as (Henv & Hne1 & _).
    rewrite <- Henv. specialize (Hne1 Hne). clear Henv.
    generalize dependent (fold_left declareSignature functions
                            (beginInference (clearMessages tc))).
    induction functions as [|f fs IH]; intros tc1 Hne1; [reflexivity|].
    cbn [fold_left].
    destruct (checkAndReport_environment out_of_range_int tc1 f Hne1)
      as [Henv _].
    rewrite IH by (now rewrite Henv). exact Henv.
  - unfold checkFunctions.
    destruct (declareSignature_fold functions (beginInference (clearMessages tc))
                tc eq_refl) as (_ & Hne1 & _ & Hw).
    specialize (Hne1 Hne). cbn in Hw.
    generalize dependent (fold_left declareSignature functions
                            (beginInference (clearMessages tc))).
    induction functions as [|f fs IH]; intros tc1 Hne1 Hw; [exact Hw|].
    cbn [fold_left].
    destruct (checkAndReport_environment out_of_range_int tc1 f Hne1)
      as [Henv Hw1].
    apply IH; [now rewrite Henv | now rewrite Hw1].
Qed.

Lemma checkProgram_environment_witness :
  snd (checkProgram TypeChecker.cvttsd2si_indefinite TypeChecker.create
         (Some [fib]))
  = TypeChecker.type_env
      (fold_left declareSignature [fib] TypeChecker.create).
Proof.
  apply (checkProgram_environment TypeChecker.cvttsd2si_indefinite
           TypeChecker.create [fib]).
  discriminate.
Defined.

(** *** Calls and arithmetic *)

Lemma opaque_call_clone (t : QType) : opaque_call (clone t) = opaque_call t.
Proof. now rewrite clone_id. Qed.

Lemma lookup_in_scope (scopes : TypeEnvironment.t) (n : string) (ty : QType) :
  TypeEnvironment.lookup scopes n = Some ty ->
  exists scope, In scope scopes /\ scope !! n = Some ty.
Proof.
  induction scopes as [|scope outer IH]; cbn [TypeEnvironment.lookup];
    [discriminate|].
  destruct (scope !! n) as [found|] eqn:E.
  - intros H. injection H as <-. exists scope. split; [now left | exact E].
  - intros H. destruct (IH H) as (s & Hs & Hn). exists s. split; [now right | exact Hn].
Qed.

Lemma lookupVariable_opaque (tc : TypeChecker.t) (n : string) (ty : QType) :
  opaque_calls tc -> TypeChecker.lookupVariable tc n = Some ty ->
  opaque_call ty = true.
Proof.
  intros [Henv Hctx]. unfold TypeChecker.lookupVariable.
  destruct (InferenceContext.getVariableType (TypeChecker.current_context tc) n)
    as [context_type|] eqn:E.
  - intros H. injection H as <-. now apply (Hctx n).
  - intros H. apply lookup_in_scope in H as (scope & Hs & Hn).
    now apply (Henv scope n).
Qed.

Lemma lookupFunction_opaque (tc : TypeChecker.t) (callee : string)
  (arg_types : list (option QType)) (ps : list QType) (r : QType) :
  opaque_calls tc ->
  TypeChecker.lookupFunction tc callee arg_types = Some (FunctionType ps r) ->
  isUnknown r || isVoid r = true.
Proof.
  intros [Henv _].
  unfold TypeChecker.lookupFunction, TypeEnvironment.lookupFunction.
  destruct (TypeEnvironment.lookup (TypeChecker.type_env tc) callee)
    as [[]|] eqn:E; try discriminate.
  apply lookup_in_scope in E as (scope & Hs & Hn).
  specialize (Henv scope callee _ Hs Hn). cbn in Henv.
  destruct (negb _); [discriminate|].
  match goal with |- (if ?b then _ else _) = _ -> _ => destruct b end;
    [|discriminate].
  intros H. injection H as _ <-. exact Henv.
Qed.

Lemma inferArguments_inl (infer : option ExprAST -> TypeCheckResult)
  (args : list (option ExprAST)) :
  forall acc r, TypeChecker.inferArguments infer args acc = inl r ->
                hasErrors r = true /\ exists a, In a args /\ r = infer a.
Proof.
  induction args as [|a args IH]; intros acc r; cbn [TypeChecker.inferArguments];
    [discriminate|].
  destruct (hasErrors (infer a)) eqn:E.
  - intros H. injection H as <-. split; [exact E|]. exists a. split; [now left | reflexivity].
  - intros H. destruct (IH _ _ H) as (Hr & b & Hb & ->).
    split; [exact Hr|]. exists b. split; [now right | reflexivity].
Qed.

(** A call without errors has the type [unknown] or [void]. *)
Lemma inferCallType_opaque (tc : TypeChecker.t)
  (infer : option ExprAST -> TypeCheckResult)
  (callee : string) (args : list (option ExprAST)) (ty : QType) :
  opaque_calls tc ->
  hasErrors (TypeChecker.inferCallType tc infer callee args) = false ->
  type (TypeChecker.inferCallType tc infer callee args) = Some ty ->
  isUnknown ty || isVoid ty = true.
Proof.
  intros Hinv. unfold TypeChecker.inferCallType.
  destruct (TypeChecker.inferArguments infer args []) as [r|arg_types] eqn:E.
  - apply inferArguments_inl in E as [Hr _]. congruence.
  - destruct (TypeChecker.lookupFunction tc callee arg_types) as [[]|] eqn:El;
      try discriminate.
    intros _ H. cbn in H. injection H as <-. rewrite clone_id.
    now apply (lookupFunction_opaque tc callee arg_types param_types).
Qed.

Lemma opaque_not_numeric (ty : QType) :
  isUnknown ty || isVoid ty = true -> isNumeric ty = false.
Proof. destruct ty; try discriminate; reflexivity. Qed.

(** Every type that expression inference returns is opaque. *)
Lemma inferExpr_opaque (out_of_range_int : double -> Z) (tc : TypeChecker.t)
  (e : ExprAST) :
  opaque_calls tc ->
  forall ty, type (TypeChecker.inferExpr out_of_range_int tc e) = Some ty ->
             opaque_call ty = true.
Proof.
  intros Hinv.
  induction e as [value | value | n | op lhs rhs IHl IHr | op operand IHo
                 | callee args IHargs] using ExprAST_nested_ind;
    intros ty; cbn [TypeChecker.inferExpr].
  - unfold TypeChecker.inferNumberType.
    destruct (double_eq_Z _ _); intros H; injection H as <-; reflexivity.
  - intros H. injection H as <-. reflexivity.
  - unfold TypeChecker.inferVariableType.
    destruct (TypeChecker.lookupVariable tc n) as [found|] eqn:E;
      [|discriminate].
    intros H. injection H as <-. rewrite opaque_call_clone.
    now apply (lookupVariable_opaque tc n).
  - unfold TypeChecker.inferBinaryType.
    destruct lhs as [l|]; [|discriminate].
    destruct (hasErrors (TypeChecker.inferExpr out_of_range_int tc l));
      [apply IHl|].
    destruct rhs as [r|]; [|discriminate].
    destruct (hasErrors (TypeChecker.inferExpr out_of_range_int tc r));
      [apply IHr|].
    destruct (type (TypeChecker.inferExpr out_of_range_int tc l)) as [lt|];
      [|discriminate].
    destruct (type (TypeChecker.inferExpr out_of_range_int tc r)) as [rt|];
      [|discriminate].
    destruct (TypeChecker.is_arithmetic_op op).
    + destruct (isNumeric lt && isNumeric rt) eqn:E; [|discriminate].
      intros H. injection H as <-.
      unfold TypeFactory.promoteNumericTypes.
      repeat match goal with
             | |- opaque_call (if ?b then _ else _) = _ => destruct b
             end; reflexivity.
    + destruct (TypeChecker.is_comparison_op op); [|discriminate].
      destruct (TypeChecker.isComparable _ _); [|discriminate].
      intros H. injection H as <-. reflexivity.
  - unfold TypeChecker.inferUnaryType.
    destruct operand as [o|]; [|discriminate].
    destruct (hasErrors (TypeChecker.inferExpr out_of_range_int tc o));
      [apply IHo|].
    destruct (type (TypeChecker.inferExpr out_of_range_int tc o)) as [ot|] eqn:E;
      [|discriminate].
    destruct (Ascii.eqb op "-").
    + destruct (isNumeric ot); [|discriminate].
      intros H. injection H as <-. rewrite opaque_call_clone. now apply IHo.
    + destruct (Ascii.eqb op "!"); [|discriminate].
      intros H. injection H as <-. reflexivity.
  - unfold TypeChecker.inferCallType.
    match goal with
    | |- context [TypeChecker.inferArguments ?f args []] =>
        destruct (TypeChecker.inferArguments f args []) as [r|arg_types] eqn:E
    end.
    + apply inferArguments_inl in E as (_ & a & Ha & ->).
      rewrite Forall_forall in IHargs.
      destruct a as [a|]; [|discriminate].
      apply (IHargs (Some a)). now apply list_elem_of_In.
    + destruct (TypeChecker.lookupFunction tc callee arg_types) as [[]|] eqn:El;
        try discriminate.
      intros H. cbn in H. injection H as <-. rewrite clone_id.
      pose proof (lookupFunction_opaque tc callee arg_types _ _ Hinv El) as Hr.
      destruct return_type; try discriminate Hr; reflexivity.
Qed.

Lemma opaque_calls_context (tc : TypeChecker.t) (ctx : InferenceContext.t) :
  opaque_calls tc -> opaque_context ctx ->
  opaque_calls (TypeChecker.with_context tc ctx).
Proof. intros [Henv _] Hctx. split; [exact Henv | exact Hctx]. Qed.

Lemma opaque_calls_define (tc : TypeChecker.t) (n : string) (ty : QType) :
  opaque_calls tc -> opaque_call ty = true ->
  opaque_calls (TypeChecker.defineVariable tc n ty).
Proof.
  intros [Henv Hctx] Hty. split; [|exact Hctx].
  unfold TypeChecker.defineVariable; cbn.
  destruct (TypeChecker.type_env tc) as [|back rest]; cbn; [tauto|].
  intros scope m ty' [<- | Hin] Hm.
  - destruct (decide (m = n)) as [->|Hne].
    + rewrite lookup_insert_eq in Hm. congruence.
    + rewrite lookup_insert_ne in Hm by congruence.
      apply (Henv back m); [now left | exact Hm].
  - apply (Henv scope m); [now right | exact Hm].
Qed.

Lemma opaque_context_set (ctx : InferenceContext.t) (n : string) (ty : QType) :
  opaque_context ctx -> opaque_call ty = true ->
  opaque_context (InferenceContext.setVariableType ctx n ty).
Proof.
  intros Hctx Hty m ty'.
  unfold InferenceContext.getVariableType, InferenceContext.setVariableType; cbn.
  destruct (decide (m = n)) as [->|Hne].
  - rewrite lookup_insert_eq. congruence.
  - rewrite lookup_insert_ne by congruence. apply Hctx.
Qed.

Lemma opaque_context_clone (ctx : InferenceContext.t) :
  opaque_context ctx -> opaque_context (InferenceContext.clone ctx).
Proof.
  intros Hctx n ty.
  unfold InferenceContext.getVariableType, InferenceContext.clone; cbn.
  rewrite lookup_fmap.
  destruct (InferenceContext.variable_types ctx !! n) as [t|] eqn:E;
    [|discriminate].
  cbn. intros H. injection H as <-. rewrite opaque_call_clone.
  now apply (Hctx n).
Qed.

Lemma unifyTypes_opaque (a b : QType) :
  opaque_call a = true -> opaque_call b = true ->
  opaque_call (TypeFactory.unifyTypes (Some a) (Some b)) = true.
Proof.
  intros Ha Hb. unfold TypeFactory.unifyTypes.
  destruct (equals a (Some b)); [now rewrite opaque_call_clone|].
  destruct (isNumeric a && isNumeric b).
  { unfold TypeFactory.promoteNumericTypes.
    repeat match goal with
           | |- opaque_call (if ?c then _ else _) = _ => destruct c
           end; reflexivity. }
  destruct (isUnknown a); [now rewrite opaque_call_clone|].
  destruct (isUnknown b); [now rewrite opaque_call_clone|].
  reflexivity.
Qed.

Lemma opaque_context_merge (a b : InferenceContext.t) :
  opaque_context a -> opaque_context b ->
  opaque_context (InferenceContext.merge a b).
Proof.
  intros Ha Hb n ty. specialize (Ha n). specialize (Hb n).
  unfold InferenceContext.getVariableType, InferenceContext.merge in *; cbn.
  rewrite lookup_merge.
  destruct (InferenceContext.variable_types a !! n) as [t|],
           (InferenceContext.variable_types b !! n) as [o|]; cbn;
    try discriminate.
  - destruct (negb _); intros H; injection H as <-.
    + apply unifyTypes_opaque; auto.
    + auto.
  - intros H. injection H as <-. auto.
  - intros H. injection H as <-. rewrite opaque_call_clone. auto.
Qed.

Lemma opaque_calls_pushScope (tc : TypeChecker.t) :
  opaque_calls tc -> opaque_calls (TypeChecker.pushScope tc).
Proof.
  intros [Henv Hctx]. split; [|exact Hctx].
  intros scope n ty [<- | Hin] Hn; [now rewrite lookup_empty in Hn|].
  now apply (Henv scope n).
Qed.

Lemma opaque_calls_popScope (tc : TypeChecker.t) :
  opaque_calls tc -> opaque_calls (TypeChecker.popScope tc).
Proof.
  intros [Henv Hctx]. split; [|exact Hctx].
  unfold TypeChecker.popScope, TypeEnvironment.popScope; cbn.
  destruct (TypeChecker.type_env tc) as [|back [|next rest]]; cbn;
    [exact Henv | exact Henv |].
  intros scope n ty Hin. apply Henv. now right.
Qed.

Lemma opaque_calls_mark (tc : TypeChecker.t) (n : string) :
  opaque_calls tc -> opaque_calls (TypeChecker.markVariableModified tc n).
Proof. intros [Henv Hctx]. split; [exact Henv | exact Hctx]. Qed.

Lemma checkAssignment_opaque (out_of_range_int : double -> Z)
  (tc : TypeChecker.t) (n : string) (value : option ExprAST) :
  opaque_calls tc ->
  opaque_calls (snd (TypeChecker.checkAssignment out_of_range_int tc n value)).
Proof.
  intros Hinv. unfold TypeChecker.checkAssignment.
  destruct (hasErrors _) eqn:Herr; [exact Hinv|].
  destruct (TypeChecker.lookupVariable tc n).
  - destruct (negb _); [exact Hinv | now apply opaque_calls_mark].
  - destruct (type _) as [ty|] eqn:Hty; [|exact Hinv].
    assert (opaque_call (clone ty) = true) as Hopaque.
    { rewrite opaque_call_clone.
      destruct value as [e|]; [|discriminate Hty].
      now apply (inferExpr_opaque out_of_range_int tc e). }
    cbn [snd]. apply opaque_calls_mark.
    pose proof (opaque_calls_define tc n (clone ty) Hinv Hopaque) as Hdef.
    apply opaque_calls_context; [exact Hdef|].
    apply opaque_context_set; [exact (proj2 Hdef) | exact Hopaque].
Qed.

Lemma checkIf_opaque (out_of_range_int : double -> Z)
  (check : TypeChecker.t -> option StmtAST -> TypeCheckResult * TypeChecker.t)
  (tc : TypeChecker.t) (condition : option ExprAST)
  (then_stmt else_stmt : option StmtAST) :
  (forall tc, opaque_calls tc -> opaque_calls (snd (check tc then_stmt))) ->
  (forall tc, opaque_calls tc -> opaque_calls (snd (check tc else_stmt))) ->
  opaque_calls tc ->
  opaque_calls (snd (TypeChecker.checkIf out_of_range_int check tc condition
                       then_stmt else_stmt)).
Proof.
  intros Hthen Helse Hinv. unfold TypeChecker.checkIf.
  destruct (hasErrors _); [exact Hinv|].
  destruct (type _); [|exact Hinv].
  destruct (negb _ && negb _); [exact Hinv|].
  specialize (Hthen tc Hinv).
  assert (opaque_context
            (InferenceContext.clone (TypeChecker.current_context tc)))
    as Hsnapshot by (apply opaque_context_clone; exact (proj2 Hinv)).
  destruct (check tc then_stmt) as [then_result tc1]; cbn [snd] in Hthen.
  destruct else_stmt as [s|]; cbn [snd].
  - specialize (Helse tc1 Hthen).
    assert (opaque_context
              (InferenceContext.clone (TypeChecker.current_context tc1)))
      as Hsnapshot1 by (apply opaque_context_clone; exact (proj2 Hthen)).
    destruct (check tc1 (Some s)) as [else_result tc2]; cbn [snd] in *.
    apply opaque_calls_context; [exact Helse|].
    now apply opaque_context_merge.
  - now apply opaque_calls_context.
Qed.

Lemma checkWhile_opaque (out_of_range_int : double -> Z)
  (check : TypeChecker.t -> option StmtAST -> TypeCheckResult * TypeChecker.t)
  (tc : TypeChecker.t) (condition : option ExprAST) (body : option StmtAST) :
  (forall tc, opaque_calls tc -> opaque_calls (snd (check tc body))) ->
  opaque_calls tc ->
  opaque_calls (snd (TypeChecker.checkWhile out_of_range_int check tc
                       condition body)).
Proof.
  intros Hbody Hinv. unfold TypeChecker.checkWhile.
  destruct (hasErrors _); [exact Hinv|].
  destruct (type _); [|exact Hinv].
  destruct (negb _ && negb _); [exact Hinv|].
  specialize (Hbody tc Hinv).
  destruct (check tc body) as [body_result tc1]; exact Hbody.
Qed.

Lemma checkBlock_opaque
  (check : TypeChecker.t -> option StmtAST -> TypeCheckResult * TypeChecker.t)
  (tc : TypeChecker.t) (statements : list (option StmtAST)) :
  Forall (fun s => forall tc, opaque_calls tc ->
                     opaque_calls (snd (check tc s))) statements ->
  opaque_calls tc ->
  opaque_calls (snd (TypeChecker.checkBlock check tc statements)).
Proof.
  intros Hall Hinv. unfold TypeChecker.checkBlock.
  assert (forall result tc,
            opaque_calls tc ->
            opaque_calls
              (snd (TypeChecker.checkStatements check statements result tc)))
    as Hloop.
  { induction Hall as [|s rest Hs _ IH]; intros result tc0 H0;
      cbn [TypeChecker.checkStatements]; [exact H0|].
    specialize (Hs tc0 H0).
    destruct (check tc0 s) as [stmt_result tc1]; cbn [snd] in Hs.
    now apply IH. }
  specialize (Hloop (result_of TypeFactory.createVoid)
                (TypeChecker.pushScope tc) (opaque_calls_pushScope tc Hinv)).
  destruct (TypeChecker.checkStatements check statements _ _) as [result tc1].
  cbn [snd] in *. now apply opaque_calls_popScope.
Qed.

Lemma checkStmt_opaque (out_of_range_int : double -> Z) (s : StmtAST) :
  forall tc, opaque_calls tc ->
    opaque_calls (snd (TypeChecker.checkStmt out_of_range_int tc s)).
Proof.
  induction s as [n value | expression | statements IH
                 | condition then_stmt else_stmt IHt IHe
                 | condition body IHb | value | expression]
    using StmtAST_nested_ind; intros tc Hinv; cbn [TypeChecker.checkStmt].
  - now apply checkAssignment_opaque.
  - exact Hinv.
  - apply checkBlock_opaque; [|exact Hinv].
    eapply Forall_impl; [exact IH|].
    intros [s|] Hs tc' Hinv'; [now apply Hs | exact Hinv'].
  - apply checkIf_opaque; [| |exact Hinv].
    + destruct then_stmt; intros tc' Hinv'; [now apply IHt | exact Hinv'].
    + destruct else_stmt; intros tc' Hinv'; [now apply IHe | exact Hinv'].
  - apply checkWhile_opaque; [|exact Hinv].
    destruct body; intros tc' Hinv'; [now apply IHb | exact Hinv'].
  - unfold TypeChecker.checkReturn. destruct value; exact Hinv.
  - unfold TypeChecker.checkPrint. destruct (hasErrors _); exact Hinv.
Qed.

Lemma checkAndReport_opaque (out_of_range_int : double -> Z)
  (tc : TypeChecker.t) (func : FunctionAST) :
  opaque_calls tc -> opaque_calls (checkAndReport out_of_range_int tc func).
Proof.
  intros Hinv. unfold checkAndReport, TypeChecker.checkFunction.
  assert (forall params tc0, opaque_calls tc0 ->
            opaque_calls
              (fold_left (fun tc param_name =>
                            TypeChecker.defineVariable tc param_name
                              TypeFactory.createFloat) params tc0)) as Hparams.
  { induction params as [|p params IH]; intros tc0 H0; [exact H0|].
    cbn [fold_left]. apply IH. now apply opaque_calls_define. }
  specialize (Hparams (fn_args func) _ (opaque_calls_pushScope tc Hinv)).
  set (tc1 := fold_left _ (fn_args func) (TypeChecker.pushScope tc)) in *.
  assert (opaque_calls
            (snd (TypeChecker.checkStatement out_of_range_int tc1
                    (fn_body func)))) as Hbody.
  { destruct (fn_body func) as [s|]; cbn [TypeChecker.checkStatement];
      [now apply checkStmt_opaque | exact Hparams]. }
  destruct (TypeChecker.checkStatement out_of_range_int tc1 (fn_body func))
    as [body_result tc2]. cbn [snd] in Hbody.
  apply opaque_calls_popScope in Hbody.
  match goal with
  | |- opaque_calls (if ?b then fold_left reportError ?l ?t else _) =>
      destruct b; [|exact Hbody];
      destruct (reportError_fold t l) as (Henv & Hctx & _)
  end.
  destruct Hbody as [H1 H2]. split.
  - intros scope n ty. rewrite Henv. apply H1.
  - intros n ty. rewrite Hctx. apply H2.
Qed.

(** X12.  While a program is checked, every function type in scope returns
    [unknown] or [void]: this holds once the signatures are declared and is
    kept by the check of every function and statement.  So a call never
    has a numeric type, and every arithmetic operation with a call as an
    operand, and every unary minus applied to a call, is reported as a type
    error. *)
Theorem arithmetic_on_call_rejected (out_of_range_int : double -> Z)
  (functions : list FunctionAST) :
  let declared :=
    fold_left declareSignature functions
      (beginInference (clearMessages TypeChecker.create)) in
  (forall checked,
     opaque_calls (fold_left (checkAndReport out_of_range_int) checked declared)) /\
  (forall tc, opaque_calls tc ->
     (forall stmt,
        opaque_calls (snd (TypeChecker.checkStatement out_of_range_int tc stmt))) /\
     (forall callee args op other,
        TypeChecker.is_arithmetic_op op = true ->
        hasErrors (TypeChecker.inferExpr out_of_range_int tc
                     (BinaryExprAST op (Some (CallExprAST callee args)) other))
          = true /\
        hasErrors (TypeChecker.inferExpr out_of_range_int tc
                     (BinaryExprAST op other (Some (CallExprAST callee args))))
          = true) /\
     (forall callee args,
        hasErrors (TypeChecker.inferExpr out_of_range_int tc
                     (UnaryExprAST "-" (Some (CallExprAST callee args))))
          = true)).
Proof.
  cbn zeta. split.
  - assert (opaque_calls (beginInference (clearMessages TypeChecker.create)))
      as Hcreate.
    { split.
      - intros scope n ty [<- | []]. cbn.
        destruct (decide (n = "print")) as [->|Hne].
        + rewrite lookup_insert_eq. intros H. injection H as <-. reflexivity.
        + rewrite lookup_insert_ne by congruence. now rewrite lookup_empty.
      - intros n ty. cbn. unfold InferenceContext.getVariableType. cbn.
        now rewrite lookup_empty. }
    assert (forall fs tc, opaque_calls tc ->
              opaque_calls (fold_left declareSignature fs tc)) as Hdeclare.
    { induction fs as [|f fs IH]; intros tc H; [exact H|].
      cbn [fold_left]. apply IH. unfold declareSignature.
      now apply (opaque_calls_define tc (fn_name f)). }
    intros checked.
    generalize (Hdeclare functions _ Hcreate).
    generalize (fold_left declareSignature functions
                  (beginInference (clearMessages TypeChecker.create))).
    induction checked as [|f checked IH]; intros tc H; [exact H|].
    cbn [fold_left]. apply IH. now apply checkAndReport_opaque.
  - intros tc Hinv. split; [|split].
    + intros [s|]; cbn [TypeChecker.checkStatement];
        [now apply checkStmt_opaque | exact Hinv].
    + intros callee args op other Hop.
      cbn [TypeChecker.inferExpr]. unfold TypeChecker.inferBinaryType.
      rewrite Hop.
      set (call := TypeChecker.inferExpr out_of_range_int tc
                     (CallExprAST callee args)).
      assert (hasErrors call = false ->
              forall ty, type call = Some ty -> isNumeric ty = false) as Hcall.
      { subst call. cbn [TypeChecker.inferExpr]. intros Hno ty Hty.
        apply opaque_not_numeric.
        now apply (inferCallType_opaque tc _ callee args ty Hinv Hno). }
      split.
      * destruct (hasErrors call) eqn:Herr; [exact Herr|].
        match goal with
        | |- hasErrors (if hasErrors ?r then _ else _) = _ =>
            destruct (hasErrors r) eqn:Hother; [exact Hother|]
        end.
        destruct (type call) as [lt|] eqn:Hlt; [|reflexivity].
        rewrite (Hcall eq_refl lt eq_refl).
        match goal with
        | |- hasErrors (match ?o with Some _ => _ | None => _ end) = _ =>
            destruct o; reflexivity
        end.
      * match goal with
        | |- hasErrors (if hasErrors ?r then _ else _) = _ =>
            destruct (hasErrors r) eqn:Hother; [exact Hother|]
        end.
        destruct (hasErrors call) eqn:Herr; [exact Herr|].
        match goal with
        | |- hasErrors (match ?o with Some _ => _ | None => _ end) = _ =>
            destruct o; [|reflexivity]
        end.
        destruct (type call) as [rt|] eqn:Hrt; [|reflexivity].
        rewrite (Hcall eq_refl rt eq_refl), andb_false_r. reflexivity.
    + intros callee args.
      cbn [TypeChecker.inferExpr]. unfold TypeChecker.inferUnaryType.
      set (call := TypeChecker.inferExpr out_of_range_int tc
                     (CallExprAST callee args)).
      assert (hasErrors call = false ->
              forall ty, type call = Some ty -> isNumeric ty = false) as Hcall.
      { subst call. cbn [TypeChecker.inferExpr]. intros Hno ty Hty.
        apply opaque_not_numeric.
        now apply (inferCallType_opaque tc _ callee args ty Hinv Hno). }
      destruct (hasErrors call) eqn:Herr; [exact Herr|].
      destruct (type call) as [ty|] eqn:Hty; [|reflexivity].
      cbn [Ascii.eqb Bool.eqb].
      rewrite (Hcall eq_refl ty eq_refl). reflexivity.
Qed.
